(** * showdeps: dependency graph construction and queries

    A shallow embedding of [showdeps.go].  Go strings are byte strings and
    are modelled by [string]; [map[string][]string] is a [gmap string (list
    string)], [map[string]bool] with only [true] entries is a [gset string].
    A slice stored in the dependency map is either [nil] or was produced by
    [append], hence non-empty: both an absent key and a [nil] entry read as
    the empty list, exactly as [allPkgs[name]] does in Go. *)

From Stdlib Require Import Ascii.
From stdpp Require Import base gmap sets list strings sorting.

Set Warnings "-clear-no-such-hyp".

(** ** Strings *)

Module Strings.

(** [strings.Contains(s, string(c))] for a one-byte needle. *)
Fixpoint ContainsByte (s : string) (c : ascii) : bool :=
  match s with
  | EmptyString => false
  | String a s' => if Ascii.eqb a c then true else ContainsByte s' c
  end.

(** [strings.SplitN(s, string(c), 2)[0]]: the part of [s] before the first
    [c], or all of [s] when there is none. *)
Fixpoint FirstField (s : string) (c : ascii) : string :=
  match s with
  | EmptyString => EmptyString
  | String a s' => if Ascii.eqb a c then EmptyString else String a (FirstField s' c)
  end.

(** [strings.Join(ss, sep)]. *)
Fixpoint Join (ss : list string) (sep : string) : string :=
  match ss with
  | [] => ""
  | [s] => s
  | s :: rest => s +:+ sep +:+ Join rest sep
  end.

(** [strings.HasPrefix(s, p)]. *)
Fixpoint HasPrefix (s p : string) {struct p} : bool :=
  match p with
  | EmptyString => true
  | String b p' =>
      match s with
      | EmptyString => false
      | String a s' => if Ascii.eqb a b then HasPrefix s' p' else false
      end
  end.

(** [s[n:]]. *)
Fixpoint Drop (n : nat) (s : string) : string :=
  match n, s with
  | 0, _ => s
  | S n', String _ s' => Drop n' s'
  | S _, EmptyString => EmptyString
  end.

(** [s[:n]]. *)
Fixpoint Take (n : nat) (s : string) : string :=
  match n, s with
  | S n', String a s' => String a (Take n' s')
  | _, _ => EmptyString
  end.

(** [strings.HasSuffix(s, p)], which is
    [len(s) >= len(p) && s[len(s)-len(p):] == p]. *)
Definition HasSuffix (s p : string) : bool :=
  bool_decide (String.length p ≤ String.length s)
  && bool_decide (Drop (String.length s - String.length p) s = p).

(** [strings.Replace(s, old, new, -1)] for a non-empty [old]: occurrences
    are found left to right and do not overlap.  [skip] counts the bytes of
    an occurrence that are still to be passed over. *)
Fixpoint ReplaceFrom (skip : nat) (s old new : string) : string :=
  match s with
  | EmptyString => EmptyString
  | String a s' =>
      match skip with
      | S k => ReplaceFrom k s' old new
      | 0 =>
          if HasPrefix s old
          then new +:+ ReplaceFrom (String.length old - 1) s' old new
          else String a (ReplaceFrom 0 s' old new)
      end
  end.

Definition ReplaceAll (s old new : string) : string := ReplaceFrom 0 s old new.

End Strings.

(** ** Sorting and [uniq] *)

(** [sort.Strings]: ascending bytewise order.  Equal strings are
    indistinguishable, so every sorting algorithm returns the same slice. *)
Definition sort_Strings (ss : list string) : list string :=
  merge_sort String.le ss.

(** The loop of [uniq] works in place: [ss] is the backing array, [i] the
    index read by [range], [j] the write index. *)
Fixpoint uniq_loop (n i j : nat) (prev : string) (ss : list string)
  : list string * nat :=
  match n with
  | 0 => (ss, j)
  | S n' =>
      match ss !! i with
      | None => (ss, j)
      | Some s =>
          if bool_decide (s ≠ prev)
          then uniq_loop n' (S i) (S j) s (<[j:=s]> ss)
          else uniq_loop n' (S i) j prev ss
      end
  end.

Definition uniq (ss : list string) : list string :=
  let '(ss', j) := uniq_loop (length ss) 0 0 "" ss in take j ss'.

(** The list [uniq] leaves in [ss[0:j]], computed without the array. *)
Fixpoint squeeze (prev : string) (l : list string) : list string :=
  match l with
  | [] => []
  | s :: l' => if bool_decide (s ≠ prev) then s :: squeeze s l' else squeeze prev l'
  end.


(** ** UTF-8

    Go's [regexp] reads both the expression and the text as UTF-8.  The
    functions below follow package [unicode/utf8]. *)

Module utf8.

Local Open Scope Z_scope.

(** A code point; Go's [rune] is an [int32]. *)
Definition rune : Type := Z.

Definition RuneError : rune := 0xFFFD.

Definition byte (c : ascii) : Z := Z.of_N (N_of_ascii c).

Definition maskx : Z := 0x3F.
Definition mask2 : Z := 0x1F.
Definition mask3 : Z := 0x0F.
Definition mask4 : Z := 0x07.

Definition locb : Z := 0x80.
Definition hicb : Z := 0xBF.

(** The entries of the table [first]: the low three bits hold the length
    of the encoding, the high four bits an index into [acceptRanges]. *)
Definition xx : Z := 0xF1.
Definition as_ : Z := 0xF0.
Definition s1 : Z := 0x02.
Definition s2 : Z := 0x13.
Definition s3 : Z := 0x03.
Definition s4 : Z := 0x23.
Definition s5 : Z := 0x34.
Definition s6 : Z := 0x04.
Definition s7 : Z := 0x44.

(** The table [first], by the ranges of its index. *)
Definition first (b : Z) : Z :=
  if b <? 0x80 then as_
  else if b <? 0xC2 then xx
  else if b <? 0xE0 then s1
  else if b <? 0xE1 then s2
  else if b <? 0xED then s3
  else if b <? 0xEE then s4
  else if b <? 0xF0 then s3
  else if b <? 0xF1 then s5
  else if b <? 0xF4 then s6
  else if b <? 0xF5 then s7
  else xx.

(** The table [acceptRanges]: the bounds of the second byte. *)
Definition acceptRanges (i : Z) : Z * Z :=
  if i =? 0 then (locb, hicb)
  else if i =? 1 then (0xA0, hicb)
  else if i =? 2 then (locb, 0x9F)
  else if i =? 3 then (0x90, hicb)
  else if i =? 4 then (locb, 0x8F)
  else (0, 0).

(** [utf8.DecodeRuneInString]: the first rune of [s] and the number of
    bytes it takes.  An encoding that is not valid gives [RuneError] and
    the width 1.  The bytes [s[1]], [s[2]] and [s[3]] are read after the
    length has been compared with [sz], so the branches for a text that
    ends before them are never taken. *)
Definition DecodeRuneInString (s : string) : rune * nat :=
  match s with
  | EmptyString => (RuneError, 0%nat)
  | String c0 t0 =>
      let b0 := byte c0 in
      let x := first b0 in
      if as_ <=? x then
        let mask := if Z.odd x then -1 else 0 in
        (Z.lor (Z.ldiff b0 mask) (Z.land RuneError mask), 1%nat)
      else
        let sz := Z.to_nat (Z.land x 7) in
        let accept := acceptRanges (Z.shiftr x 4) in
        if (String.length s <? sz)%nat then (RuneError, 1%nat)
        else
          match t0 with
          | EmptyString => (RuneError, 1%nat)
          | String c1 t1 =>
              let b1 := byte c1 in
              if (b1 <? accept.1) || (accept.2 <? b1) then (RuneError, 1%nat)
              else if (sz <=? 2)%nat then
                (Z.lor (Z.shiftl (Z.land b0 mask2) 6) (Z.land b1 maskx), 2%nat)
              else
                match t1 with
                | EmptyString => (RuneError, 1%nat)
                | String c2 t2 =>
                    let b2 := byte c2 in
                    if (b2 <? locb) || (hicb <? b2) then (RuneError, 1%nat)
                    else if (sz <=? 3)%nat then
                      (Z.lor (Z.lor (Z.shiftl (Z.land b0 mask3) 12)
                                    (Z.shiftl (Z.land b1 maskx) 6))
                             (Z.land b2 maskx), 3%nat)
                    else
                      match t2 with
                      | EmptyString => (RuneError, 1%nat)
                      | String c3 t3 =>
                          let b3 := byte c3 in
                          if (b3 <? locb) || (hicb <? b3) then (RuneError, 1%nat)
                          else
                            (Z.lor (Z.lor (Z.lor (Z.shiftl (Z.land b0 mask4) 18)
                                                 (Z.shiftl (Z.land b1 maskx) 12))
                                          (Z.shiftl (Z.land b2 maskx) 6))
                                   (Z.land b3 maskx), 4%nat)
                      end
                end
          end
  end.

(** The runes of a text, read from the left:
    [for len(s) > 0 { r, size := DecodeRuneInString(s); s = s[size:] }].
    Every round takes at least one byte, so [n] rounds are enough for a
    text of [n] bytes. *)
Fixpoint runesLoop (n : nat) (s : string) : list rune :=
  match n, s with
  | S n', String _ _ =>
      let '(r, size) := DecodeRuneInString s in
      r :: runesLoop n' (Strings.Drop size s)
  | _, _ => []
  end.

Definition runes (s : string) : list rune := runesLoop (String.length s) s.

End utf8.

(** ** Regular expressions

    The fragment of Go's [regexp] syntax that [matchPattern] can produce:
    literal runes, escaped punctuation, [.], groups, the postfix operators
    [*] and [?], and the anchors [^] and [$].  As in [regexp.Compile] the
    flag [s] is off, so [.] matches every rune except the newline, and the
    anchors are those of the whole text.  An expression that is not valid
    UTF-8 does not compile; a text is matched rune by rune, every byte that
    does not start a valid encoding counting as the rune [RuneError].  The
    bounds that [regexp/syntax] puts on the size of an expression lie far
    above the length an argument of the command line can have, and are not
    part of the model. *)

Module Regexp.

Local Open Scope Z_scope.

Inductive re : Type :=
| NoMatch
| EmptyMatch
| Lit (c : utf8.rune)
| AnyCharNotNL
| BeginText
| EndText
| Concat (r1 r2 : re)
| Alternate (r1 r2 : re)
| Star (r : re)
| Quest (r : re).

(** The bytes [regexp.QuoteMeta] escapes. *)
Definition special (c : ascii) : bool :=
  match c with
  | "\" | "." | "+" | "*" | "?" | "(" | ")" | "|"
  | "[" | "]" | "{" | "}" | "^" | "$" => true
  | _ => false
  end%char.

Fixpoint QuoteMeta (s : string) : string :=
  match s with
  | EmptyString => EmptyString
  | String c s' =>
      if special c then String "\" (String c (QuoteMeta s'))
      else String c (QuoteMeta s')
  end.

(** [checkUTF8] of [regexp/syntax]; [true] stands for no error. *)
Fixpoint checkLoop (n : nat) (s : string) : bool :=
  match n, s with
  | S n', String _ _ =>
      let '(r, size) := utf8.DecodeRuneInString s in
      if (r =? utf8.RuneError) && (size =? 1)%nat then false
      else checkLoop n' (Strings.Drop size s)
  | _, _ => true
  end.

Definition checkUTF8 (s : string) : bool := checkLoop (String.length s) s.

(** Concatenation of the pieces of one group, in order. *)
Fixpoint seq (rs : list re) : re :=
  match rs with
  | [] => EmptyMatch
  | r :: rs' => Concat r (seq rs')
  end.

(** The byte a rune below [utf8.RuneSelf] stands for. *)
Definition asciiOf (c : utf8.rune) : option ascii :=
  if (0 <=? c) && (c <? 0x80) then Some (ascii_of_N (Z.to_N c)) else None.

(** The parser keeps the pieces of the group being read in [cur], most
    recent first, and the pieces of the enclosing groups in [stack].  [rep]
    records that the previous token was a repetition operator, which may
    not be followed by another one.  Syntax outside the fragment, and
    syntax Go rejects, gives [None]. *)
Fixpoint parse (s : list utf8.rune) (stack : list (list re)) (cur : list re)
    (rep : bool) : option re :=
  match s with
  | [] =>
      match stack with
      | [] => Some (seq (rev cur))
      | _ :: _ => None
      end
  | c :: s' =>
      match asciiOf c with
      | Some "("%char => parse s' (cur :: stack) [] false
      | Some ")"%char =>
          match stack with
          | [] => None
          | up :: stack' => parse s' stack' (seq (rev cur) :: up) false
          end
      | Some "*"%char =>
          match cur, rep with
          | a :: cur', false => parse s' stack (Star a :: cur') true
          | _, _ => None
          end
      | Some "?"%char =>
          match cur, rep with
          | a :: cur', false => parse s' stack (Quest a :: cur') true
          | _, _ => None
          end
      | Some "."%char => parse s' stack (AnyCharNotNL :: cur) false
      | Some "^"%char => parse s' stack (BeginText :: cur) false
      | Some "$"%char => parse s' stack (EndText :: cur) false
      | Some "\"%char =>
          match s' with
          | d :: s'' =>
              match asciiOf d with
              | Some a =>
                  if special a then parse s'' stack (Lit d :: cur) false
                  else None
              | None => None
              end
          | [] => None
          end
      | Some a => if special a then None else parse s' stack (Lit c :: cur) false
      | None => parse s' stack (Lit c :: cur) false
      end
  end.

(** [regexp.Compile]; [None] stands for a compile error. *)
Definition Compile (expr : string) : option re :=
  if checkUTF8 expr then parse (utf8.runes expr) [] [] false else None.

(** Matching by derivatives.  [b] says that the position is the beginning
    of the text, [e] that it is its end. *)
Fixpoint nullable (b e : bool) (r : re) : bool :=
  match r with
  | NoMatch | Lit _ | AnyCharNotNL => false
  | EmptyMatch | Star _ | Quest _ => true
  | BeginText => b
  | EndText => e
  | Concat r1 r2 => nullable b e r1 && nullable b e r2
  | Alternate r1 r2 => nullable b e r1 || nullable b e r2
  end.

Fixpoint deriv (b : bool) (c : utf8.rune) (r : re) : re :=
  match r with
  | NoMatch | EmptyMatch | BeginText | EndText => NoMatch
  | Lit a => if a =? c then EmptyMatch else NoMatch
  | AnyCharNotNL => if c =? 10 then NoMatch else EmptyMatch
  | Concat r1 r2 =>
      Alternate (Concat (deriv b c r1) r2)
          (if nullable b false r1 then deriv b c r2 else NoMatch)
  | Alternate r1 r2 => Alternate (deriv b c r1) (deriv b c r2)
  | Star r1 => Concat (deriv b c r1) (Star r1)
  | Quest r1 => deriv b c r1
  end.

(** Some prefix of [s] matches [r]. *)
Fixpoint match_here (b : bool) (r : re) (s : list utf8.rune) : bool :=
  match s with
  | [] => nullable b true r
  | c :: s' => nullable b false r || match_here false (deriv b c r) s'
  end.

(** [r] matches somewhere in the text of which [s] is the rest. *)
Fixpoint match_from (b : bool) (r : re) (s : list utf8.rune) : bool :=
  match_here b r s ||
  match s with
  | [] => false
  | _ :: s' => match_from false r s'
  end.

(** The method [MatchString]: the text contains a match. *)
Definition MatchString (r : re) (s : string) : bool :=
  match_from true r (utf8.runes s).

Definition isEmpty (s : list utf8.rune) : bool :=
  match s with
  | [] => true
  | _ :: _ => false
  end.

(** What a regular expression matches: [Matches r b s e] says that [r]
    matches the piece [s] of a text, where [b] tells that [s] starts at the
    beginning of the text and [e] that it ends at its end. *)
Inductive Matches : re → bool → list utf8.rune → bool → Prop :=
| MEmpty b e : Matches EmptyMatch b [] e
| MLit c b e : Matches (Lit c) b [c] e
| MAny c b e : c ≠ 10 → Matches AnyCharNotNL b [c] e
| MBegin e : Matches BeginText true [] e
| MEnd b : Matches EndText b [] true
| MCat r1 r2 b e s1 s2 :
    Matches r1 b s1 (e && isEmpty s2) →
    Matches r2 (b && isEmpty s1) s2 e →
    Matches (Concat r1 r2) b (s1 ++ s2) e
| MAltL r1 r2 b s e : Matches r1 b s e → Matches (Alternate r1 r2) b s e
| MAltR r1 r2 b s e : Matches r2 b s e → Matches (Alternate r1 r2) b s e
| MStarNil r b e : Matches (Star r) b [] e
| MStarCons r b e s1 s2 :
    Matches r b s1 (e && isEmpty s2) →
    Matches (Star r) (b && isEmpty s1) s2 e →
    Matches (Star r) b (s1 ++ s2) e
| MQuestNil r b e : Matches (Quest r) b [] e
| MQuest r b s e : Matches r b s e → Matches (Quest r) b s e.

End Regexp.

(** ** [matchPattern] *)

(** [None] stands for the panic of [regexp.MustCompile]. *)
Definition matchPattern (pattern : string) : option (string → bool) :=
  let re := Regexp.QuoteMeta pattern in
  let re := Strings.ReplaceAll re "\.\.\." ".*" in
  let re :=
    if Strings.HasSuffix re "/.*"
    then Strings.Take (String.length re - String.length "/.*") re +:+ "(/.*)?"
    else re in
  match Regexp.Compile ("^" +:+ re +:+ "$") with
  | None => None
  | Some reg => Some (λ name, Regexp.MatchString reg name)
  end.

(** ** Patterns as the specification reads them *)

(** A pattern is a sequence of literal bytes and of tokens [...]; the
    tokens are found from the left and do not overlap. *)
Inductive token : Type :=
| TByte (c : ascii)
| TDots.

Fixpoint tokens (p : string) : list token :=
  match p with
  | EmptyString => []
  | String c p' =>
      match c, p' with
      | "."%char, String "."%char (String "."%char p'') => TDots :: tokens p''
      | _, _ => TByte c :: tokens p'
      end
  end.

(** [globMatches any ts s]: the bytes of [ts] match themselves and every
    token [...] matches a substring that satisfies [any]. *)
Inductive globMatches (any : string → Prop) : list token → string → Prop :=
| glob_nil : globMatches any [] ""
| glob_byte c ts s :
    globMatches any ts s → globMatches any (TByte c :: ts) (String c s)
| glob_dots ts s1 s2 :
    any s1 → globMatches any ts s2 → globMatches any (TDots :: ts) (s1 +:+ s2).

Definition anyString (s : string) : Prop := True.

Fixpoint noNewline (s : string) : Prop :=
  match s with
  | EmptyString => True
  | String c s' => c ≠ "010"%char ∧ noNewline s'
  end.

(** The pattern that a token list spells. *)
Fixpoint untokens (ts : list token) : string :=
  match ts with
  | [] => ""
  | TByte c :: ts' => String c (untokens ts')
  | TDots :: ts' => String "." (String "." (String "." (untokens ts')))
  end.

(** The predicate of the specification: an exact match of the whole name,
    and for a pattern that ends in [/...] also an exact match of the pattern
    without that suffix. *)
Definition globAccepts (any : string → Prop) (pattern name : string) : Prop :=
  globMatches any (tokens pattern) name
  ∨ ∃ p', pattern = p' +:+ "/..." ∧ globMatches any (tokens p') name.

(** What [matchPattern pattern] answers on [name]. *)
Definition accepts (pattern name : string) : option bool :=
  option_map (λ f, f name) (matchPattern pattern).

(** The text a token becomes in the regular expression. *)
Definition emit (t : token) : string :=
  match t with
  | TByte c =>
      if Regexp.special c then String "\" (String c "") else String c ""
  | TDots => ".*"
  end.

Fixpoint emitAll (ts : list token) : string :=
  match ts with
  | [] => ""
  | t :: ts' => emit t +:+ emitAll ts'
  end.

(** ** Patterns as the compiled expression reads them

    The expression is parsed rune by rune, and so is the name it is
    matched against. *)
Inductive rtoken : Type :=
| RLit (c : utf8.rune)
| RDots.

(** The rune of an ASCII character. *)
Definition ch (c : ascii) : utf8.rune := utf8.byte c.

Fixpoint rtokens (p : list utf8.rune) : list rtoken :=
  match p with
  | [] => []
  | c :: p' =>
      match p' with
      | c1 :: c2 :: p'' =>
          if bool_decide (c = ch "." ∧ c1 = ch "." ∧ c2 = ch ".")
          then RDots :: rtokens p''
          else RLit c :: rtokens p'
      | _ => RLit c :: rtokens p'
      end
  end.

(** [runeMatches any ts s]: the runes of [ts] match themselves and every
    token [...] matches a run of runes that satisfies [any]. *)
Inductive runeMatches (any : list utf8.rune → Prop)
  : list rtoken → list utf8.rune → Prop :=
| rglob_nil : runeMatches any [] []
| rglob_lit c ts s :
    runeMatches any ts s → runeMatches any (RLit c :: ts) (c :: s)
| rglob_dots ts s1 s2 :
    any s1 → runeMatches any ts s2 → runeMatches any (RDots :: ts) (s1 ++ s2).

Definition noNewlineRune (s : list utf8.rune) : Prop := ch "010" ∉ s.

(** The counterpart of [globAccepts] on runes. *)
Definition runeAccepts (any : list utf8.rune → Prop)
    (pattern name : list utf8.rune) : Prop :=
  runeMatches any (rtokens pattern) name
  ∨ ∃ p', pattern = p' ++ utf8.runes "/..."
          ∧ runeMatches any (rtokens p') name.

(** The expression a token is parsed to. *)
Definition tokenRe (t : rtoken) : Regexp.re :=
  match t with
  | RLit c => Regexp.Lit c
  | RDots => Regexp.Star Regexp.AnyCharNotNL
  end.

(** The optional group that stands for a trailing slash and dots. *)
Definition slashDots : Regexp.re :=
  Regexp.Quest
    (Regexp.seq [Regexp.Lit (ch "/"); Regexp.Star Regexp.AnyCharNotNL]).

(** [encodes bs r]: the bytes [bs] are the UTF-8 encoding of the rune [r],
    by the table of well-formed byte sequences: no encoding longer than
    needed, no surrogate half, nothing above [0x10FFFF]. *)
Inductive encodes : string → utf8.rune → Prop :=
| encodes1 c :
    (utf8.byte c < 0x80)%Z → encodes (String c "") (utf8.byte c)
| encodes2 c0 c1 :
    (0xC2 ≤ utf8.byte c0 ≤ 0xDF)%Z → (0x80 ≤ utf8.byte c1 ≤ 0xBF)%Z →
    encodes (String c0 (String c1 ""))
      (64 * (utf8.byte c0 - 0xC0) + (utf8.byte c1 - 0x80))%Z
| encodes3 c0 c1 c2 :
    (0xE0 ≤ utf8.byte c0 ≤ 0xEF)%Z → (0x80 ≤ utf8.byte c1 ≤ 0xBF)%Z →
    (utf8.byte c0 = 0xE0 → 0xA0 ≤ utf8.byte c1)%Z →
    (utf8.byte c0 = 0xED → utf8.byte c1 ≤ 0x9F)%Z →
    (0x80 ≤ utf8.byte c2 ≤ 0xBF)%Z →
    encodes (String c0 (String c1 (String c2 "")))
      (4096 * (utf8.byte c0 - 0xE0) + 64 * (utf8.byte c1 - 0x80)
       + (utf8.byte c2 - 0x80))%Z
| encodes4 c0 c1 c2 c3 :
    (0xF0 ≤ utf8.byte c0 ≤ 0xF4)%Z → (0x80 ≤ utf8.byte c1 ≤ 0xBF)%Z →
    (utf8.byte c0 = 0xF0 → 0x90 ≤ utf8.byte c1)%Z →
    (utf8.byte c0 = 0xF4 → utf8.byte c1 ≤ 0x8F)%Z →
    (0x80 ≤ utf8.byte c2 ≤ 0xBF)%Z → (0x80 ≤ utf8.byte c3 ≤ 0xBF)%Z →
    encodes (String c0 (String c1 (String c2 (String c3 ""))))
      (262144 * (utf8.byte c0 - 0xF0) + 4096 * (utf8.byte c1 - 0x80)
       + 64 * (utf8.byte c2 - 0x80) + (utf8.byte c3 - 0x80))%Z.

(** The text is empty or starts with an ASCII byte. *)
Definition asciiHead (t : string) : Prop :=
  match t with
  | EmptyString => True
  | String c _ => (utf8.byte c < 0x80)%Z
  end.

(** Every byte of the text is outside ASCII. *)
Fixpoint nonAscii (s : string) : Prop :=
  match s with
  | EmptyString => True
  | String c s' => (0x80 ≤ utf8.byte c)%Z ∧ nonAscii s'
  end.

(** The byte [b] is outside the bounds [lo] and [hi]. *)
Definition outside (b lo hi : Z) : bool := ((b <? lo) || (hi <? b))%Z.

(** ** Packages, flags and the environment *)

(** The fields of [build.Package] the program reads. *)
Record Package : Type := {
  ImportPath : string;
  Dir : string;
  Imports : list string;
  TestImports : list string;
  XTestImports : list string;
  GoFiles : list string;
  CgoFiles : list string;
  TestGoFiles : list string;
  XTestGoFiles : list string
}.

(** The two import modes the program uses: [build.FindOnly] and [0]. *)
Inductive ImportMode : Type := FindOnly | ImportAll.

(** The command-line flags [-T], [-a], [-stdlib], [-from], [-why], [-f]. *)
Record Flags : Type := {
  noTestDeps : bool;
  all : bool;
  std : bool;
  from : bool;
  why : string;
  files : bool
}.

Inductive result (A : Type) : Type :=
| Ok (a : A)
| Err (e : string).
Arguments Ok {A} a.
Arguments Err {A} e.

(** What the program takes from outside.  [Import] returns, as
    [build.Default.Import] does, a package together with an optional error:
    go/build documents that on an error the package is non-nil and holds
    partial information.  [rangeKeys] is the order in which a [range]
    statement visits the keys of a map, which Go leaves unspecified.
    [Quote] is the rendering of a string by the verb [%q]. *)
Record Env : Type := {
  Getwd : result string;
  ImportPaths : list string → list string;
  Import : string → string → ImportMode → Package * option string;
  rangeKeys : gset string → list string;
  Quote : string → string;
  filepath_Join : string → string → string
}.

(** How the program ends: it prints [lines] (each followed by a newline),
    it stops in [log.Fatalf] having printed nothing, or
    [regexp.MustCompile] panics.  [Exhausted] belongs to the model only:
    the recursion budget of [findImports] ran out. *)
Inductive outcome : Type :=
| Output (lines : list string)
| Fatal (msg : string)
| Panic
| Exhausted.

(** ** The dependency graph *)

Definition isStdlib (pkg : string) : bool :=
  negb (Strings.ContainsByte (Strings.FirstField pkg "/") ".").

Definition addPackages (fl : Flags) (m : gset string) (ss : list string)
  : gset string :=
  foldl (λ m s, if std fl || negb (isStdlib s) then {[s]} ∪ m else m) m ss.

Definition imports (fl : Flags) (pkg : Package) (isRoot : bool) : gset string :=
  let imps := addPackages fl ∅ (Imports pkg) in
  if isRoot && negb (noTestDeps fl)
  then addPackages fl (addPackages fl imps (TestImports pkg)) (XTestImports pkg)
  else imps.

(** [fmt.Errorf("cannot find %q: %v", packageName, err)]. *)
Definition cannotFind (E : Env) (packageName err : string) : string :=
  "cannot find " +:+ Quote E packageName +:+ ": " +:+ err.

(** The [for] loop of [findImports] over the imports of the package whose
    import path is [importPath]; [recurse] is the recursive call. *)
Fixpoint importLoop (fl : Flags)
    (recurse : string → gmap string (list string)
               → option (gmap string (list string) * option string))
    (importPath : string) (names : list string)
    (allPkgs : gmap string (list string))
  : option (gmap string (list string) * option string) :=
  match names with
  | [] => Some (allPkgs, None)
  | name :: names' =>
      if negb (std fl) && isStdlib name
      then importLoop fl recurse importPath names' allPkgs
      else
        let alreadyDone := bool_decide (allPkgs !!! name ≠ []) in
        let allPkgs := <[name := allPkgs !!! name ++ [importPath]]> allPkgs in
        if all fl && negb alreadyDone
        then
          match recurse name allPkgs with
          | None => None
          | Some (allPkgs, Some e) => Some (allPkgs, Some e)
          | Some (allPkgs, None) =>
              importLoop fl recurse importPath names' allPkgs
          end
        else importLoop fl recurse importPath names' allPkgs
  end.

(** [findImports] returns the map as it has left it together with the
    error, if any; [None] means that [fuel] nested calls did not suffice. *)
Fixpoint findImports (E : Env) (cwd : string) (fl : Flags)
    (rootPkgs : gset string) (fuel : nat) (packageName : string)
    (allPkgs : gmap string (list string))
  : option (gmap string (list string) * option string) :=
  match fuel with
  | 0 => None
  | S fuel' =>
      if bool_decide (packageName = "C") then Some (allPkgs, None)
      else
        let '(pkg, err) := Import E packageName cwd ImportAll in
        match err with
        | Some e => Some (allPkgs, Some (cannotFind E packageName e))
        | None =>
            let allPkgs :=
              <[ImportPath pkg := allPkgs !!! ImportPath pkg]> allPkgs in
            importLoop fl (findImports E cwd fl rootPkgs fuel')
              (ImportPath pkg)
              (rangeKeys E
                 (imports fl pkg (bool_decide (ImportPath pkg ∈ rootPkgs))))
              allPkgs
        end
  end.

(** The [for] loop of [markImporters]; [recurse] is the recursive call. *)
Fixpoint markLoop (recurse : string → gset string → option (gset string))
    (imps : list string) (marked : gset string) : option (gset string) :=
  match imps with
  | [] => Some marked
  | imp :: imps' =>
      match recurse imp marked with
      | None => None
      | Some marked => markLoop recurse imps' marked
      end
  end.

(** [markImporters]; [None] means that [fuel] nested calls did not suffice. *)
Fixpoint markImporters (fuel : nat) (pkg : string)
    (allPkgs : gmap string (list string)) (marked : gset string)
  : option (gset string) :=
  match fuel with
  | 0 => None
  | S fuel' =>
      if bool_decide (pkg ∈ marked) then Some marked
      else
        markLoop (λ imp marked, markImporters fuel' imp allPkgs marked)
          (allPkgs !!! pkg) ({[pkg]} ∪ marked)
  end.

(** Every path the graph mentions, as a key or as an importer. *)
Definition nodes (allPkgs : gmap string (list string)) : gset string :=
  dom allPkgs ∪ ⋃ ((λ kv, list_to_set kv.2) <$> map_to_list allPkgs).

(** A budget that [markImporters] never exhausts on [allPkgs]. *)
Definition markFuel (allPkgs : gmap string (list string)) : nat :=
  S (size (nodes allPkgs)).

(** ** The steps of [main] *)

(** The loop that fills [rootPkgs]. *)
Fixpoint resolveRoots (E : Env) (cwd : string) (pkgs : list string)
    (rootPkgs : gset string) : result (gset string) :=
  match pkgs with
  | [] => Ok rootPkgs
  | pkg :: pkgs' =>
      let '(p, err) := Import E pkg cwd FindOnly in
      match err with
      | Some e => Err (cannotFind E pkg e)
      | None => resolveRoots E cwd pkgs' ({[ImportPath p]} ∪ rootPkgs)
      end
  end.

(** The loop that fills [allPkgs]. *)
Fixpoint buildGraph (E : Env) (cwd : string) (fl : Flags)
    (rootPkgs : gset string) (fuel : nat) (pkgs : list string)
    (allPkgs : gmap string (list string))
  : option (result (gmap string (list string))) :=
  match pkgs with
  | [] => Some (Ok allPkgs)
  | pkg :: pkgs' =>
      match findImports E cwd fl rootPkgs fuel pkg allPkgs with
      | None => None
      | Some (_, Some e) =>
          Some (Err ("cannot find imports from " +:+ Quote E pkg +:+ ": " +:+ e))
      | Some (allPkgs, None) => buildGraph E cwd fl rootPkgs fuel pkgs' allPkgs
      end
  end.

(** "Delete packages specified directly on the command line." *)
Definition deleteRoots (E : Env) (rootPkgs : gset string)
    (allPkgs : gmap string (list string)) : gmap string (list string) :=
  foldl (λ m pkg, delete pkg m) allPkgs (rangeKeys E rootPkgs).

(** The loop that calls [markImporters] on every key [whyMatch] accepts. *)
Definition markMatching (E : Env) (whyMatch : string → bool)
    (allPkgs : gmap string (list string)) : option (gset string) :=
  foldl (λ acc pkg,
           match acc with
           | None => None
           | Some marked =>
               if whyMatch pkg
               then markImporters (markFuel allPkgs) pkg allPkgs marked
               else Some marked
           end)
        (Some ∅) (rangeKeys E (dom allPkgs)).

(** The loop that deletes the keys that are not marked. *)
Definition deleteUnmarked (E : Env) (marked : gset string)
    (allPkgs : gmap string (list string)) : gmap string (list string) :=
  foldl (λ m pkg, if bool_decide (pkg ∈ marked) then m else delete pkg m)
        allPkgs (rangeKeys E (dom allPkgs)).

(** Lines 100-119: what is done to the graph between building and
    printing.  [whyMatch] is [None] when the variable is nil. *)
Definition prune (E : Env) (fl : Flags) (whyMatch : option (string → bool))
    (rootPkgs : gset string) (allPkgs : gmap string (list string))
  : option (gmap string (list string)) :=
  if files fl then Some allPkgs
  else
    let allPkgs := deleteRoots E rootPkgs allPkgs in
    match whyMatch with
    | None => Some allPkgs
    | Some isTarget =>
        match markMatching E isTarget allPkgs with
        | None => None
        | Some marked => Some (deleteUnmarked E marked allPkgs)
        end
    end.

Definition showFiles (E : Env) (pkg : Package) (fs : list string)
  : list string :=
  map (λ f, filepath_Join E (Dir pkg) f) fs.

(** The importers printed after [r] in from mode. *)
Definition fromList (allPkgs : gmap string (list string)) (r : string)
  : list string :=
  uniq (sort_Strings (allPkgs !!! r)).

(** The lines printed for the key [r]: one case of the [switch]. *)
Definition showEntry (E : Env) (cwd : string) (fl : Flags)
    (rootPkgs : gset string) (allPkgs : gmap string (list string))
    (r : string) : list string :=
  if files fl then
    let '(pkg, _) := Import E r cwd ImportAll in
    showFiles E pkg (GoFiles pkg) ++ showFiles E pkg (CgoFiles pkg) ++
    (if bool_decide (ImportPath pkg ∈ rootPkgs) && negb (noTestDeps fl)
     then showFiles E pkg (TestGoFiles pkg) ++ showFiles E pkg (XTestGoFiles pkg)
     else [])
  else if from fl then
    [r +:+ " " +:+ Strings.Join (fromList allPkgs r) " "]
  else [r].

(** The sorted slice [result]. *)
Definition resultKeys (E : Env) (allPkgs : gmap string (list string))
  : list string :=
  sort_Strings (rangeKeys E (dom allPkgs)).

Definition render (E : Env) (cwd : string) (fl : Flags)
    (rootPkgs : gset string) (allPkgs : gmap string (list string))
  : list string :=
  flat_map (showEntry E cwd fl rootPkgs allPkgs) (resultKeys E allPkgs).

(** The flags after [-why] has been taken into account. *)
Definition applyWhy (fl : Flags) : Flags :=
  if bool_decide (why fl ≠ "")
  then {| noTestDeps := noTestDeps fl;
          all := true;
          std := if isStdlib (why fl) then true else std fl;
          from := true;
          why := why fl;
          files := files fl |}
  else fl.

(** [main], from the parsed flags and arguments. *)
Definition main (E : Env) (fuel : nat) (flags : Flags) (args : list string)
  : outcome :=
  let pkgs := if bool_decide (length args = 0) then ["."] else args in
  match Getwd E with
  | Err e => Fatal ("cannot get working directory: " +:+ e)
  | Ok cwd =>
      let fl := applyWhy flags in
      match (if bool_decide (why flags ≠ "")
             then option_map Some (matchPattern (why flags))
             else Some None) with
      | None => Panic
      | Some whyMatch =>
          let pkgs := ImportPaths E pkgs in
          match resolveRoots E cwd pkgs ∅ with
          | Err msg => Fatal msg
          | Ok rootPkgs =>
              match buildGraph E cwd fl rootPkgs fuel pkgs ∅ with
              | None => Exhausted
              | Some (Err msg) => Fatal msg
              | Some (Ok allPkgs) =>
                  match prune E fl whyMatch rootPkgs allPkgs with
                  | None => Exhausted
                  | Some allPkgs => Output (render E cwd fl rootPkgs allPkgs)
                  end
              end
          end
      end
  end.

(** ** The resolutions of a run

    The functions below repeat [resolveRoots], [importLoop], [findImports]
    and [buildGraph] and record next to the result, in order, every call of
    [build.Default.Import] that is made.  They serve to say what is
    resolved and when; the results are those of the functions above
    (lemmas [resolveRootsLog_result] to [buildGraphLog_result]). *)

Definition call : Type := string * ImportMode.

Fixpoint resolveRootsLog (E : Env) (cwd : string) (pkgs : list string)
    (rootPkgs : gset string) : result (gset string) * list call :=
  match pkgs with
  | [] => (Ok rootPkgs, [])
  | pkg :: pkgs' =>
      let '(p, err) := Import E pkg cwd FindOnly in
      match err with
      | Some e => (Err (cannotFind E pkg e), [(pkg, FindOnly)])
      | None =>
          let '(r, log) :=
            resolveRootsLog E cwd pkgs' ({[ImportPath p]} ∪ rootPkgs) in
          (r, (pkg, FindOnly) :: log)
      end
  end.

Fixpoint importLoopLog (fl : Flags)
    (recurse : string → gmap string (list string)
               → option (gmap string (list string) * option string) * list call)
    (importPath : string) (names : list string)
    (allPkgs : gmap string (list string))
  : option (gmap string (list string) * option string) * list call :=
  match names with
  | [] => (Some (allPkgs, None), [])
  | name :: names' =>
      if negb (std fl) && isStdlib name
      then importLoopLog fl recurse importPath names' allPkgs
      else
        let alreadyDone := bool_decide (allPkgs !!! name ≠ []) in
        let allPkgs := <[name := allPkgs !!! name ++ [importPath]]> allPkgs in
        if all fl && negb alreadyDone
        then
          match recurse name allPkgs with
          | (None, log) => (None, log)
          | (Some (allPkgs, Some e), log) => (Some (allPkgs, Some e), log)
          | (Some (allPkgs, None), log) =>
              let '(r, log') :=
                importLoopLog fl recurse importPath names' allPkgs in
              (r, log ++ log')
          end
        else importLoopLog fl recurse importPath names' allPkgs
  end.

Fixpoint findImportsLog (E : Env) (cwd : string) (fl : Flags)
    (rootPkgs : gset string) (fuel : nat) (packageName : string)
    (allPkgs : gmap string (list string))
  : option (gmap string (list string) * option string) * list call :=
  match fuel with
  | 0 => (None, [])
  | S fuel' =>
      if bool_decide (packageName = "C") then (Some (allPkgs, None), [])
      else
        let '(pkg, err) := Import E packageName cwd ImportAll in
        match err with
        | Some e =>
            (Some (allPkgs, Some (cannotFind E packageName e)),
             [(packageName, ImportAll)])
        | None =>
            let allPkgs :=
              <[ImportPath pkg := allPkgs !!! ImportPath pkg]> allPkgs in
            let '(r, log) :=
              importLoopLog fl (findImportsLog E cwd fl rootPkgs fuel')
                (ImportPath pkg)
                (rangeKeys E
                   (imports fl pkg (bool_decide (ImportPath pkg ∈ rootPkgs))))
                allPkgs in
            (r, (packageName, ImportAll) :: log)
        end
  end.

Fixpoint buildGraphLog (E : Env) (cwd : string) (fl : Flags)
    (rootPkgs : gset string) (fuel : nat) (pkgs : list string)
    (allPkgs : gmap string (list string))
  : option (result (gmap string (list string))) * list call :=
  match pkgs with
  | [] => (Some (Ok allPkgs), [])
  | pkg :: pkgs' =>
      match findImportsLog E cwd fl rootPkgs fuel pkg allPkgs with
      | (None, log) => (None, log)
      | (Some (_, Some e), log) =>
          (Some (Err ("cannot find imports from " +:+ Quote E pkg +:+ ": " +:+ e)),
           log)
      | (Some (allPkgs, None), log) =>
          let '(r, log') :=
            buildGraphLog E cwd fl rootPkgs fuel pkgs' allPkgs in
          (r, log ++ log')
      end
  end.

(** The calls of [build.Default.Import] that [main] makes while it
    resolves the roots and builds the graph. *)
Definition resolutions (E : Env) (fuel : nat) (flags : Flags)
    (args : list string) : list call :=
  match Getwd E with
  | Err _ => []
  | Ok cwd =>
      match (if bool_decide (why flags ≠ "")
             then option_map Some (matchPattern (why flags))
             else Some None) with
      | None => []
      | Some _ =>
          let pkgs :=
            ImportPaths E (if bool_decide (length args = 0) then ["."] else args) in
          match resolveRootsLog E cwd pkgs ∅ with
          | (Err _, log) => log
          | (Ok rootPkgs, log) =>
              log ++ (buildGraphLog E cwd (applyWhy flags) rootPkgs fuel pkgs ∅).2
          end
      end
  end.

Definition succeeded (E : Env) (cwd : string) (c : call) : Prop :=
  (Import E c.1 cwd c.2).2 = None.

Definition failed (E : Env) (cwd : string) (c : call) (e : string) : Prop :=
  (Import E c.1 cwd c.2).2 = Some e.

(** A log that goes with the error [err]: without an error every call
    succeeded; with an error the last call failed, it is the only one that
    did, and the error is [cannotFind] of its path. *)
Definition logShape (E : Env) (cwd : string) (log : list call)
    (err : option string) : Prop :=
  match err with
  | None => Forall (succeeded E cwd) log
  | Some msg =>
      ∃ pre c e,
        log = pre ++ [c] ∧ Forall (succeeded E cwd) pre
        ∧ failed E cwd c e ∧ msg = cannotFind E c.1 e
  end.

(** The error, if any, in what [findImports] returns. *)
Definition errorOf (r : option (gmap string (list string) * option string))
  : option string :=
  match r with
  | Some (_, Some e) => Some e
  | _ => None
  end.

(** ** Notions used in the statements *)

(** A [range] statement visits every key of the map exactly once. *)
Definition rangeVisitsAll (E : Env) : Prop :=
  ∀ s : gset string, rangeKeys E s ≡ₚ elements s.

(** [imp] is listed among the importers of [pkg]. *)
Definition importedBy (allPkgs : gmap string (list string))
    (pkg imp : string) : Prop :=
  imp ∈ allPkgs !!! pkg.

(** [n] is [pkg] or imports it, directly or through other packages. *)
Definition importsTransitively (allPkgs : gmap string (list string))
    (pkg n : string) : Prop :=
  rtc (importedBy allPkgs) pkg n.

(** Every marked path outside [pending] has all its importers marked. *)
Definition closedExcept (allPkgs : gmap string (list string))
    (marked pending : gset string) : Prop :=
  ∀ n, n ∈ marked → n ∉ pending → ∀ m, importedBy allPkgs n m → m ∈ marked.

(** What one call of [markImporters] achieves when its budget exceeds the
    number of paths that are still unmarked: it returns, the marked set has
    grown by [pkg] and by paths that import [pkg], and the only marked paths
    with an unmarked importer are those that were pending before. *)
Definition markSpec (g : gmap string (list string)) (fuel : nat) : Prop :=
  ∀ pkg marked,
    pkg ∈ nodes g → size (nodes g ∖ marked) < fuel →
    ∃ marked',
      markImporters fuel pkg g marked = Some marked'
      ∧ marked ⊆ marked'
      ∧ pkg ∈ marked'
      ∧ (∀ n, n ∈ marked' → n ∈ marked ∨ importsTransitively g pkg n)
      ∧ (∀ pending, closedExcept g marked pending →
                    closedExcept g marked' pending).

(** The order of the two deletions as the specification words it: the
    graph is first cut down to the ancestor closure of the target, and the
    root packages are removed afterwards. *)
Definition pruneClosureThenRoots (E : Env) (isTarget : string → bool)
    (rootPkgs : gset string) (allPkgs : gmap string (list string))
  : option (gmap string (list string)) :=
  match markMatching E isTarget allPkgs with
  | None => None
  | Some marked =>
      Some (deleteRoots E rootPkgs (deleteUnmarked E marked allPkgs))
  end.

(** [g'] has every key of [g], and every importer list of [g] is the
    beginning of the list [g'] has for the same key. *)
Definition grows (g g' : gmap string (list string)) : Prop :=
  dom g ⊆ dom g' ∧ ∀ k, g !!! k `prefix_of` g' !!! k.

(** [path] is the import path of a package the resolver finds. *)
Definition resolvedPath (E : Env) (cwd path : string) : Prop :=
  ∃ name pkg, Import E name cwd ImportAll = (pkg, None) ∧ ImportPath pkg = path.

(** The package [p] is the pseudo-package [C], or resolving it for the
    traversal succeeds. *)
Definition foundOrC (E : Env) (cwd p : string) : Prop :=
  p = "C" ∨ (Import E p cwd ImportAll).2 = None.

(** [name] passes the standard-library filter. *)
Definition passesFilter (fl : Flags) (name : string) : Prop :=
  std fl = true ∨ isStdlib name = false.

(** No element of [l] equals the element before it, [prev] standing before
    the first. *)
Fixpoint noRepeat (prev : string) (l : list string) : Prop :=
  match l with
  | [] => True
  | x :: l' => x ≠ prev ∧ noRepeat x l'
  end.

(** The line printed for the key [r] in list mode and in from mode. *)
Definition entryLine (fl : Flags) (allPkgs : gmap string (list string))
    (r : string) : string :=
  if from fl then r +:+ " " +:+ Strings.Join (fromList allPkgs r) " " else r.

(** Every importer listed in [g] is a key of [g] and is the import path
    of a package the resolver finds, in whose effective import set the key
    it is listed under lies. *)
Definition edgesSound (E : Env) (cwd : string) (fl : Flags)
    (rootPkgs : gset string) (g : gmap string (list string)) : Prop :=
  ∀ k imp,
    imp ∈ g !!! k →
    imp ∈ dom g
    ∧ ∃ name pkg,
        Import E name cwd ImportAll = (pkg, None)
        ∧ ImportPath pkg = imp
        ∧ k ∈ imports fl pkg (bool_decide (imp ∈ rootPkgs)).

(** The package that the call [c] resolved is listed in [g] as an importer
    of every path in its effective import set. *)
Definition importsRecorded (E : Env) (cwd : string) (fl : Flags)
    (rootPkgs : gset string) (g : gmap string (list string)) (c : call)
  : Prop :=
  ∀ n,
    n ∈ imports fl (Import E c.1 cwd ImportAll).1
          (bool_decide (ImportPath (Import E c.1 cwd ImportAll).1 ∈ rootPkgs)) →
    n ∈ dom g ∧ ImportPath (Import E c.1 cwd ImportAll).1 ∈ g !!! n.

(** ** A small world to run the program in *)

Definition dquote : string := String "034"%char EmptyString.

Definition examplePackage (path : string) (imps tests gofiles : list string)
  : Package :=
  {| ImportPath := path; Dir := "/src/" +:+ path;
     Imports := imps; TestImports := tests; XTestImports := [];
     GoFiles := gofiles; CgoFiles := []; TestGoFiles := []; XTestGoFiles := [] |}.

(** A resolver over a table of packages.  A path that is not in the table
    gives an error and a package that only has its import path; [broken]
    lists packages that are returned together with an error. *)
Definition tableImport (tbl broken : list Package) (path cwd : string)
    (mode : ImportMode) : Package * option string :=
  match head (filter (λ p, ImportPath p = path) tbl) with
  | Some p => (p, None)
  | None =>
      match head (filter (λ p, ImportPath p = path) broken) with
      | Some p => (p, Some ("found packages a and b in " +:+ Dir p))
      | None => (examplePackage path [] [] [],
                 Some ("cannot find package " +:+ dquote +:+ path +:+ dquote))
      end
  end.

Definition exampleEnv (tbl broken : list Package) : Env :=
  {| Getwd := Ok "/work";
     ImportPaths := λ pkgs, pkgs;
     Import := tableImport tbl broken;
     rangeKeys := elements;
     Quote := λ s, dquote +:+ s +:+ dquote;
     filepath_Join := λ d f, d +:+ "/" +:+ f |}.

Definition noFlags : Flags :=
  {| noTestDeps := false; all := false; std := false; from := false;
     why := ""; files := false |}.

(** The graph "X is imported by A; A is imported by B". *)
Definition closureExample : gmap string (list string) :=
  <["X" := ["A"]]> (<["A" := ["B"]]> (<["B" := []]> ∅)).

(** Two roots [a.io/r] and [a.io/top]; [a.io/top] imports [a.io/mid],
    which imports [a.io/r]. *)
Definition chainTable : list Package :=
  [examplePackage "a.io/r" [] [] ["r.go"];
   examplePackage "a.io/mid" ["a.io/r"] [] ["mid.go"];
   examplePackage "a.io/top" ["a.io/mid"] [] ["top.go"]].

Definition chainGraph : gmap string (list string) :=
  <["a.io/r" := ["a.io/mid"]]>
    (<["a.io/mid" := ["a.io/top"]]> (<["a.io/top" := []]> ∅)).

Definition whyFlags (target : string) : Flags :=
  {| noTestDeps := false; all := false; std := false; from := false;
     why := target; files := false |}.

Definition filesFlags : Flags :=
  {| noTestDeps := false; all := false; std := false; from := false;
     why := ""; files := true |}.

Definition stdlibFlags : Flags :=
  {| noTestDeps := false; all := false; std := true; from := false;
     why := ""; files := false |}.

Definition allFlags : Flags :=
  {| noTestDeps := false; all := true; std := false; from := false;
     why := ""; files := false |}.

Definition fromFlags : Flags :=
  {| noTestDeps := false; all := false; std := false; from := true;
     why := ""; files := false |}.

(** A root [a.io/app] importing [a.io/dep]; the directory of [a.io/dep]
    holds the files of two packages, so that resolving it gives an error
    together with the files read so far. *)
Definition brokenDep : Package :=
  examplePackage "a.io/dep" [] [] ["a.go"].

Definition appTable : list Package :=
  [examplePackage "a.io/app" ["a.io/dep"] [] ["app.go"]].

(** A root [a.io/cgo] that imports the pseudo-package [C]. *)
Definition cgoTable : list Package :=
  [examplePackage "a.io/cgo" ["C"] [] ["cgo.go"]].

(** Two roots [a.io/r1] and [a.io/r2]: [a.io/r1] imports [a.io/x] and
    [a.io/r2] imports [a.io/r1]. *)
Definition twoRootsTable : list Package :=
  [examplePackage "a.io/r1" ["a.io/x"] [] ["r1.go"];
   examplePackage "a.io/r2" ["a.io/r1"] [] ["r2.go"];
   examplePackage "a.io/x" [] [] ["x.go"]].

(** Two roots [a.io/r1] and [a.io/top]; [a.io/top] imports [a.io/m], which
    imports the root [a.io/r1], which imports [a.io/s]. *)
Definition throughRootTable : list Package :=
  [examplePackage "a.io/r1" ["a.io/s"] [] ["r1.go"];
   examplePackage "a.io/top" ["a.io/m"] [] ["top.go"];
   examplePackage "a.io/m" ["a.io/r1"] [] ["m.go"];
   examplePackage "a.io/s" [] [] ["s.go"]].

(** The graph the program builds for them; [a.io/r1] is traversed as an
    import of [a.io/m] and again as a root. *)
Definition throughRootGraph : gmap string (list string) :=
  <["a.io/s" := ["a.io/r1"; "a.io/r1"]]>
    (<["a.io/r1" := ["a.io/m"]]>
       (<["a.io/m" := ["a.io/top"]]> (<["a.io/top" := []]> ∅))).

(** The predicate [whyMatch] for a pattern, as a function of the name. *)
Definition whyTarget (pattern name : string) : bool :=
  bool_decide (accepts pattern name = Some true).

(** The same world with every map iterated in the opposite order. *)
Definition reversedEnv (tbl broken : list Package) : Env :=
  {| Getwd := Ok "/work";
     ImportPaths := λ pkgs, pkgs;
     Import := tableImport tbl broken;
     rangeKeys := λ s, reverse (elements s);
     Quote := λ s, dquote +:+ s +:+ dquote;
     filepath_Join := λ d f, d +:+ "/" +:+ f |}.

(** * Properties *)

(** ** Strings *)

Lemma string_app_cons a s t : String a s +:+ t = String a (s +:+ t).
Proof. reflexivity. Qed.

Lemma string_app_nil_l t : "" +:+ t = t.
Proof. reflexivity. Qed.

Lemma string_app_nil_r s : s +:+ "" = s.
Proof. induction s as [|a s IH]; [done|]. by rewrite string_app_cons, IH. Qed.

Lemma string_app_assoc s1 s2 s3 : (s1 +:+ s2) +:+ s3 = s1 +:+ s2 +:+ s3.
Proof.
  induction s1 as [|a s1 IH]; [done|]. by rewrite !string_app_cons, IH.
Qed.

(** ** [uniq] and the from lists *)

Lemma uniq_loop_squeeze rest : ∀ out junk prev,
  take (uniq_loop (length rest) (length out + length junk) (length out)
          prev (out ++ junk ++ rest)).2
       (uniq_loop (length rest) (length out + length junk) (length out)
          prev (out ++ junk ++ rest)).1
  = out ++ squeeze prev rest.
Proof.
  induction rest as [|s rest IH]; intros out junk prev; simpl.
  - by rewrite take_app_length, app_nil_r.
  - assert ((out ++ junk ++ s :: rest) !! (length out + length junk) = Some s) as ->.
    { rewrite lookup_app_r by lia. rewrite lookup_app_r by lia.
      by replace (length out + length junk - length out - length junk) with 0 by lia. }
    case_bool_decide as Hne.
    + assert (∃ junk', <[length out:=s]> (out ++ junk ++ s :: rest)
                       = (out ++ [s]) ++ junk' ++ rest
                       ∧ length junk' = length junk) as (junk' & -> & Hlen).
      { destruct junk as [|x junk].
        - exists []. split; [|done]. simpl.
          rewrite insert_app_r_alt by lia. rewrite Nat.sub_diag. simpl.
          by rewrite <- app_assoc.
        - exists (junk ++ [s]). split; [|rewrite length_app; simpl; lia].
          rewrite insert_app_r_alt by lia. rewrite Nat.sub_diag. simpl.
          by rewrite <- !app_assoc. }
      specialize (IH (out ++ [s]) junk' s).
      rewrite length_app, Hlen in IH. simpl in IH.
      replace (length out + 1 + length junk) with (S (length out + length junk)) in IH by lia.
      replace (length out + 1) with (S (length out)) in IH by lia.
      rewrite IH. by rewrite <- app_assoc.
    + specialize (IH out (junk ++ [s]) prev).
      rewrite length_app in IH. simpl in IH.
      replace (length out + (length junk + 1)) with (S (length out + length junk)) in IH by lia.
      rewrite <- app_assoc in IH. simpl in IH. by rewrite IH.
Qed.

Lemma uniq_squeeze ss : uniq ss = squeeze "" ss.
Proof.
  unfold uniq. pose proof (uniq_loop_squeeze ss [] [] "") as H.
  simpl in H. by destruct (uniq_loop _ _ _ _ _).
Qed.

Lemma squeeze_sorted l : ∀ prev,
  StronglySorted String.le l → Forall (String.le prev) l →
  StronglySorted String.le (squeeze prev l)
  ∧ NoDup (squeeze prev l)
  ∧ Forall (λ x, String.le prev x ∧ x ≠ prev) (squeeze prev l)
  ∧ ∀ x, x ∈ squeeze prev l ↔ x ∈ l ∧ x ≠ prev.
Proof.
  induction l as [|s l IH]; intros prev Hs Hp; simpl.
  - split; [constructor|]. split; [constructor|]. split; [constructor|].
    intros x. split; [by intros ?%elem_of_nil|by intros [?%elem_of_nil _]].
  - apply StronglySorted_inv in Hs as [Hs Hl].
    apply Forall_cons in Hp as [Hps Hp].
    rewrite Forall_forall in Hl.
    case_bool_decide as Hne.
    + destruct (IH s Hs) as (IHs & IHn & IHf & IHm).
      { by apply Forall_forall. }
      rewrite Forall_forall in IHf.
      assert (Hgt : ∀ x, x ∈ squeeze s l → x ≠ prev).
      { intros x Hx ->. destruct (IHf _ Hx) as [Hle Hxs].
        apply Hxs. by apply (anti_symm String.le). }
      split; [|split; [|split]].
      * constructor; [done|]. apply Forall_forall. intros x Hx. by apply IHf.
      * constructor; [|done]. intros Hin. by destruct (IHf _ Hin).
      * constructor; [done|]. apply Forall_forall. intros x Hx.
        split; [|by apply Hgt]. etrans; [exact Hps|]. by apply IHf.
      * intros x. rewrite !elem_of_cons, IHm. split.
        -- intros [->|[Hx Hxs]]; [by split; [left|]|].
           split; [by right|]. apply Hgt. by apply IHm.
        -- intros [[->|Hx] Hxp]; [by left|].
           destruct (decide (x = s)) as [->|]; [by left|by right].
    + subst s.
      destruct (IH prev Hs Hp) as (IHs & IHn & IHf & IHm).
      split; [done|]. split; [done|]. split; [done|].
      intros x. rewrite elem_of_cons, IHm. split.
      * intros [? ?]. split; [by right|done].
      * intros [[->|?] ?]; [done|by split].
Qed.

Lemma le_empty_string s : String.le "" s.
Proof. by destruct s. Qed.

Lemma fromList_spec (allPkgs : gmap string (list string)) r :
  Sorted String.le (fromList allPkgs r)
  ∧ NoDup (fromList allPkgs r)
  ∧ ∀ x, x ∈ fromList allPkgs r ↔ x ∈ allPkgs !!! r ∧ x ≠ "".
Proof.
  unfold fromList, sort_Strings. rewrite uniq_squeeze.
  destruct (squeeze_sorted (merge_sort String.le (allPkgs !!! r)) "")
    as (Hs & Hn & _ & Hm).
  - apply StronglySorted_merge_sort; apply _.
  - apply Forall_forall. intros. apply le_empty_string.
  - split; [by apply StronglySorted_Sorted|]. split; [done|].
    intros x. rewrite Hm. by rewrite merge_sort_Permutation.
Qed.

(** C9: in from mode the line printed for a key [r] is [r], a space and
    the importers of [r] joined by spaces, and that importer list is sorted
    in ascending order and free of duplicates whatever the traversal has
    appended to the entry of [r]; it holds exactly the non-empty paths of
    the entry. *)
Theorem from_mode_importers_sorted_unique (E : Env) (cwd : string) (fl : Flags)
    (rootPkgs : gset string) (allPkgs : gmap string (list string)) (r : string) :
  files fl = false → from fl = true →
  ∃ importers : list string,
    showEntry E cwd fl rootPkgs allPkgs r
      = [r +:+ " " +:+ Strings.Join importers " "]
    ∧ importers = uniq (sort_Strings (allPkgs !!! r))
    ∧ Sorted String.le importers
    ∧ NoDup importers
    ∧ ∀ x, x ∈ importers ↔ x ∈ allPkgs !!! r ∧ x ≠ "".
Proof.
  intros Hf Hfrom. exists (fromList allPkgs r).
  unfold showEntry. rewrite Hf, Hfrom.
  destruct (fromList_spec allPkgs r) as (? & ? & ?). done.
Qed.

Lemma from_mode_importers_sorted_unique_witness :
  files fromFlags = false ∧ from fromFlags = true
  ∧ ∃ importers : list string,
      showEntry (exampleEnv [] []) "/work" fromFlags ∅
        {["a.io/x" := ["a.io/b"; "a.io/a"; "a.io/b"]]} "a.io/x"
      = ["a.io/x" +:+ " " +:+ Strings.Join importers " "]
      ∧ NoDup importers.
Proof.
  split; [reflexivity|]. split; [reflexivity|].
  destruct (from_mode_importers_sorted_unique (exampleEnv [] []) "/work"
              fromFlags ∅ {["a.io/x" := ["a.io/b"; "a.io/a"; "a.io/b"]]}
              "a.io/x" eq_refl eq_refl)
    as (importers & Hline & _ & _ & Hnd & _).
  exists importers. split; [exact Hline|exact Hnd].
Defined.

(** ** Deleting keys *)

Lemma foldl_delete_lookup (keep : string → bool) (l : list string) :
  ∀ (m : gmap string (list string)) k,
    foldl (λ m pkg, if keep pkg then m else delete pkg m) m l !! k
    = if bool_decide (k ∈ l ∧ keep k = false) then None else m !! k.
Proof.
  induction l as [|x l IH]; intros m k; cbn [foldl].
  - case_bool_decide as H; [|done]. by destruct H as [?%elem_of_nil _].
  - rewrite IH. destruct (keep x) eqn:Hx.
    + case_bool_decide as H1; case_bool_decide as H2; try done.
      * destruct H2. destruct H1. split; [by right|done].
      * destruct H1. destruct H2 as [[->|?]%elem_of_cons ?]; [congruence|done].
    + case_bool_decide as H1; case_bool_decide as H2; try done.
      * destruct H2. destruct H1. split; [by right|done].
      * destruct H2 as [[->|?]%elem_of_cons ?]; [by rewrite lookup_delete_eq|tauto].
      * destruct (decide (k = x)) as [->|Hne].
        -- destruct H2. split; [by left|done].
        -- by rewrite lookup_delete_ne.
Qed.

Lemma rangeKeys_elem E (s : gset string) k :
  rangeVisitsAll E → k ∈ rangeKeys E s ↔ k ∈ s.
Proof. intros H. by rewrite (H s), elem_of_elements. Qed.

Lemma exampleEnv_range tbl broken : rangeVisitsAll (exampleEnv tbl broken).
Proof. intros s. reflexivity. Defined.

Lemma deleteRoots_lookup E rootPkgs (allPkgs : gmap string (list string)) k :
  rangeVisitsAll E →
  deleteRoots E rootPkgs allPkgs !! k
  = if bool_decide (k ∈ rootPkgs) then None else allPkgs !! k.
Proof.
  intros HE. unfold deleteRoots.
  rewrite (foldl_delete_lookup (λ _, false)).
  case_bool_decide as H1; case_bool_decide as H2; try done.
  - destruct H2. by apply (rangeKeys_elem E), H1.
  - destruct H1. split; [by apply rangeKeys_elem|done].
Qed.

Lemma deleteUnmarked_lookup E marked (allPkgs : gmap string (list string)) k :
  rangeVisitsAll E →
  deleteUnmarked E marked allPkgs !! k
  = if bool_decide (k ∈ marked) then allPkgs !! k else None.
Proof.
  intros HE. unfold deleteUnmarked.
  rewrite (foldl_delete_lookup (λ pkg, bool_decide (pkg ∈ marked))).
  case_bool_decide as H1; case_bool_decide as H2; try done.
  - by destruct H1 as [_ H1].
  - destruct (allPkgs !! k) eqn:Hk; [|done]. destruct H1. split.
    + apply rangeKeys_elem; [done|]. apply elem_of_dom. by rewrite Hk.
    + done.
Qed.

Lemma deleteRoots_total E rootPkgs (allPkgs : gmap string (list string)) k :
  rangeVisitsAll E → k ∉ rootPkgs →
  deleteRoots E rootPkgs allPkgs !!! k = allPkgs !!! k.
Proof.
  intros HE Hk. rewrite !lookup_total_alt, deleteRoots_lookup by done.
  by rewrite bool_decide_eq_false_2.
Qed.

Lemma resultKeys_elem E (allPkgs : gmap string (list string)) k :
  rangeVisitsAll E → k ∈ resultKeys E allPkgs ↔ k ∈ dom allPkgs.
Proof.
  intros HE. unfold resultKeys, sort_Strings.
  by rewrite merge_sort_Permutation, rangeKeys_elem.
Qed.

Lemma prune_no_root E fl whyMatch rootPkgs
    (allPkgs pruned : gmap string (list string)) k :
  rangeVisitsAll E → files fl = false →
  prune E fl whyMatch rootPkgs allPkgs = Some pruned →
  k ∈ dom pruned → k ∈ dom allPkgs ∧ k ∉ rootPkgs.
Proof.
  intros HE Hf. unfold prune. rewrite Hf.
  assert (Hd : ∀ k, k ∈ dom (deleteRoots E rootPkgs allPkgs) →
                    k ∈ dom allPkgs ∧ k ∉ rootPkgs).
  { intros k'. rewrite !elem_of_dom, deleteRoots_lookup by done.
    case_bool_decide; [by intros [? ?]|done]. }
  destruct whyMatch as [isTarget|].
  - destruct (markMatching _ _ _) as [marked|]; [|done].
    intros [= <-] Hk. apply Hd. revert Hk.
    rewrite !elem_of_dom, deleteUnmarked_lookup by done.
    case_bool_decide; [done|by intros [? ?]].
  - intros [= <-]. apply Hd.
Qed.

Lemma applyWhy_files flags : files (applyWhy flags) = files flags.
Proof. unfold applyWhy. by case_bool_decide. Qed.

Lemma applyWhy_noTestDeps flags : noTestDeps (applyWhy flags) = noTestDeps flags.
Proof. unfold applyWhy. by case_bool_decide. Qed.

(** What [main] prints when it gets as far as printing. *)
Lemma main_Output E fuel flags args lines :
  main E fuel flags args = Output lines →
  ∃ cwd whyMatch rootPkgs allPkgs pruned,
    Getwd E = Ok cwd
    ∧ resolveRoots E cwd
        (ImportPaths E (if bool_decide (length args = 0) then ["."] else args)) ∅
      = Ok rootPkgs
    ∧ buildGraph E cwd (applyWhy flags) rootPkgs fuel
        (ImportPaths E (if bool_decide (length args = 0) then ["."] else args)) ∅
      = Some (Ok allPkgs)
    ∧ prune E (applyWhy flags) whyMatch rootPkgs allPkgs = Some pruned
    ∧ lines = render E cwd (applyWhy flags) rootPkgs pruned.
Proof.
  unfold main. destruct (Getwd E) as [cwd|]; [|done].
  destruct (if bool_decide (why flags ≠ "") then _ else _) as [whyMatch|]; [|done].
  destruct (resolveRoots _ _ _ _) as [rootPkgs|] eqn:Hr; [|done].
  destruct (buildGraph _ _ _ _ _ _ _) as [[allPkgs|]|] eqn:Hb; [|done..].
  destruct (prune _ _ _ _ _) as [pruned|] eqn:Hp; [|done].
  intros [= <-]. by exists cwd, whyMatch, rootPkgs, allPkgs, pruned.
Qed.

(** What [main] prints in list mode and in from mode: the graph that was
    built and pruned, and one line for each of its keys. *)
Lemma main_Output_lines E fuel flags args lines :
  files flags = false →
  main E fuel flags args = Output lines →
  ∃ cwd whyMatch rootPkgs allPkgs pruned,
    Getwd E = Ok cwd
    ∧ (if bool_decide (why flags ≠ "")
       then option_map Some (matchPattern (why flags))
       else Some None) = Some whyMatch
    ∧ resolveRoots E cwd
        (ImportPaths E (if bool_decide (length args = 0) then ["."] else args)) ∅
      = Ok rootPkgs
    ∧ buildGraph E cwd (applyWhy flags) rootPkgs fuel
        (ImportPaths E (if bool_decide (length args = 0) then ["."] else args)) ∅
      = Some (Ok allPkgs)
    ∧ prune E (applyWhy flags) whyMatch rootPkgs allPkgs = Some pruned
    ∧ lines = entryLine (applyWhy flags) pruned <$> resultKeys E pruned.
Proof.
  intros Hf. unfold main. destruct (Getwd E) as [cwd|]; [|done].
  destruct (if bool_decide (why flags ≠ "") then _ else _)
    as [whyMatch|] eqn:Hw; [|done].
  destruct (resolveRoots _ _ _ _) as [rootPkgs|] eqn:Hr; [|done].
  destruct (buildGraph _ _ _ _ _ _ _) as [[allPkgs|]|] eqn:Hb; [|done..].
  destruct (prune _ _ _ _ _) as [pruned|] eqn:Hp; [|done].
  intros [= <-]. exists cwd, whyMatch, rootPkgs, allPkgs, pruned.
  repeat (split; [done|]).
  unfold render. rewrite <- applyWhy_files in Hf.
  induction (resultKeys E pruned) as [|r l IH]; [done|].
  simpl. rewrite IH. unfold showEntry at 1, entryLine at 2. rewrite Hf.
  by destruct (from (applyWhy flags)).
Qed.

(** C3: when the program prints in list or from mode (files mode off), the
    lines printed are those of the keys of the pruned graph, in the order
    of the sorted slice of keys: in list mode a line is the key, in from
    mode it is the key, a space and the importers of the key.  None of
    these keys is the import path of a root package: every root has been
    deleted from the graph before it is printed. *)
Theorem roots_never_rendered (E : Env) (fuel : nat) (flags : Flags)
    (args lines : list string) :
  rangeVisitsAll E → files flags = false →
  main E fuel flags args = Output lines →
  ∃ cwd whyMatch rootPkgs allPkgs pruned,
    Getwd E = Ok cwd
    ∧ (if bool_decide (why flags ≠ "")
       then option_map Some (matchPattern (why flags))
       else Some None) = Some whyMatch
    ∧ resolveRoots E cwd
        (ImportPaths E (if bool_decide (length args = 0) then ["."] else args)) ∅
      = Ok rootPkgs
    ∧ buildGraph E cwd (applyWhy flags) rootPkgs fuel
        (ImportPaths E (if bool_decide (length args = 0) then ["."] else args)) ∅
      = Some (Ok allPkgs)
    ∧ prune E (applyWhy flags) whyMatch rootPkgs allPkgs = Some pruned
    ∧ (from (applyWhy flags) = false → lines = resultKeys E pruned)
    ∧ (from (applyWhy flags) = true →
       lines = (λ r, r +:+ " " +:+ Strings.Join (fromList pruned r) " ")
               <$> resultKeys E pruned)
    ∧ (∀ r, r ∈ resultKeys E pruned → r ∉ rootPkgs)
    ∧ (∀ r, r ∈ rootPkgs → pruned !! r = None).
Proof.
  intros HE Hf Hmain.
  destruct (main_Output_lines _ _ _ _ _ Hf Hmain)
    as (cwd & whyMatch & rootPkgs & allPkgs & pruned
        & Hwd & Hw & Hroots & Hbuild & Hp & ->).
  exists cwd, whyMatch, rootPkgs, allPkgs, pruned.
  repeat (split; [done|]).
  rewrite <- applyWhy_files in Hf.
  assert (Hkeys : ∀ r, r ∈ dom pruned → r ∉ rootPkgs).
  { intros r Hr. by destruct (prune_no_root _ _ _ _ _ _ _ HE Hf Hp Hr). }
  split; [|split; [|split]].
  - intros Hfrom. unfold entryLine. rewrite Hfrom. apply list_fmap_id.
  - intros Hfrom. unfold entryLine. by rewrite Hfrom.
  - intros r Hr. apply Hkeys. by apply resultKeys_elem in Hr.
  - intros r Hr. apply not_elem_of_dom. intros Hd. by apply (Hkeys r).
Qed.

Lemma roots_never_rendered_witness :
  main (exampleEnv chainTable []) 10 fromFlags ["a.io/top"]
  = Output ["a.io/mid a.io/top"]
  ∧ ∃ rootPkgs pruned,
      resolveRoots (exampleEnv chainTable []) "/work" ["a.io/top"] ∅
      = Ok rootPkgs
      ∧ ["a.io/mid a.io/top"]
        = (λ r, r +:+ " " +:+ Strings.Join (fromList pruned r) " ")
          <$> resultKeys (exampleEnv chainTable []) pruned
      ∧ ∀ r, r ∈ resultKeys (exampleEnv chainTable []) pruned → r ∉ rootPkgs.
Proof.
  assert (Hmain : main (exampleEnv chainTable []) 10 fromFlags ["a.io/top"]
                  = Output ["a.io/mid a.io/top"]) by (vm_compute; reflexivity).
  split; [exact Hmain|].
  destruct (roots_never_rendered (exampleEnv chainTable []) 10 fromFlags
              ["a.io/top"] ["a.io/mid a.io/top"]
              (exampleEnv_range chainTable []) eq_refl Hmain)
    as (cwd & whyMatch & rootPkgs & allPkgs & pruned
        & Hwd & _ & Hroots & _ & _ & _ & Hfrom & Hkeys & _).
  injection Hwd as <-.
  exists rootPkgs, pruned. split; [exact Hroots|].
  split; [exact (Hfrom eq_refl)|exact Hkeys].
Defined.

(** ** [markImporters] *)

Lemma elem_of_nodes_key (g : gmap string (list string)) k :
  k ∈ dom g → k ∈ nodes g.
Proof. unfold nodes. set_solver. Qed.

Lemma elem_of_nodes_importer (g : gmap string (list string)) k imp :
  importedBy g k imp → imp ∈ nodes g.
Proof.
  unfold importedBy, nodes. rewrite lookup_total_alt.
  destruct (g !! k) as [imps|] eqn:Hk; simpl; [|by intros ?%elem_of_nil].
  intros Himp. apply elem_of_union_r, elem_of_union_list.
  exists (list_to_set imps). split; [|by apply elem_of_list_to_set].
  apply list_elem_of_fmap. exists (k, imps). split; [done|].
  by apply elem_of_map_to_list.
Qed.

Lemma closedExcept_insert g marked pending pkg :
  closedExcept g marked pending →
  closedExcept g ({[pkg]} ∪ marked) ({[pkg]} ∪ pending).
Proof.
  intros Hc n Hn Hp m Hm. apply elem_of_union_r.
  apply (Hc n); [set_solver|set_solver|done].
Qed.

Section marking.
Variable g : gmap string (list string).

Lemma markLoop_spec fuel (imps : list string) :
  markSpec g fuel →
  ∀ marked,
    (∀ imp, imp ∈ imps → imp ∈ nodes g) →
    size (nodes g ∖ marked) < fuel →
    ∃ marked',
      markLoop (λ imp marked, markImporters fuel imp g marked) imps marked
        = Some marked'
      ∧ marked ⊆ marked'
      ∧ (∀ imp, imp ∈ imps → imp ∈ marked')
      ∧ (∀ n, n ∈ marked' →
              n ∈ marked ∨ ∃ imp, imp ∈ imps ∧ importsTransitively g imp n)
      ∧ (∀ pending, closedExcept g marked pending →
                    closedExcept g marked' pending).
Proof.
  intros Hrec. induction imps as [|imp imps IH]; intros marked Hin Hsz; simpl.
  - exists marked. split; [done|]. split; [done|].
    split; [by intros ? ?%elem_of_nil|]. split; [by left|done].
  - destruct (Hrec imp marked) as (m1 & -> & Hsub1 & Himp & Hsound1 & Hcl1);
      [apply Hin; by left|done|].
    destruct (IH m1) as (m2 & -> & Hsub2 & Himps & Hsound2 & Hcl2).
    { intros ? ?. apply Hin. by right. }
    { eapply Nat.le_lt_trans; [|exact Hsz].
      apply subseteq_size. set_solver. }
    exists m2. split; [done|]. split; [set_solver|]. split; [|split].
    + intros x [->|Hx]%elem_of_cons; [set_solver|by apply Himps].
    + intros n Hn. destruct (Hsound2 n Hn) as [Hn1|(imp' & Himp' & Hr)].
      * destruct (Hsound1 n Hn1) as [?|?]; [by left|].
        right. exists imp. split; [by left|done].
      * right. exists imp'. split; [by right|done].
    + intros pending Hc. by apply Hcl2, Hcl1.
Qed.

Lemma markImporters_spec fuel : markSpec g fuel.
Proof.
  induction fuel as [|fuel IH]; intros pkg marked Hpkg Hsz; [lia|].
  simpl. case_bool_decide as Hm.
  - exists marked. split; [done|]. split; [done|]. split; [done|].
    split; [by left|done].
  - assert (Hlt : size (nodes g ∖ ({[pkg]} ∪ marked)) < fuel).
    { assert (size (nodes g ∖ ({[pkg]} ∪ marked)) < size (nodes g ∖ marked)); [|lia].
      apply subset_size. split; [set_solver|].
      intros Hsub. assert (pkg ∈ nodes g ∖ ({[pkg]} ∪ marked)) by set_solver.
      set_solver. }
    destruct (markLoop_spec fuel (g !!! pkg) IH ({[pkg]} ∪ marked))
      as (m' & Heq & Hsub & Himps & Hsound & Hcl); [|done|].
    { intros imp Himp. by eapply elem_of_nodes_importer. }
    exists m'. split; [done|]. split; [set_solver|]. split; [set_solver|].
    split.
    + intros n Hn. destruct (Hsound n Hn) as [[->%elem_of_singleton|?]%elem_of_union|(imp & Himp & Hr)].
      * right. apply rtc_refl.
      * by left.
      * right. eapply rtc_l; [exact Himp|exact Hr].
    + intros pending Hc n Hn Hp m Hedge.
      destruct (decide (n = pkg)) as [->|Hne].
      * by apply Himps.
      * apply (Hcl ({[pkg]} ∪ pending)) with n; [|done|set_solver|done].
        by apply closedExcept_insert.
Qed.

End marking.

Lemma markFuel_enough (g : gmap string (list string)) marked :
  size (nodes g ∖ marked) < markFuel g.
Proof.
  unfold markFuel. apply Nat.lt_succ_r, subseteq_size. set_solver.
Qed.

Lemma markMatching_fold (isTarget : string → bool)
    (g : gmap string (list string)) (keys : list string) :
  ∀ marked,
    (∀ k, k ∈ keys → k ∈ dom g) →
    closedExcept g marked ∅ →
    ∃ marked',
      foldl (λ acc pkg,
               match acc with
               | None => None
               | Some marked =>
                   if isTarget pkg
                   then markImporters (markFuel g) pkg g marked
                   else Some marked
               end) (Some marked) keys = Some marked'
      ∧ marked ⊆ marked'
      ∧ (∀ k, k ∈ keys → isTarget k = true → k ∈ marked')
      ∧ (∀ n, n ∈ marked' →
              n ∈ marked
              ∨ ∃ k, k ∈ keys ∧ isTarget k = true ∧ importsTransitively g k n)
      ∧ closedExcept g marked' ∅.
Proof.
  induction keys as [|k keys IH]; intros marked Hkeys Hc; cbn [foldl].
  - exists marked. split; [done|]. split; [done|].
    split; [by intros ? ?%elem_of_nil|]. split; [by left|done].
  - assert (∃ m1, (if isTarget k then markImporters (markFuel g) k g marked
                   else Some marked) = Some m1
                  ∧ marked ⊆ m1
                  ∧ (isTarget k = true → k ∈ m1)
                  ∧ (∀ n, n ∈ m1 → n ∈ marked
                        ∨ (isTarget k = true ∧ importsTransitively g k n))
                  ∧ closedExcept g m1 ∅)
      as (m1 & -> & Hsub1 & Hk1 & Hsound1 & Hc1).
    { destruct (isTarget k) eqn:Ht.
      - destruct (markImporters_spec g (markFuel g) k marked)
          as (m1 & Heq & ? & ? & Hs & Hcl).
        + apply elem_of_nodes_key, Hkeys. by left.
        + apply markFuel_enough.
        + exists m1. split; [done|]. split; [done|]. split; [done|].
          split; [|by apply Hcl]. intros n Hn.
          destruct (Hs n Hn); [by left|by right].
      - exists marked. split; [done|]. split; [done|]. split; [done|].
        split; [by left|done]. }
    destruct (IH m1) as (m2 & -> & Hsub2 & Hk2 & Hsound2 & Hc2); [|done|].
    { intros ? ?. apply Hkeys. by right. }
    exists m2. split; [done|]. split; [set_solver|]. split; [|split; [|done]].
    + intros k' [->|Hk']%elem_of_cons Ht; [set_solver|by apply Hk2].
    + intros n Hn. destruct (Hsound2 n Hn) as [Hn1|(k' & Hk' & Ht & Hr)].
      * destruct (Hsound1 n Hn1) as [?|[Ht Hr]]; [by left|].
        right. exists k. split; [by left|done].
      * right. exists k'. split; [by right|done].
Qed.

Lemma closed_reach (g : gmap string (list string)) (marked : gset string) k n :
  closedExcept g marked ∅ → k ∈ marked → importsTransitively g k n →
  n ∈ marked.
Proof.
  intros Hc Hk Hr. induction Hr as [|x y z Hxy _ IH]; [done|].
  apply IH. apply (Hc x); [done|set_solver|done].
Qed.

(** The marked set of [main] is the ancestor closure of the matching keys. *)
Lemma markMatching_spec E (isTarget : string → bool)
    (g : gmap string (list string)) :
  rangeVisitsAll E →
  ∃ marked,
    markMatching E isTarget g = Some marked
    ∧ ∀ n, n ∈ marked ↔
           ∃ k, k ∈ dom g ∧ isTarget k = true ∧ importsTransitively g k n.
Proof.
  intros HE. unfold markMatching.
  destruct (markMatching_fold isTarget g (rangeKeys E (dom g)) ∅)
    as (marked & Heq & _ & Hk & Hsound & Hc).
  - intros k. by rewrite rangeKeys_elem.
  - by intros n ?%not_elem_of_empty.
  - exists marked. split; [done|]. intros n. split.
    + intros Hn. destruct (Hsound n Hn) as [?%not_elem_of_empty|(k & Hkin & Ht & Hr)];
        [done|].
      exists k. split; [by apply (rangeKeys_elem E)|done].
    + intros (k & Hkin & Ht & Hr). apply (closed_reach g marked k); [done| |done].
      apply Hk; [|done]. by apply rangeKeys_elem.
Qed.

(** The marking never exhausts its budget, so [prune] always returns. *)
Lemma prune_total E fl whyMatch rootPkgs (allPkgs : gmap string (list string)) :
  rangeVisitsAll E → is_Some (prune E fl whyMatch rootPkgs allPkgs).
Proof.
  intros HE. unfold prune. destruct (files fl); [by eexists|].
  destruct whyMatch as [isTarget|]; [|by eexists].
  destruct (markMatching_spec E isTarget (deleteRoots E rootPkgs allPkgs) HE)
    as (marked & -> & _).
  by eexists.
Qed.

Lemma closureExample_closed :
  closedExcept closureExample {["X"; "A"; "B"]} ∅.
Proof.
  intros n Hn _ m. unfold importedBy.
  apply elem_of_union in Hn as [[->%elem_of_singleton| ->%elem_of_singleton]%elem_of_union
                               | ->%elem_of_singleton].
  - change (closureExample !!! "X") with ["A"].
    intros ->%list_elem_of_singleton. set_solver.
  - change (closureExample !!! "A") with ["B"].
    intros ->%list_elem_of_singleton. set_solver.
  - change (closureExample !!! "B") with (@nil string). by intros ?%elem_of_nil.
Qed.

(** C1: the set marked by the loop of [main] over [markImporters] holds
    exactly the paths that are a key matching the predicate or import such
    a key directly or transitively; the filter that follows keeps exactly
    the keys of that kind, and the marked paths are all keys when every
    importer in the graph is a key.  On the graph X: [A], A: [B], B: [] with a
    predicate matching only X the set is X, A, B.  When no key matches, the
    set is empty and the filter leaves an empty graph. *)
Theorem markImporters_ancestor_closure (E : Env) (isTarget : string → bool)
    (g : gmap string (list string)) :
  rangeVisitsAll E →
  (∃ marked,
     markMatching E isTarget g = Some marked
     ∧ (∀ n, n ∈ marked ↔
             ∃ k, k ∈ dom g ∧ isTarget k = true ∧ importsTransitively g k n)
     ∧ (∀ n, n ∈ dom (deleteUnmarked E marked g) ↔
             n ∈ dom g
             ∧ ∃ k, k ∈ dom g ∧ isTarget k = true ∧ importsTransitively g k n)
     ∧ ((∀ k imp, importedBy g k imp → imp ∈ dom g) → marked ⊆ dom g)
     ∧ ((∀ k, k ∈ dom g → isTarget k = false) →
        marked = ∅ ∧ deleteUnmarked E marked g = ∅))
  ∧ markMatching E (λ p, bool_decide (p = "X")) closureExample
    = Some {["X"; "A"; "B"]}.
Proof.
  intros HE. split.
  - destruct (markMatching_spec E isTarget g HE) as (marked & Heq & Hm).
    exists marked. split; [done|]. split; [done|]. split; [|split].
    + intros n. rewrite !elem_of_dom, deleteUnmarked_lookup by done.
      case_bool_decide as Hn.
      * rewrite <- Hm. tauto.
      * split; [by intros [? ?]|]. intros [_ Hr]. by apply Hm in Hr.
    + intros Hkeys n (k & Hk & _ & Hr)%Hm.
      induction Hr as [|x y z Hxy _ IH]; [done|]. apply IH. by eapply Hkeys.
    + intros Hnone.
      assert (marked = ∅) as ->.
      { apply set_eq. intros n. rewrite Hm. split; [|by intros ?%not_elem_of_empty].
        intros (k & Hk & Ht & _). rewrite Hnone in Ht; done. }
      split; [done|]. apply map_eq. intros k.
      rewrite deleteUnmarked_lookup, lookup_empty by done.
      by rewrite bool_decide_eq_false_2 by apply not_elem_of_empty.
  - destruct (markMatching_spec E (λ p, bool_decide (p = "X")) closureExample HE)
      as (marked & -> & Hm).
    f_equal. apply set_eq. intros n. rewrite Hm. split.
    + intros (k & _ & ->%bool_decide_eq_true & Hr).
      apply (closed_reach closureExample _ "X");
        [apply closureExample_closed|set_solver|done].
    + intros Hn. exists "X". split; [by apply elem_of_dom|]. split; [done|].
      assert (HXA : importedBy closureExample "X" "A").
      { unfold importedBy. change (closureExample !!! "X") with ["A"]. by left. }
      assert (HAB : importedBy closureExample "A" "B").
      { unfold importedBy. change (closureExample !!! "A") with ["B"]. by left. }
      apply elem_of_union in Hn
        as [[->%elem_of_singleton| ->%elem_of_singleton]%elem_of_union
           | ->%elem_of_singleton].
      * apply rtc_refl.
      * by apply rtc_once.
      * eapply rtc_l; [exact HXA|]. by apply rtc_once.
Qed.

Lemma markImporters_ancestor_closure_witness :
  rangeVisitsAll (exampleEnv [] [])
  ∧ markMatching (exampleEnv [] []) (λ p, bool_decide (p = "X")) closureExample
    = Some {["X"; "A"; "B"]}.
Proof.
  split; [apply exampleEnv_range|].
  apply (markImporters_ancestor_closure (exampleEnv [] [])
           (λ p, bool_decide (p = "X")) closureExample).
  apply exampleEnv_range.
Defined.

(** ** The effective import set *)

Lemma elem_of_addPackages fl (ss : list string) : ∀ (m : gset string) s,
  s ∈ addPackages fl m ss ↔
  s ∈ m ∨ (s ∈ ss ∧ (std fl = true ∨ isStdlib s = false)).
Proof.
  unfold addPackages.
  induction ss as [|x ss IH]; intros m s; cbn [foldl].
  - split; [by left|]. intros [?|[?%elem_of_nil _]]; done.
  - rewrite IH, elem_of_cons. clear IH.
    destruct (std fl) eqn:Hstd; [|destruct (isStdlib x) eqn:Hx]; simpl;
      rewrite ?elem_of_union, ?elem_of_singleton; try naive_solver.
    split; [naive_solver|].
    intros [?|[[->|?] [?|?]]]; try done; try congruence; eauto.
Qed.

(** C2: a path is in the effective import set of a package exactly when it
    passes the standard-library filter and is a direct import, or a test or
    external-test import of a package that is in the root set while [-T] is
    absent.  For a package outside the root set the set is built from the
    direct imports alone, and [findImports] walks no other set. *)
Theorem test_imports_only_for_roots (E : Env) (cwd : string) (fl : Flags)
    (rootPkgs : gset string) (pkg : Package) :
  (∀ s, s ∈ imports fl pkg (bool_decide (ImportPath pkg ∈ rootPkgs)) ↔
        (std fl = true ∨ isStdlib s = false)
        ∧ (s ∈ Imports pkg
           ∨ (ImportPath pkg ∈ rootPkgs ∧ noTestDeps fl = false
              ∧ (s ∈ TestImports pkg ∨ s ∈ XTestImports pkg))))
  ∧ (ImportPath pkg ∉ rootPkgs →
     imports fl pkg (bool_decide (ImportPath pkg ∈ rootPkgs))
     = addPackages fl ∅ (Imports pkg))
  ∧ (∀ fuel packageName allPkgs,
       packageName ≠ "C" →
       Import E packageName cwd ImportAll = (pkg, None) →
       findImports E cwd fl rootPkgs (S fuel) packageName allPkgs
       = importLoop fl (findImports E cwd fl rootPkgs fuel) (ImportPath pkg)
           (rangeKeys E (imports fl pkg (bool_decide (ImportPath pkg ∈ rootPkgs))))
           (<[ImportPath pkg := allPkgs !!! ImportPath pkg]> allPkgs)).
Proof.
  split; [|split].
  - intros s. unfold imports. case_bool_decide as Hroot; simpl.
    + destruct (noTestDeps fl); simpl.
      * rewrite elem_of_addPackages, elem_of_empty. naive_solver.
      * rewrite !elem_of_addPackages, elem_of_empty. naive_solver.
    + rewrite elem_of_addPackages, elem_of_empty. naive_solver.
  - intros Hnr. unfold imports. by rewrite bool_decide_eq_false_2.
  - intros fuel packageName allPkgs HC Himp. cbn [findImports].
    rewrite bool_decide_eq_false_2 by done. by rewrite Himp.
Qed.

Lemma test_imports_only_for_roots_witness :
  (ImportPath (examplePackage "a.io/mid" ["a.io/r"] ["a.io/t"] [])
   ∉ ({["a.io/top"]} : gset string))
  ∧ imports noFlags (examplePackage "a.io/mid" ["a.io/r"] ["a.io/t"] [])
      (bool_decide (ImportPath (examplePackage "a.io/mid" ["a.io/r"] ["a.io/t"] [])
                    ∈ ({["a.io/top"]} : gset string)))
    = addPackages noFlags ∅ ["a.io/r"].
Proof.
  assert (H : ImportPath (examplePackage "a.io/mid" ["a.io/r"] ["a.io/t"] [])
              ∉ ({["a.io/top"]} : gset string)).
  { simpl. intros Hin. apply elem_of_singleton in Hin. discriminate Hin. }
  split; [exact H|].
  exact (proj1 (proj2 (test_imports_only_for_roots (exampleEnv [] []) "/work"
                         noFlags {["a.io/top"]}
                         (examplePackage "a.io/mid" ["a.io/r"] ["a.io/t"] []))) H).
Defined.

(** ** The order of the two deletions *)

(** C5 fails on the program.  The comment on line 106 says that the
    packages deleted are those that do not import the target, directly or
    indirectly, and the help text of [-why] says the same; the claim keeps
    the importers of a matching root.  The program deletes the roots
    first, so a root that matches seeds nothing, and the closure stops at
    every root on the way.

    With the roots [a.io/r] and [a.io/top], where [a.io/top] imports
    [a.io/mid] and [a.io/mid] imports [a.io/r], and the target [a.io/r],
    the program prints nothing, although [a.io/mid] imports the target
    directly; cutting down to the closure first and removing the roots
    afterwards keeps [a.io/mid].

    With the roots [a.io/r1] and [a.io/top], where [a.io/top] imports
    [a.io/m], [a.io/m] imports [a.io/r1] and [a.io/r1] imports [a.io/s],
    and the target [a.io/s], the program prints the line of [a.io/s] alone,
    although [a.io/m] imports the target through [a.io/r1]; the other order
    keeps [a.io/m] as well. *)
Theorem why_closure_cut_at_roots :
  buildGraph (exampleEnv chainTable []) "/work"
    (applyWhy (whyFlags "a.io/r")) {["a.io/r"; "a.io/top"]} 10
    ["a.io/r"; "a.io/top"] ∅ = Some (Ok chainGraph)
  ∧ importedBy chainGraph "a.io/r" "a.io/mid"
  ∧ whyTarget "a.io/r" "a.io/r" = true
  ∧ main (exampleEnv chainTable []) 10 (whyFlags "a.io/r")
      ["a.io/r"; "a.io/top"] = Output []
  ∧ pruneClosureThenRoots (exampleEnv chainTable []) (whyTarget "a.io/r")
      {["a.io/r"; "a.io/top"]} chainGraph
    = Some {["a.io/mid" := ["a.io/top"]]}
  ∧ buildGraph (exampleEnv throughRootTable []) "/work"
      (applyWhy (whyFlags "a.io/s")) {["a.io/r1"; "a.io/top"]} 10
      ["a.io/r1"; "a.io/top"] ∅ = Some (Ok throughRootGraph)
  ∧ importsTransitively throughRootGraph "a.io/s" "a.io/m"
  ∧ main (exampleEnv throughRootTable []) 10 (whyFlags "a.io/s")
      ["a.io/r1"; "a.io/top"] = Output ["a.io/s a.io/r1"]
  ∧ pruneClosureThenRoots (exampleEnv throughRootTable []) (whyTarget "a.io/s")
      {["a.io/r1"; "a.io/top"]} throughRootGraph
    = Some (<["a.io/s" := ["a.io/r1"; "a.io/r1"]]>
              {["a.io/m" := ["a.io/top"]]}).
Proof.
  split; [vm_compute; reflexivity|].
  split; [unfold importedBy; vm_compute; apply list_elem_of_here|].
  split; [vm_compute; reflexivity|].
  split; [vm_compute; reflexivity|].
  split; [vm_compute; reflexivity|].
  split; [vm_compute; reflexivity|].
  split.
  - apply (rtc_l _ _ "a.io/r1");
      [unfold importedBy; vm_compute; apply list_elem_of_here|].
    apply (rtc_l _ _ "a.io/m");
      [unfold importedBy; vm_compute; apply list_elem_of_here|].
    apply rtc_refl.
  - split; vm_compute; reflexivity.
Qed.

(** What the program does with a target in general: the roots are deleted
    from the graph first; the closure is then computed on what is left,
    seeded by the matching keys that are not roots, and the graph is cut
    down to it.  When every matching key is a root, nothing is left. *)
Lemma roots_deleted_before_closure (E : Env) (fl : Flags)
    (isTarget : string → bool) (rootPkgs : gset string)
    (allPkgs : gmap string (list string)) :
  rangeVisitsAll E → files fl = false →
  ∃ marked,
    markMatching E isTarget (deleteRoots E rootPkgs allPkgs) = Some marked
    ∧ prune E fl (Some isTarget) rootPkgs allPkgs
      = Some (deleteUnmarked E marked (deleteRoots E rootPkgs allPkgs))
    ∧ (∀ n, n ∈ marked ↔
            ∃ k, k ∈ dom allPkgs ∧ (k ∉ rootPkgs) ∧ isTarget k = true
                 ∧ importsTransitively (deleteRoots E rootPkgs allPkgs) k n)
    ∧ ((∀ k, k ∈ dom allPkgs → isTarget k = true → k ∈ rootPkgs) →
       prune E fl (Some isTarget) rootPkgs allPkgs = Some ∅).
Proof.
  intros HE Hf.
  destruct (markMatching_spec E isTarget (deleteRoots E rootPkgs allPkgs) HE)
    as (marked & Heq & Hm).
  assert (Hdom : ∀ k, k ∈ dom (deleteRoots E rootPkgs allPkgs)
                      ↔ k ∈ dom allPkgs ∧ k ∉ rootPkgs).
  { intros k. rewrite !elem_of_dom, deleteRoots_lookup by done.
    case_bool_decide; [|tauto]. split; [by intros [? ?]|tauto]. }
  assert (Hp : prune E fl (Some isTarget) rootPkgs allPkgs
               = Some (deleteUnmarked E marked (deleteRoots E rootPkgs allPkgs))).
  { unfold prune. by rewrite Hf, Heq. }
  exists marked. split; [done|]. split; [done|]. split.
  - intros n. rewrite Hm. split.
    + intros (k & [? ?]%Hdom & ? & ?). by exists k.
    + intros (k & ? & ? & ? & ?). exists k. split; [by apply Hdom|done].
  - intros Hroots. rewrite Hp. f_equal. apply map_eq. intros k.
    rewrite deleteUnmarked_lookup, lookup_empty by done.
    case_bool_decide as Hk; [|done].
    apply Hm in Hk as (t & [Ht Hnr]%Hdom & Htt & _).
    destruct Hnr. by apply Hroots.
Qed.

(** ** Invariants of the traversal *)

Section traversal_invariant.
Variables (E : Env) (cwd : string) (fl : Flags) (rootPkgs : gset string).
Variable P : gmap string (list string) → Prop.

(** Line 196 keeps [P]. *)
Hypothesis P_ensure :
  ∀ g name pkg,
    Import E name cwd ImportAll = (pkg, None) →
    P g → P (<[ImportPath pkg := g !!! ImportPath pkg]> g).

(** Line 202 keeps [P]. *)
Hypothesis P_append :
  ∀ g name imp,
    (std fl = true ∨ isStdlib name = false) →
    P g → P (<[name := g !!! name ++ [imp]]> g).

Lemma importLoop_invariant recurse importPath :
  (∀ name g r, recurse name g = Some r → P g → P r.1) →
  ∀ names g r,
    importLoop fl recurse importPath names g = Some r → P g → P r.1.
Proof.
  intros Hrec. induction names as [|name names IH]; intros g r; simpl.
  - by intros [= <-].
  - destruct (negb (std fl) && isStdlib name) eqn:Hskip; [by apply IH|].
    assert (Hkeep : std fl = true ∨ isStdlib name = false).
    { destruct (std fl); [by left|]. simpl in Hskip. by right. }
    destruct (all fl && negb _).
    + destruct (recurse name _) as [[g1 [e|]]|] eqn:Hcall; [| |done].
      * intros [= <-] Hg. apply (Hrec _ _ _ Hcall). by apply P_append.
      * intros Hloop Hg. apply (IH _ _ Hloop).
        apply (Hrec _ _ _ Hcall). by apply P_append.
    + intros Hloop Hg. apply (IH _ _ Hloop). by apply P_append.
Qed.

Lemma findImports_invariant fuel :
  ∀ name g r,
    findImports E cwd fl rootPkgs fuel name g = Some r → P g → P r.1.
Proof.
  induction fuel as [|fuel IH]; intros name g r; [done|]. simpl.
  case_bool_decide; [by intros [= <-]|].
  destruct (Import E name cwd ImportAll) as [pkg [e|]] eqn:Himp;
    [by intros [= <-]|].
  intros Hloop Hg.
  apply (importLoop_invariant _ _ IH _ _ _ Hloop). by eapply P_ensure.
Qed.

Lemma buildGraph_invariant fuel pkgs :
  ∀ g g',
    buildGraph E cwd fl rootPkgs fuel pkgs g = Some (Ok g') → P g → P g'.
Proof.
  induction pkgs as [|pkg pkgs IH]; intros g g'; simpl.
  - by intros [= <-].
  - destruct (findImports _ _ _ _ _ _ _) as [[g1 [e|]]|] eqn:Hcall; [done| |done].
    intros Hrest Hg. apply (IH _ _ Hrest).
    apply (findImports_invariant _ _ _ _ Hcall Hg).
Qed.

End traversal_invariant.

(** ** The pseudo-package C *)

(** C6 as stated fails: with [-stdlib] an import of [C] is recorded like any
    other import, so [C] is a key of the graph and is printed. *)
Lemma cgo_key_counterexample :
  buildGraph (exampleEnv cgoTable []) "/work" stdlibFlags {["a.io/cgo"]} 10
    ["a.io/cgo"] ∅
  = Some (Ok (<["C" := ["a.io/cgo"]]> {["a.io/cgo" := []]}))
  ∧ main (exampleEnv cgoTable []) 10 stdlibFlags ["a.io/cgo"] = Output ["C"].
Proof. split; vm_compute; reflexivity. Qed.

Lemma isStdlib_C : isStdlib "C" = true.
Proof. reflexivity. Qed.

(** C6, amended: under every setting of the flags [findImports] returns at
    once on the path [C], leaving the graph as it is and resolving nothing.
    With the standard library excluded, [C] is in no effective import set,
    no package is ever recorded as an importer of [C], and [C] is not a key
    of the graph that is built unless the resolver gives some package the
    import path [C].  With the standard library included, an import of [C]
    is in the effective import set and the loop records the importer under
    the key [C], as for any other path, before it goes on. *)
Theorem cgo_pseudo_import (E : Env) (cwd : string) (fl : Flags)
    (rootPkgs : gset string) :
  (∀ fuel g, findImports E cwd fl rootPkgs (S fuel) "C" g = Some (g, None))
  ∧ (std fl = false →
     (∀ pkg isRoot, "C" ∉ imports fl pkg isRoot)
     ∧ ∀ fuel pkgs g,
         buildGraph E cwd fl rootPkgs fuel pkgs ∅ = Some (Ok g) →
         g !!! "C" = []
         ∧ ((∀ path pkg, Import E path cwd ImportAll = (pkg, None) →
                         ImportPath pkg ≠ "C") →
            "C" ∉ dom g))
  ∧ (std fl = true →
     (∀ pkg isRoot, "C" ∈ Imports pkg → "C" ∈ imports fl pkg isRoot)
     ∧ ∀ fuel importPath names g,
         importLoop fl (findImports E cwd fl rootPkgs (S fuel)) importPath
           ("C" :: names) g
         = importLoop fl (findImports E cwd fl rootPkgs (S fuel)) importPath
             names (<["C" := g !!! "C" ++ [importPath]]> g)).
Proof.
  split; [done|]. split.
  - intros Hstd. split.
    + intros pkg isRoot. unfold imports.
      destruct (isRoot && negb (noTestDeps fl));
        rewrite !elem_of_addPackages, elem_of_empty, Hstd, isStdlib_C; naive_solver.
    + intros fuel pkgs g Hbuild. split.
      * apply (buildGraph_invariant E cwd fl rootPkgs (λ g, g !!! "C" = [])
                 ) with (fuel := fuel) (pkgs := pkgs) (g := ∅); [| |done|done].
        -- intros g0 name pkg _ Hg0.
           destruct (decide (ImportPath pkg = "C")) as [->|Hne].
           ++ by rewrite lookup_total_insert_eq.
           ++ by rewrite lookup_total_insert_ne.
        -- intros g0 name imp [Hs|Hs] Hg0; [congruence|].
           rewrite lookup_total_insert_ne; [done|]. intros ->.
           by rewrite isStdlib_C in Hs.
      * intros Hres.
        apply (buildGraph_invariant E cwd fl rootPkgs (λ g, "C" ∉ dom g)
                 ) with (fuel := fuel) (pkgs := pkgs) (g := ∅); [| |set_solver|done].
        -- intros g0 name pkg Himp Hg0. rewrite dom_insert_L.
           apply not_elem_of_union. split; [|done].
           intros Heq%elem_of_singleton. by apply (Hres name pkg).
        -- intros g0 name imp [Hs|Hs] Hg0; [congruence|].
           rewrite dom_insert_L. apply not_elem_of_union. split; [|done].
           intros <-%elem_of_singleton. by rewrite isStdlib_C in Hs.
  - intros Hstd. split.
    + intros pkg isRoot Hin. unfold imports.
      destruct (isRoot && negb (noTestDeps fl));
        rewrite !elem_of_addPackages, Hstd; naive_solver.
    + intros fuel importPath names g. cbn [importLoop]. rewrite Hstd.
      cbn [negb andb]. destruct (all fl && negb _); [|done].
      cbn [findImports]. by rewrite bool_decide_eq_true_2.
Qed.

Lemma cgo_pseudo_import_witness :
  std noFlags = false
  ∧ buildGraph (exampleEnv cgoTable []) "/work" noFlags {["a.io/cgo"]} 10
      ["a.io/cgo"] ∅ = Some (Ok {["a.io/cgo" := []]})
  ∧ ({["a.io/cgo" := []]} : gmap string (list string)) !!! "C" = [].
Proof.
  split; [reflexivity|].
  assert (Hb : buildGraph (exampleEnv cgoTable []) "/work" noFlags {["a.io/cgo"]} 10
                 ["a.io/cgo"] ∅ = Some (Ok {["a.io/cgo" := []]}))
    by (vm_compute; reflexivity).
  split; [exact Hb|].
  exact (proj1 (proj2 (proj1 (proj2 (cgo_pseudo_import (exampleEnv cgoTable [])
                                       "/work" noFlags {["a.io/cgo"]}))
                         eq_refl)
                  10 ["a.io/cgo"] _ Hb)).
Defined.

(** ** Resolutions and errors *)

Lemma resolveRootsLog_result E cwd pkgs :
  ∀ rootPkgs,
    (resolveRootsLog E cwd pkgs rootPkgs).1 = resolveRoots E cwd pkgs rootPkgs.
Proof.
  induction pkgs as [|pkg pkgs IH]; intros rootPkgs; simpl; [done|].
  destruct (Import E pkg cwd FindOnly) as [p [e|]]; [done|].
  specialize (IH ({[ImportPath p]} ∪ rootPkgs)).
  by destruct (resolveRootsLog _ _ _ _).
Qed.

Lemma importLoopLog_result fl recurseLog recurse importPath names :
  (∀ name g, (recurseLog name g).1 = recurse name g) →
  ∀ g, (importLoopLog fl recurseLog importPath names g).1
       = importLoop fl recurse importPath names g.
Proof.
  intros Hrec. induction names as [|name names IH]; intros g; simpl; [done|].
  destruct (negb (std fl) && isStdlib name); [done|].
  destruct (all fl && negb _); [|done].
  rewrite <- Hrec. destruct (recurseLog name _) as [[[g1 [e|]]|] log]; simpl; [done| |done].
  specialize (IH g1). by destruct (importLoopLog _ _ _ _ _).
Qed.

Lemma findImportsLog_result E cwd fl rootPkgs fuel :
  ∀ name g,
    (findImportsLog E cwd fl rootPkgs fuel name g).1
    = findImports E cwd fl rootPkgs fuel name g.
Proof.
  induction fuel as [|fuel IH]; intros name g; simpl; [done|].
  case_bool_decide; [done|].
  destruct (Import E name cwd ImportAll) as [pkg [e|]]; [done|].
  rewrite <- (importLoopLog_result fl _ _ _ _ IH).
  by destruct (importLoopLog _ _ _ _ _).
Qed.

Lemma buildGraphLog_result E cwd fl rootPkgs fuel pkgs :
  ∀ g, (buildGraphLog E cwd fl rootPkgs fuel pkgs g).1
       = buildGraph E cwd fl rootPkgs fuel pkgs g.
Proof.
  induction pkgs as [|pkg pkgs IH]; intros g; simpl; [done|].
  rewrite <- findImportsLog_result.
  destruct (findImportsLog _ _ _ _ _ _ _) as [[[g1 [e|]]|] log]; simpl; [done| |done].
  specialize (IH g1). by destruct (buildGraphLog _ _ _ _ _ _ _).
Qed.

Lemma logShape_app E cwd log1 log2 err :
  Forall (succeeded E cwd) log1 → logShape E cwd log2 err →
  logShape E cwd (log1 ++ log2) err.
Proof.
  intros H1. destruct err as [msg|]; simpl.
  - intros (pre & c & e & -> & Hpre & Hc & ->).
    exists (log1 ++ pre), c, e. split; [by rewrite app_assoc|].
    split; [by apply Forall_app|done].
  - intros H2. by apply Forall_app.
Qed.

Lemma importLoopLog_shape E cwd fl recurseLog importPath names :
  (∀ name g, logShape E cwd (recurseLog name g).2 (errorOf (recurseLog name g).1)) →
  ∀ g, logShape E cwd (importLoopLog fl recurseLog importPath names g).2
         (errorOf (importLoopLog fl recurseLog importPath names g).1).
Proof.
  intros Hrec. induction names as [|name names IH]; intros g; simpl.
  - constructor.
  - destruct (negb (std fl) && isStdlib name); [done|].
    destruct (all fl && negb _); [|done].
    pose proof (Hrec name (<[name:=g !!! name ++ [importPath]]> g)) as Hcall.
    destruct (recurseLog name _) as [[[g1 [e|]]|] log]; simpl in *; [done| |done].
    specialize (IH g1). destruct (importLoopLog _ _ _ _ _) as [r log']; simpl in *.
    by apply logShape_app.
Qed.

Lemma findImportsLog_shape E cwd fl rootPkgs fuel :
  ∀ name g,
    logShape E cwd (findImportsLog E cwd fl rootPkgs fuel name g).2
      (errorOf (findImportsLog E cwd fl rootPkgs fuel name g).1).
Proof.
  induction fuel as [|fuel IH]; intros name g; simpl; [constructor|].
  case_bool_decide; [constructor|].
  destruct (Import E name cwd ImportAll) as [pkg [e|]] eqn:Himp; simpl.
  - exists [], (name, ImportAll), e. split; [done|]. split; [constructor|].
    split; [|done]. unfold failed. simpl. by rewrite Himp.
  - pose proof (importLoopLog_shape E cwd fl _ (ImportPath pkg)
                  (rangeKeys E (imports fl pkg (bool_decide (ImportPath pkg ∈ rootPkgs))))
                  IH (<[ImportPath pkg:=g !!! ImportPath pkg]> g)) as Hloop.
    destruct (importLoopLog _ _ _ _ _) as [r log]; simpl in *.
    apply (logShape_app E cwd [(name, ImportAll)]); [|done].
    constructor; [|constructor]. unfold succeeded. simpl. by rewrite Himp.
Qed.

Lemma resolveRootsLog_shape E cwd pkgs :
  ∀ rootPkgs,
    logShape E cwd (resolveRootsLog E cwd pkgs rootPkgs).2
      (match (resolveRootsLog E cwd pkgs rootPkgs).1 with
       | Err msg => Some msg
       | Ok _ => None
       end).
Proof.
  induction pkgs as [|pkg pkgs IH]; intros rootPkgs; simpl; [constructor|].
  destruct (Import E pkg cwd FindOnly) as [p [e|]] eqn:Himp; simpl.
  - exists [], (pkg, FindOnly), e. split; [done|]. split; [constructor|].
    split; [|done]. unfold failed. simpl. by rewrite Himp.
  - specialize (IH ({[ImportPath p]} ∪ rootPkgs)).
    destruct (resolveRootsLog _ _ _ _) as [r log]; simpl in *.
    apply (logShape_app E cwd [(pkg, FindOnly)]); [|done].
    constructor; [|constructor]. unfold succeeded. simpl. by rewrite Himp.
Qed.

(** The error of [buildGraph] wraps the error of a resolution. *)
Lemma buildGraphLog_shape E cwd fl rootPkgs fuel pkgs :
  ∀ g,
    match (buildGraphLog E cwd fl rootPkgs fuel pkgs g).1 with
    | Some (Err msg) =>
        ∃ prefix msg',
          msg = prefix +:+ msg'
          ∧ logShape E cwd (buildGraphLog E cwd fl rootPkgs fuel pkgs g).2 (Some msg')
    | _ => logShape E cwd (buildGraphLog E cwd fl rootPkgs fuel pkgs g).2 None
    end.
Proof.
  induction pkgs as [|pkg pkgs IH]; intros g; simpl; [constructor|].
  pose proof (findImportsLog_shape E cwd fl rootPkgs fuel pkg g) as Hcall.
  destruct (findImportsLog _ _ _ _ _ _ _) as [[[g1 [e|]]|] log]; simpl in *.
  - exists ("cannot find imports from " +:+ Quote E pkg +:+ ": "), e.
    split; [|done]. by rewrite !string_app_assoc.
  - specialize (IH g1).
    destruct (buildGraphLog _ _ _ _ _ _ _) as [[[g2|msg]|] log']; simpl in *.
    + by apply (logShape_app E cwd log log' None).
    + destruct IH as (prefix & msg' & -> & Hshape).
      exists prefix, msg'. split; [done|].
      by apply (logShape_app E cwd log log' (Some msg')).
    + by apply (logShape_app E cwd log log' None).
  - done.
Qed.

Lemma failed_not_succeeded E cwd c e :
  failed E cwd c e → ¬ succeeded E cwd c.
Proof. unfold failed, succeeded. congruence. Qed.

Lemma failing_call_is_last E cwd (pre post pre' : list call) c c' e :
  pre ++ c :: post = pre' ++ [c'] →
  Forall (succeeded E cwd) pre' → failed E cwd c e →
  post = [] ∧ pre = pre' ∧ c = c'.
Proof.
  intros Heq Hpre Hc. destruct (decide (post = [])) as [->|Hne].
  - by apply app_inj_tail in Heq as [-> ->].
  - destruct (exists_last Hne) as (post' & z & ->). exfalso.
    rewrite app_comm_cons, app_assoc in Heq.
    apply app_inj_tail in Heq as [<- _].
    apply Forall_app in Hpre as [_ Hpre]. apply Forall_cons in Hpre as [Hs _].
    by apply (failed_not_succeeded E cwd c e).
Qed.

Lemma main_resolutions E fuel flags args cwd :
  Getwd E = Ok cwd →
  (∃ prefix msg,
     main E fuel flags args = Fatal (prefix +:+ msg)
     ∧ logShape E cwd (resolutions E fuel flags args) (Some msg))
  ∨ logShape E cwd (resolutions E fuel flags args) None.
Proof.
  intros Hwd. unfold main, resolutions. rewrite Hwd.
  destruct (if bool_decide (why flags ≠ "") then _ else _) as [whyMatch|];
    [|right; constructor].
  set (pkgs := ImportPaths E (if bool_decide (length args = 0) then ["."] else args)).
  rewrite <- resolveRootsLog_result.
  pose proof (resolveRootsLog_shape E cwd pkgs ∅) as Hroots.
  destruct (resolveRootsLog E cwd pkgs ∅) as [[rootPkgs|msg] log]; simpl in *.
  - rewrite <- buildGraphLog_result.
    pose proof (buildGraphLog_shape E cwd (applyWhy flags) rootPkgs fuel pkgs ∅)
      as Hbuild.
    destruct (buildGraphLog _ _ _ _ _ _ _) as [[[g|msg]|] log']; simpl in *.
    + right. by apply (logShape_app E cwd log log' None).
    + left. destruct Hbuild as (prefix & msg' & -> & Hshape).
      exists prefix, msg'. split; [done|].
      by apply (logShape_app E cwd log log' (Some msg')).
    + right. by apply (logShape_app E cwd log log' None).
  - left. exists "", msg. by split.
Qed.

(** C8: when a call of the resolver fails while the roots are resolved or
    the graph is built, it is the last call the run makes, every call
    before it succeeded, and [main] ends in [log.Fatalf], printing no line,
    with a message that ends in [cannot find], the quoted path of the
    failing call and the resolver's error. *)
Theorem resolution_failure_aborts (E : Env) (fuel : nat) (flags : Flags)
    (args : list string) (cwd : string) (pre post : list call) (c : call)
    (e : string) :
  Getwd E = Ok cwd →
  resolutions E fuel flags args = pre ++ c :: post →
  failed E cwd c e →
  post = []
  ∧ Forall (succeeded E cwd) pre
  ∧ ∃ prefix,
      main E fuel flags args
      = Fatal (prefix +:+ "cannot find " +:+ Quote E c.1 +:+ ": " +:+ e).
Proof.
  intros Hwd Hlog Hc.
  destruct (main_resolutions E fuel flags args cwd Hwd)
    as [(prefix & msg & Hmain & (pre' & c' & e' & Hshape & Hpre & Hc' & ->))|Hall].
  - rewrite Hlog in Hshape.
    destruct (failing_call_is_last E cwd _ _ _ _ _ _ Hshape Hpre Hc)
      as (-> & -> & <-).
    split; [done|]. split; [done|]. exists prefix.
    unfold failed in Hc, Hc'. rewrite Hc in Hc'. injection Hc' as <-.
    exact Hmain.
  - simpl in Hall. rewrite Hlog in Hall.
    apply Forall_app in Hall as [_ Hall]. apply Forall_cons in Hall as [Hs _].
    by destruct (failed_not_succeeded E cwd c e).
Qed.

Lemma resolution_failure_aborts_witness :
  Getwd (exampleEnv appTable []) = Ok "/work"
  ∧ resolutions (exampleEnv appTable []) 10 allFlags ["a.io/app"]
    = [("a.io/app", FindOnly); ("a.io/app", ImportAll)]
      ++ ("a.io/dep", ImportAll) :: []
  ∧ failed (exampleEnv appTable []) "/work" ("a.io/dep", ImportAll)
      ("cannot find package " +:+ dquote +:+ "a.io/dep" +:+ dquote)
  ∧ ∃ prefix,
      main (exampleEnv appTable []) 10 allFlags ["a.io/app"]
      = Fatal (prefix +:+ "cannot find "
               +:+ Quote (exampleEnv appTable []) "a.io/dep" +:+ ": "
               +:+ ("cannot find package " +:+ dquote +:+ "a.io/dep" +:+ dquote)).
Proof.
  assert (Hlog : resolutions (exampleEnv appTable []) 10 allFlags ["a.io/app"]
                 = [("a.io/app", FindOnly); ("a.io/app", ImportAll)]
                   ++ ("a.io/dep", ImportAll) :: [])
    by (vm_compute; reflexivity).
  assert (Hf : failed (exampleEnv appTable []) "/work" ("a.io/dep", ImportAll)
                 ("cannot find package " +:+ dquote +:+ "a.io/dep" +:+ dquote))
    by (vm_compute; reflexivity).
  split; [reflexivity|]. split; [exact Hlog|]. split; [exact Hf|].
  exact (proj2 (proj2 (resolution_failure_aborts (exampleEnv appTable []) 10
                         allFlags ["a.io/app"] "/work" _ _ _ _
                         eq_refl Hlog Hf))).
Defined.

(** ** Regular expressions: the matcher computes the semantics *)

Lemma Matches_NoMatch_inv b s e : ¬ Regexp.Matches Regexp.NoMatch b s e.
Proof. inversion 1. Qed.

Lemma Matches_EmptyMatch_inv b s e :
  Regexp.Matches Regexp.EmptyMatch b s e → s = [].
Proof. by inversion 1. Qed.

Lemma Matches_Lit_inv c b s e :
  Regexp.Matches (Regexp.Lit c) b s e → s = [c].
Proof. by inversion 1. Qed.

Lemma Matches_Any_inv b s e :
  Regexp.Matches Regexp.AnyCharNotNL b s e →
  ∃ c, s = [c] ∧ c ≠ ch "010".
Proof. inversion 1; subst. eauto. Qed.

Lemma Matches_BeginText_inv b s e :
  Regexp.Matches Regexp.BeginText b s e → s = [] ∧ b = true.
Proof. by inversion 1. Qed.

Lemma Matches_EndText_inv b s e :
  Regexp.Matches Regexp.EndText b s e → s = [] ∧ e = true.
Proof. by inversion 1. Qed.

Lemma Matches_Concat_inv r1 r2 b s e :
  Regexp.Matches (Regexp.Concat r1 r2) b s e →
  ∃ s1 s2,
    s = s1 ++ s2
    ∧ Regexp.Matches r1 b s1 (e && Regexp.isEmpty s2)
    ∧ Regexp.Matches r2 (b && Regexp.isEmpty s1) s2 e.
Proof. inversion 1; subst. eauto. Qed.

Lemma Matches_Alternate_inv r1 r2 b s e :
  Regexp.Matches (Regexp.Alternate r1 r2) b s e →
  Regexp.Matches r1 b s e ∨ Regexp.Matches r2 b s e.
Proof. inversion 1; subst; eauto. Qed.

Lemma Matches_Quest_inv r b s e :
  Regexp.Matches (Regexp.Quest r) b s e → s = [] ∨ Regexp.Matches r b s e.
Proof. inversion 1; subst; eauto. Qed.

Lemma Matches_cat_nil_l r1 r2 b s e :
  Regexp.Matches r1 b [] (e && Regexp.isEmpty s) →
  Regexp.Matches r2 b s e →
  Regexp.Matches (Regexp.Concat r1 r2) b s e.
Proof.
  intros H1 H2. change s with ([] ++ s). constructor; [done|].
  simpl. by rewrite andb_true_r.
Qed.

Lemma Matches_cat_cons r1 r2 b c s1 s2 e :
  Regexp.Matches r1 b (c :: s1) (e && Regexp.isEmpty s2) →
  Regexp.Matches r2 false s2 e →
  Regexp.Matches (Regexp.Concat r1 r2) b (c :: s1 ++ s2) e.
Proof.
  intros H1 H2. change (c :: s1 ++ s2) with ((c :: s1) ++ s2).
  constructor; [done|]. simpl. by rewrite andb_false_r.
Qed.

Lemma nullable_spec r : ∀ b e,
  Regexp.nullable b e r = true ↔ Regexp.Matches r b [] e.
Proof.
  induction r as [| | | | | |r1 IH1 r2 IH2|r1 IH1 r2 IH2|r IH|r IH];
    intros b e; simpl.
  - split; [done|]. by intros ?%Matches_NoMatch_inv.
  - split; [constructor|done].
  - split; [done|]. by intros ?%Matches_Lit_inv.
  - split; [done|]. by intros (? & ? & ?)%Matches_Any_inv.
  - split; [intros ->; constructor|]. by intros [_ ?]%Matches_BeginText_inv.
  - split; [intros ->; constructor|]. by intros [_ ?]%Matches_EndText_inv.
  - rewrite andb_true_iff, IH1, IH2. split.
    + intros [H1 H2]. apply Matches_cat_nil_l; [|done]. simpl.
      by rewrite andb_true_r.
    + intros (s1 & s2 & Heq & H1 & H2)%Matches_Concat_inv. symmetry in Heq.
      apply app_eq_nil in Heq as [-> ->]. simpl in *.
      by rewrite andb_true_r in H1, H2.
  - rewrite orb_true_iff, IH1, IH2. split.
    + intros [?|?]; [by apply Regexp.MAltL|by apply Regexp.MAltR].
    + by intros ?%Matches_Alternate_inv.
  - split; [constructor|done].
  - split; [constructor|done].
Qed.

Lemma deriv_sound r : ∀ b c s e,
  Regexp.Matches (Regexp.deriv b c r) false s e →
  Regexp.Matches r b (c :: s) e.
Proof.
  induction r as [| | a | | | |r1 IH1 r2 IH2|r1 IH1 r2 IH2|r IH|r IH];
    intros b c s e; simpl; try (by intros ?%Matches_NoMatch_inv).
  - destruct (Z.eqb_spec a c) as [->|Hac]; [|by intros ?%Matches_NoMatch_inv].
    intros ->%Matches_EmptyMatch_inv. constructor.
  - destruct (Z.eqb_spec c 10) as [->|Hc]; [by intros ?%Matches_NoMatch_inv|].
    intros ->%Matches_EmptyMatch_inv. by constructor.
  - intros [HL|HR]%Matches_Alternate_inv.
    + apply Matches_Concat_inv in HL as (s1 & s2 & -> & H1 & H2).
      apply Matches_cat_cons; [by apply IH1|done].
    + destruct (Regexp.nullable b false r1) eqn:Hn;
        [|by apply Matches_NoMatch_inv in HR].
      apply nullable_spec in Hn.
      apply Matches_cat_nil_l; [by rewrite andb_false_r|by apply IH2].
  - intros [?|?]%Matches_Alternate_inv;
      [apply Regexp.MAltL|apply Regexp.MAltR]; auto.
  - intros (s1 & s2 & -> & H1 & H2)%Matches_Concat_inv.
    change (c :: s1 ++ s2) with ((c :: s1) ++ s2).
    constructor; [by apply IH|]. simpl. by rewrite andb_false_r.
  - intros H. apply Regexp.MQuest. by apply IH.
Qed.

Lemma deriv_complete : ∀ r b s0 e,
  Regexp.Matches r b s0 e →
  ∀ c s, s0 = c :: s → Regexp.Matches (Regexp.deriv b c r) false s e.
Proof.
  intros r b s0 e H.
  induction H as [b e|c0 b e|c0 b e Hne|e|b
                  |r1 r2 b e s1 s2 H1 IH1 H2 IH2
                  |r1 r2 b s0 e H IH|r1 r2 b s0 e H IH
                  |r b e|r b e s1 s2 H1 IH1 H2 IH2
                  |r b e|r b s0 e H IH];
    intros c s Heq; simpl; try discriminate.
  - injection Heq as -> <-. rewrite Z.eqb_refl. constructor.
  - injection Heq as -> <-.
    destruct (Z.eqb_spec c 10) as [Hc|Hc]; [done|constructor].
  - destruct s1 as [|a s1]; simpl in Heq.
    + subst s2. apply Regexp.MAltR. simpl in H1. rewrite andb_false_r in H1.
      apply nullable_spec in H1. rewrite H1.
      simpl in IH2. rewrite andb_true_r in IH2. by apply IH2.
    + injection Heq as -> <-. apply Regexp.MAltL.
      constructor; [by apply IH1|].
      simpl in H2. by rewrite andb_false_r in H2.
  - apply Regexp.MAltL. by apply IH.
  - apply Regexp.MAltR. by apply IH.
  - destruct s1 as [|a s1]; simpl in Heq.
    + subst s2. simpl in IH2. rewrite andb_true_r in IH2. by apply IH2.
    + injection Heq as -> <-. constructor; [by apply IH1|].
      simpl in H2. by rewrite andb_false_r in H2.
  - by apply IH.
Qed.

Lemma match_here_spec s : ∀ b r,
  Regexp.match_here b r s = true ↔
  ∃ s1 s2, s = s1 ++ s2 ∧ Regexp.Matches r b s1 (Regexp.isEmpty s2).
Proof.
  induction s as [|c s IH]; intros b r; simpl.
  - rewrite nullable_spec. split.
    + intros H. by exists [], [].
    + intros (s1 & s2 & Heq & H). symmetry in Heq.
      by apply app_eq_nil in Heq as [-> ->].
  - rewrite orb_true_iff, nullable_spec, IH. split.
    + intros [H|(s1 & s2 & -> & H)].
      * by exists [], (c :: s).
      * exists (c :: s1), s2. split; [done|]. by apply deriv_sound.
    + intros (s1 & s2 & Heq & H). destruct s1 as [|a s1]; simpl in Heq.
      * subst s2. by left.
      * injection Heq as <- ->. right. exists s1, s2. split; [done|].
        by eapply deriv_complete.
Qed.

Lemma match_from_spec s : ∀ b r,
  Regexp.match_from b r s = true ↔
  ∃ s0 s1 s2,
    s = s0 ++ s1 ++ s2
    ∧ Regexp.Matches r (b && Regexp.isEmpty s0) s1 (Regexp.isEmpty s2).
Proof.
  induction s as [|c s IH]; intros b r; cbn [Regexp.match_from].
  - rewrite orb_false_r. rewrite (match_here_spec []). split.
    + intros (s1 & s2 & Heq & H). exists [], s1, s2. simpl.
      by rewrite andb_true_r.
    + intros (s0 & s1 & s2 & Heq & H). symmetry in Heq.
      apply app_eq_nil in Heq as [-> Heq]. simpl in H.
      rewrite andb_true_r in H. by exists s1, s2.
  - rewrite orb_true_iff, IH. rewrite (match_here_spec (c :: s)). split.
    + intros [(s1 & s2 & Heq & H)|(s0 & s1 & s2 & -> & H)].
      * exists [], s1, s2. simpl. by rewrite andb_true_r.
      * exists (c :: s0), s1, s2. split; [done|]. simpl.
        by rewrite andb_false_r.
    + intros (s0 & s1 & s2 & Heq & H). destruct s0 as [|a s0].
      * left. simpl in H. rewrite andb_true_r in H. by exists s1, s2.
      * right. simpl in Heq. injection Heq as <- ->.
        exists s0, s1, s2. split; [done|]. simpl in H.
        by rewrite andb_false_r in H.
Qed.

Lemma MatchString_spec r s :
  Regexp.MatchString r s = true ↔
  ∃ s0 s1 s2,
    utf8.runes s = s0 ++ s1 ++ s2
    ∧ Regexp.Matches r (Regexp.isEmpty s0) s1 (Regexp.isEmpty s2).
Proof. unfold Regexp.MatchString. by rewrite match_from_spec. Qed.

Lemma isEmpty_true s : Regexp.isEmpty s = true ↔ s = [].
Proof. by destruct s. Qed.

Lemma isEmpty_app s1 s2 :
  Regexp.isEmpty (s1 ++ s2) = Regexp.isEmpty s1 && Regexp.isEmpty s2.
Proof. by destruct s1. Qed.

(** ** What the compiled expressions match *)

Lemma Matches_star_any_noNewline : ∀ r b s e,
  Regexp.Matches r b s e →
  r = Regexp.Star Regexp.AnyCharNotNL → noNewlineRune s.
Proof.
  intros r b s e H.
  induction H as [b e|c0 b e|c0 b e Hne|e|b
                  |r1 r2 b e s1 s2 H1 IH1 H2 IH2
                  |r1 r2 b s0 e H IH|r1 r2 b s0 e H IH
                  |r b e|r b e s1 s2 H1 IH1 H2 IH2
                  |r b e|r b s0 e H IH];
    intros Heq; try discriminate.
  - apply not_elem_of_nil.
  - injection Heq as ->.
    apply Matches_Any_inv in H1 as (c & -> & Hc).
    unfold noNewlineRune in *. simpl. apply not_elem_of_cons.
    split; [by intros ?|by apply IH2].
Qed.

Lemma Matches_star_any b s e :
  Regexp.Matches (Regexp.Star Regexp.AnyCharNotNL) b s e ↔ noNewlineRune s.
Proof.
  split; [intros H; by eapply Matches_star_any_noNewline|].
  unfold noNewlineRune.
  revert b. induction s as [|c s IH]; intros b; [constructor|].
  intros [Hc Hs]%not_elem_of_cons. change (c :: s) with ([c] ++ s).
  constructor; [constructor; by intros ->|by apply IH].
Qed.

Lemma rglob_app any ts1 ts2 s :
  runeMatches any (ts1 ++ ts2) s ↔
  ∃ s1 s2, s = s1 ++ s2 ∧ runeMatches any ts1 s1 ∧ runeMatches any ts2 s2.
Proof.
  revert s. induction ts1 as [|t ts1 IH]; intros s; simpl.
  - split.
    + intros H. exists [], s. split; [done|]. split; [constructor|done].
    + intros (s1 & s2 & -> & H1 & H2). inversion H1; subst. done.
  - split.
    + inversion 1 as [|c ts s' H'|ts s1 s2 Hany H']; subst.
      * apply IH in H' as (s1 & s2 & -> & H1 & H2).
        exists (c :: s1), s2. split; [done|]. split; [by constructor|done].
      * apply IH in H' as (s1' & s2' & -> & H1 & H2).
        exists (s1 ++ s1'), s2'. split; [by rewrite app_assoc|].
        split; [by constructor|done].
    + intros (s1 & s2 & -> & H1 & H2).
      inversion H1 as [|c ts s' H'|ts sa sb Hany H']; subst.
      * simpl. constructor. apply IH. eauto.
      * rewrite <- app_assoc. constructor; [done|]. apply IH. eauto.
Qed.

Lemma Matches_tokens ts : ∀ tail b s e,
  Regexp.Matches (Regexp.seq (map tokenRe ts ++ tail)) b s e ↔
  ∃ s1 s2,
    s = s1 ++ s2 ∧ runeMatches noNewlineRune ts s1
    ∧ Regexp.Matches (Regexp.seq tail) (b && Regexp.isEmpty s1) s2 e.
Proof.
  induction ts as [|t ts IH]; intros tail b s e; simpl.
  - split.
    + intros H. exists [], s. split; [done|]. split; [constructor|].
      simpl. by rewrite andb_true_r.
    + intros (s1 & s2 & -> & H1 & H2). inversion H1; subst.
      simpl in H2. by rewrite andb_true_r in H2.
  - split.
    + intros (sa & sb & -> & Ha & Hb)%Matches_Concat_inv.
      apply IH in Hb as (s1 & s2 & -> & Hg & Ht).
      exists (sa ++ s1), s2. split; [by rewrite app_assoc|].
      rewrite isEmpty_app, andb_assoc. split; [|done].
      destruct t as [c|]; simpl in Ha.
      * apply Matches_Lit_inv in Ha as ->. simpl. by constructor.
      * apply Matches_star_any in Ha. by constructor.
    + intros (s1 & s2 & -> & Hg & Ht).
      inversion Hg as [|c ts' s' H'|ts' sa sb Hany H']; subst; simpl.
      * change (c :: s' ++ s2) with ([c] ++ s' ++ s2).
        constructor; [constructor|]. apply IH. exists s', s2.
        split; [done|]. split; [done|]. simpl in *.
        by rewrite andb_false_r in *.
      * rewrite <- app_assoc. constructor; [by apply Matches_star_any|].
        apply IH. exists sb, s2. split; [done|]. split; [done|].
        by rewrite isEmpty_app, andb_assoc in Ht.
Qed.

Lemma Matches_end_tail b s e :
  Regexp.Matches (Regexp.seq [Regexp.EndText]) b s e ↔ s = [] ∧ e = true.
Proof.
  simpl. split.
  - intros (s1 & s2 & -> & H1 & H2)%Matches_Concat_inv.
    apply Matches_EmptyMatch_inv in H2 as ->.
    apply Matches_EndText_inv in H1 as [-> He]. simpl in He.
    rewrite andb_true_r in He. by subst.
  - intros [-> ->]. change [] with (@nil utf8.rune ++ []).
    constructor; constructor.
Qed.

Lemma Matches_slashDots_tail b s e :
  Regexp.Matches (Regexp.seq [slashDots; Regexp.EndText]) b s e ↔
  e = true ∧ (s = [] ∨ ∃ s', s = ch "/" :: s' ∧ noNewlineRune s').
Proof.
  change (Regexp.seq [slashDots; Regexp.EndText])
    with (Regexp.Concat slashDots (Regexp.seq [Regexp.EndText])).
  split.
  - intros (s1 & s2 & -> & H1 & H2)%Matches_Concat_inv.
    apply Matches_end_tail in H2 as [-> ->]. split; [done|].
    rewrite app_nil_r.
    apply Matches_Quest_inv in H1 as [->|H1]; [by left|right].
    apply Matches_Concat_inv in H1 as (sa & sb & -> & Ha & Hb).
    apply Matches_Lit_inv in Ha as ->.
    apply Matches_Concat_inv in Hb as (sc & sd & -> & Hc & Hd).
    apply Matches_EmptyMatch_inv in Hd as ->.
    apply Matches_star_any in Hc.
    exists sc. by rewrite app_nil_r.
  - intros [-> Hs]. rewrite <- (app_nil_r s).
    constructor; [|by apply Matches_end_tail].
    destruct Hs as [->|(s' & -> & Hs')]; [constructor|].
    apply Regexp.MQuest. simpl.
    change (ch "/" :: s') with ([ch "/"] ++ s').
    constructor; [constructor|].
    rewrite <- (app_nil_r s').
    constructor; [by apply Matches_star_any|constructor].
Qed.

Lemma Matches_begin X b s e :
  Regexp.Matches (Regexp.seq (Regexp.BeginText :: X)) b s e ↔
  b = true ∧ Regexp.Matches (Regexp.seq X) true s e.
Proof.
  simpl. split.
  - intros (s1 & s2 & -> & H1 & H2)%Matches_Concat_inv.
    by apply Matches_BeginText_inv in H1 as [-> ->].
  - intros [-> H]. change s with ([] ++ s). constructor; [constructor|done].
Qed.

(** The expression for a pattern without the special suffix. *)
Lemma anchored_tokens_match ts name :
  Regexp.MatchString
    (Regexp.seq (Regexp.BeginText :: map tokenRe ts ++ [Regexp.EndText])) name
  = true ↔ runeMatches noNewlineRune ts (utf8.runes name).
Proof.
  rewrite MatchString_spec. split.
  - intros (s0 & s1 & s2 & Heq & H).
    apply Matches_begin in H as [->%isEmpty_true H].
    apply Matches_tokens in H as (sa & sb & -> & Hg & Ht).
    apply Matches_end_tail in Ht as [-> ->%isEmpty_true].
    rewrite Heq. simpl. by rewrite !app_nil_r.
  - intros Hg. exists [], (utf8.runes name), [].
    split; [by rewrite app_nil_r|].
    apply Matches_begin. split; [done|]. apply Matches_tokens.
    exists (utf8.runes name), []. split; [by rewrite app_nil_r|].
    split; [done|]. by apply Matches_end_tail.
Qed.

(** The expression for a pattern that ends in a slash and dots. *)
Lemma anchored_slashDots_match ts name :
  Regexp.MatchString
    (Regexp.seq (Regexp.BeginText
                 :: map tokenRe ts ++ [slashDots; Regexp.EndText])) name
  = true ↔
  runeMatches noNewlineRune ts (utf8.runes name)
  ∨ runeMatches noNewlineRune (ts ++ [RLit (ch "/"); RDots]) (utf8.runes name).
Proof.
  rewrite MatchString_spec. split.
  - intros (s0 & s1 & s2 & Heq & H).
    apply Matches_begin in H as [->%isEmpty_true H].
    apply Matches_tokens in H as (sa & sb & -> & Hg & Ht).
    apply Matches_slashDots_tail in Ht as [->%isEmpty_true Hs].
    rewrite Heq. simpl. rewrite !app_nil_r.
    destruct Hs as [->|(s' & -> & Hs')].
    + left. by rewrite app_nil_r.
    + right. apply rglob_app. exists sa, (ch "/" :: s'). split; [done|].
      split; [done|]. constructor. rewrite <- (app_nil_r s').
      constructor; [done|constructor].
  - intros Hg. exists [].
    assert (∃ sa sb, utf8.runes name = sa ++ sb
                     ∧ runeMatches noNewlineRune ts sa
                     ∧ (sb = [] ∨ ∃ s', sb = ch "/" :: s' ∧ noNewlineRune s'))
      as (sa & sb & Heq & Ha & Hb).
    { destruct Hg as [Hg|Hg].
      - exists (utf8.runes name), []. rewrite app_nil_r. eauto.
      - apply rglob_app in Hg as (sa & sb & Heq & Ha & Hb).
        exists sa, sb. split; [done|]. split; [done|]. right.
        inversion Hb as [|c ts' s' H'|]; subst.
        inversion H' as [| |ts' s1 s2 Hany H'']; subst.
        inversion H''; subst. exists s1. by rewrite app_nil_r. }
    exists (sa ++ sb), []. split; [by rewrite app_nil_r|].
    apply Matches_begin. split; [done|]. apply Matches_tokens.
    exists sa, sb. split; [done|]. split; [done|].
    by apply Matches_slashDots_tail.
Qed.

(** ** Prefixes, suffixes and slices *)

Lemma string_app_eq_nil s1 s2 : s1 +:+ s2 = "" → s1 = "" ∧ s2 = "".
Proof.
  destruct s1; [rewrite string_app_nil_l; by intros ->|].
  by rewrite string_app_cons.
Qed.

Lemma string_app_eq_cons s1 s2 c s :
  s1 +:+ s2 = String c s →
  (s1 = "" ∧ s2 = String c s) ∨ ∃ s1', s1 = String c s1' ∧ s = s1' +:+ s2.
Proof.
  destruct s1 as [|a s1]; [rewrite string_app_nil_l; by left|].
  rewrite string_app_cons. intros [= -> <-]. right. by exists s1.
Qed.

Lemma string_length_app s1 s2 :
  String.length (s1 +:+ s2) = String.length s1 + String.length s2.
Proof.
  induction s1 as [|a s1 IH]; [done|].
  rewrite string_app_cons. simpl. by rewrite IH.
Qed.

Lemma Drop_app_length s1 s2 : Strings.Drop (String.length s1) (s1 +:+ s2) = s2.
Proof. induction s1 as [|a s1 IH]; [done|]. by rewrite string_app_cons. Qed.

Lemma Take_app_length s1 s2 : Strings.Take (String.length s1) (s1 +:+ s2) = s1.
Proof.
  induction s1 as [|a s1 IH]; [by destruct s2|].
  rewrite string_app_cons. simpl. by rewrite IH.
Qed.

Lemma Take_Drop n s : Strings.Take n s +:+ Strings.Drop n s = s.
Proof.
  revert s. induction n as [|n IH]; intros [|a s]; simpl; try done.
  by rewrite string_app_cons, IH.
Qed.

Lemma HasSuffix_spec s p :
  Strings.HasSuffix s p = true ↔ ∃ r, s = r +:+ p.
Proof.
  unfold Strings.HasSuffix. rewrite andb_true_iff, !bool_decide_eq_true. split.
  - intros [_ Hd]. exists (Strings.Take (String.length s - String.length p) s).
    pose proof (Take_Drop (String.length s - String.length p) s) as H.
    by rewrite Hd in H.
  - intros [r ->]. rewrite string_length_app. split; [lia|].
    replace (String.length r + String.length p - String.length p)
      with (String.length r) by lia.
    apply Drop_app_length.
Qed.

Lemma bytes_app s1 s2 :
  String.list_ascii_of_string (s1 +:+ s2)
  = String.list_ascii_of_string s1 ++ String.list_ascii_of_string s2.
Proof.
  induction s1 as [|a s1 IH]; [done|].
  rewrite string_app_cons. simpl. by rewrite IH.
Qed.

Lemma bytes_inj s1 s2 :
  String.list_ascii_of_string s1 = String.list_ascii_of_string s2 → s1 = s2.
Proof.
  intros H. rewrite <- (String.string_of_list_ascii_of_string s1),
    <- (String.string_of_list_ascii_of_string s2). by rewrite H.
Qed.


(** ** From the pattern to the expression *)

Lemma tokens_dots p :
  tokens (String "." (String "." (String "." p))) = TDots :: tokens p.
Proof. reflexivity. Qed.

Lemma tokens_byte c p :
  ¬ (c = "."%char ∧ ∃ p'', p = String "." (String "." p'')) →
  tokens (String c p) = TByte c :: tokens p.
Proof.
  intros H. destruct (ascii_dec c ".") as [->|Hc].
  - destruct p as [|a p1]; [reflexivity|].
    destruct (ascii_dec a ".") as [->|Ha].
    + destruct p1 as [|a2 p2]; [reflexivity|].
      destruct (ascii_dec a2 ".") as [->|Ha2]; [destruct H; eauto|].
      cbn [tokens]. destruct a2 as [[] [] [] [] [] [] [] []]; try reflexivity.
      by destruct Ha2.
    + cbn [tokens]. destruct a as [[] [] [] [] [] [] [] []]; try reflexivity.
      by destruct Ha.
  - cbn [tokens]. destruct c as [[] [] [] [] [] [] [] []]; try reflexivity.
    by destruct Hc.
Qed.

Lemma two_dots_dec p :
  (∃ p'', p = String "." (String "." p''))
  ∨ ¬ (∃ p'', p = String "." (String "." p'')).
Proof.
  destruct p as [|a [|a2 p2]]; [right; by intros [? ?]..|].
  destruct (ascii_dec a ".") as [->|Ha]; [|right; intros [? [= ? ?]]; done].
  destruct (ascii_dec a2 ".") as [->|Ha2]; [|right; intros [? [= ? ?]]; done].
  left. eauto.
Qed.

Lemma tokens_induction (P : string → Prop) :
  P "" →
  (∀ p, P p → P (String "." (String "." (String "." p)))) →
  (∀ c p, ¬ (c = "."%char ∧ ∃ p'', p = String "." (String "." p'')) →
          P p → P (String c p)) →
  ∀ p, P p.
Proof.
  intros H0 Hd Hb p.
  assert (Hn : ∀ n p, String.length p ≤ n → P p).
  { clear p. induction n as [|n IH]; intros [|c p] Hlen; simpl in *;
      [done|lia|done|].
    destruct (ascii_dec c ".") as [->|Hc].
    - destruct (two_dots_dec p) as [[p'' ->]|Hno].
      + apply Hd, IH. simpl in Hlen. lia.
      + apply Hb; [by intros [_ ?]|]. apply IH. lia.
    - apply Hb; [by intros [? _]|]. apply IH. lia. }
  by apply (Hn (String.length p)).
Qed.

Lemma QuoteMeta_first_not_dot p s :
  Regexp.QuoteMeta p ≠ String "." s.
Proof.
  destruct p as [|a p]; [done|]. simpl.
  destruct (Regexp.special a) eqn:Ha; [done|].
  intros [= -> _]. done.
Qed.

Lemma QuoteMeta_two_dots p s :
  Regexp.QuoteMeta p = String "\" (String "." (String "\" (String "." s))) →
  ∃ p'', p = String "." (String "." p'').
Proof.
  destruct p as [|a p]; [done|]. simpl.
  destruct (Regexp.special a) eqn:Ha; [|by intros [= -> _]].
  intros [= -> Hp]. destruct p as [|a2 p2]; [done|]. simpl in Hp.
  destruct (Regexp.special a2) eqn:Ha2; [|by injection Hp as -> _].
  injection Hp as -> _. eauto.
Qed.

Lemma HasPrefix_spec s p :
  Strings.HasPrefix s p = true ↔ ∃ r, s = p +:+ r.
Proof.
  revert s. induction p as [|b p IH]; intros s; simpl.
  - split; [|done]. intros _. by exists s.
  - destruct s as [|a s].
    + split; [done|]. by intros [r ?].
    + destruct (Ascii.eqb_spec a b) as [->|Hne].
      * rewrite IH. split.
        -- intros [r ->]. by exists r.
        -- intros [r Hr]. rewrite string_app_cons in Hr. injection Hr as ->.
           by exists r.
      * split; [done|]. intros [r Hr]. rewrite string_app_cons in Hr.
        by injection Hr as -> _.
Qed.

Lemma HasPrefix_false s p :
  (∀ r, s ≠ p +:+ r) → Strings.HasPrefix s p = false.
Proof.
  intros H. destruct (Strings.HasPrefix s p) eqn:Hp; [|done].
  apply HasPrefix_spec in Hp as [r ->]. by destruct (H r).
Qed.

Lemma quote_replace p :
  Strings.ReplaceAll (Regexp.QuoteMeta p) "\.\.\." ".*" = emitAll (tokens p).
Proof.
  unfold Strings.ReplaceAll.
  induction p as [|p IH|c p Hno IH] using tokens_induction.
  - reflexivity.
  - rewrite tokens_dots. cbn [emitAll emit]. rewrite <- IH. reflexivity.
  - rewrite tokens_byte by done. cbn [emitAll emit Regexp.QuoteMeta].
    rewrite <- IH. destruct (Regexp.special c) eqn:Hc.
    + cbn [Strings.ReplaceFrom].
      rewrite HasPrefix_false.
      2:{ intros r. rewrite !string_app_cons, string_app_nil_l.
          intros [= -> Hq]. apply QuoteMeta_two_dots in Hq. by destruct Hno. }
      rewrite HasPrefix_false.
      2:{ intros r. rewrite !string_app_cons, string_app_nil_l.
          intros [= -> Hq]. by apply QuoteMeta_first_not_dot in Hq. }
      by rewrite !string_app_cons, string_app_nil_l.
    + cbn [Strings.ReplaceFrom].
      rewrite HasPrefix_false.
      2:{ intros r. rewrite !string_app_cons, string_app_nil_l.
          intros [= -> _]. done. }
      by rewrite string_app_cons, string_app_nil_l.
Qed.

Lemma tokens_slash p q :
  tokens (p +:+ String "/" q) = tokens p ++ TByte "/" :: tokens q.
Proof.
  induction p as [|p IH|c p Hno IH] using tokens_induction.
  - rewrite string_app_nil_l. apply tokens_byte. by intros [? _].
  - rewrite !string_app_cons, !tokens_dots, IH. done.
  - rewrite string_app_cons, (tokens_byte c p) by done.
    rewrite tokens_byte; [by rewrite IH|].
    intros [-> [p'' Hp]]. apply Hno. split; [done|].
    destruct p as [|a [|a2 p2]].
    + by rewrite string_app_nil_l in Hp.
    + rewrite string_app_cons, string_app_nil_l in Hp. by injection Hp.
    + rewrite !string_app_cons in Hp. injection Hp as -> -> _. eauto.
Qed.

Lemma untokens_tokens p : untokens (tokens p) = p.
Proof.
  induction p as [|p IH|c p Hno IH] using tokens_induction.
  - done.
  - rewrite tokens_dots. simpl. by rewrite IH.
  - rewrite tokens_byte by done. simpl. by rewrite IH.
Qed.

Lemma untokens_app ts1 ts2 :
  untokens (ts1 ++ ts2) = untokens ts1 +:+ untokens ts2.
Proof.
  induction ts1 as [|[c|] ts1 IH]; simpl.
  - done.
  - by rewrite IH, string_app_cons.
  - by rewrite IH, !string_app_cons.
Qed.

Lemma emitAll_app ts1 ts2 :
  emitAll (ts1 ++ ts2) = emitAll ts1 +:+ emitAll ts2.
Proof.
  induction ts1 as [|t ts1 IH]; simpl; [done|].
  by rewrite IH, string_app_assoc.
Qed.

(** A pattern ends in a slash and dots exactly when its tokens do. *)
Lemma tokens_slashDots_suffix pattern ts' :
  tokens pattern = ts' ++ [TByte "/"; TDots] →
  pattern = untokens ts' +:+ "/..." ∧ tokens (untokens ts') = ts'.
Proof.
  intros Ht.
  assert (Hp : pattern = untokens ts' +:+ "/...").
  { rewrite <- (untokens_tokens pattern), Ht, untokens_app. done. }
  split; [done|].
  rewrite Hp in Ht. change "/..." with (String "/" "...") in Ht.
  rewrite tokens_slash in Ht.
  change (tokens "...") with [TDots] in Ht.
  change (TByte "/" :: [TDots]) with ([TByte "/"; TDots]) in Ht.
  by apply app_inv_tail in Ht.
Qed.

Lemma rev_bytes_emitAll_snoc ts t :
  rev (String.list_ascii_of_string (emitAll (ts ++ [t])))
  = rev (String.list_ascii_of_string (emit t))
    ++ rev (String.list_ascii_of_string (emitAll ts)).
Proof.
  rewrite emitAll_app, bytes_app, rev_app_distr. simpl.
  by rewrite string_app_nil_r.
Qed.

Lemma emitAll_suffix ts :
  Strings.HasSuffix (emitAll ts) "/.*" = true →
  ∃ ts', ts = ts' ++ [TByte "/"; TDots].
Proof.
  intros [r Hr]%HasSuffix_spec.
  apply (f_equal (λ s, rev (String.list_ascii_of_string s))) in Hr.
  simpl in Hr. rewrite bytes_app, rev_app_distr in Hr. simpl in Hr.
  destruct (decide (ts = [])) as [->|Hne]; [done|].
  destruct (exists_last Hne) as (ts1 & t & ->).
  rewrite rev_bytes_emitAll_snoc in Hr.
  destruct t as [c|]; simpl in Hr.
  - destruct (Regexp.special c) eqn:Hc; simpl in Hr.
    + by injection Hr as -> ?.
    + injection Hr as -> _. done.
  - injection Hr as Hr.
    destruct (decide (ts1 = [])) as [->|Hne1]; [done|].
    destruct (exists_last Hne1) as (ts2 & t2 & ->).
    rewrite rev_bytes_emitAll_snoc in Hr.
    destruct t2 as [c|]; simpl in Hr.
    + destruct (Regexp.special c) eqn:Hc; simpl in Hr.
      * injection Hr as -> _. done.
      * injection Hr as -> _. exists ts2. by rewrite <- app_assoc.
    + by injection Hr.
Qed.


(** ** Bytes *)

Lemma byte_range c : (0 ≤ utf8.byte c < 256)%Z.
Proof.
  unfold utf8.byte. pose proof (N_ascii_bounded c). lia.
Qed.

Lemma byte_inj c1 c2 : utf8.byte c1 = utf8.byte c2 → c1 = c2.
Proof.
  unfold utf8.byte. intros H%(inj Z.of_N).
  by rewrite <- (ascii_N_embedding c1), <- (ascii_N_embedding c2), H.
Qed.

Lemma first_cases b :
  (0 ≤ b < 256)%Z →
  (utf8.first b = utf8.as_ ∧ b < 0x80)%Z
  ∨ (utf8.first b = utf8.xx ∧ (0x80 ≤ b < 0xC2 ∨ 0xF5 ≤ b))%Z
  ∨ (utf8.first b = utf8.s1 ∧ 0xC2 ≤ b < 0xE0)%Z
  ∨ (utf8.first b = utf8.s2 ∧ b = 0xE0)%Z
  ∨ (utf8.first b = utf8.s3 ∧ (0xE1 ≤ b < 0xED ∨ 0xEE ≤ b < 0xF0))%Z
  ∨ (utf8.first b = utf8.s4 ∧ b = 0xED)%Z
  ∨ (utf8.first b = utf8.s5 ∧ b = 0xF0)%Z
  ∨ (utf8.first b = utf8.s6 ∧ 0xF1 ≤ b < 0xF4)%Z
  ∨ (utf8.first b = utf8.s7 ∧ b = 0xF4)%Z.
Proof.
  intros Hb. unfold utf8.first.
  repeat match goal with
         | |- context [(?x <? ?y)%Z] => destruct (Z.ltb_spec x y)
         end;
    solve [ repeat first [ split; [reflexivity|lia]
                         | left; split; [reflexivity|lia]
                         | right ] ].
Qed.

(** ** Decoding UTF-8 *)

Section decoding.

Local Open Scope Z_scope.

Lemma lor_disjoint x y n k :
  0 ≤ n → 0 ≤ y < 2 ^ n → x = k * 2 ^ n → Z.lor x y = x + y.
Proof.
  intros Hn Hy ->.
  rewrite <- (Z.add_lor_land (k * 2 ^ n) y).
  assert (Z.land (k * 2 ^ n) y = 0) as ->; [|lia].
  apply Z.bits_inj'. intros i Hi.
  rewrite Z.land_spec, Z.bits_0.
  destruct (decide (i < n)).
  - by rewrite Z.mul_pow2_bits_low.
  - rewrite <- (Z.mod_small y (2 ^ n)) by lia.
    rewrite Z.mod_pow2_bits_high by lia. by rewrite andb_false_r.
Qed.

Lemma land_low_bits b m n k :
  0 ≤ n → m = Z.ones n → b = k * 2 ^ n + (b - k * 2 ^ n) →
  0 ≤ b - k * 2 ^ n < 2 ^ n →
  Z.land b m = b - k * 2 ^ n.
Proof.
  intros Hn -> _ Hr. rewrite Z.land_ones by done.
  symmetry. apply (Z.mod_unique_pos b (2 ^ n) k); lia.
Qed.

Lemma land_maskx b : 0x80 ≤ b ≤ 0xBF → Z.land b utf8.maskx = b - 0x80.
Proof. intros H. apply (land_low_bits b _ 6 2); [lia|reflexivity|lia|lia]. Qed.

Lemma land_mask2 b : 0xC0 ≤ b ≤ 0xDF → Z.land b utf8.mask2 = b - 0xC0.
Proof. intros H. apply (land_low_bits b _ 5 6); [lia|reflexivity|lia|lia]. Qed.

Lemma land_mask3 b : 0xE0 ≤ b ≤ 0xEF → Z.land b utf8.mask3 = b - 0xE0.
Proof. intros H. apply (land_low_bits b _ 4 14); [lia|reflexivity|lia|lia]. Qed.

Lemma land_mask4 b : 0xF0 ≤ b ≤ 0xF7 → Z.land b utf8.mask4 = b - 0xF0.
Proof. intros H. apply (land_low_bits b _ 3 30); [lia|reflexivity|lia|lia]. Qed.

Lemma value2 b0 b1 :
  0xC0 ≤ b0 ≤ 0xDF → 0x80 ≤ b1 ≤ 0xBF →
  Z.lor (Z.shiftl (Z.land b0 utf8.mask2) 6) (Z.land b1 utf8.maskx)
  = 64 * (b0 - 0xC0) + (b1 - 0x80).
Proof.
  intros H0 H1. rewrite land_mask2, land_maskx by done.
  rewrite Z.shiftl_mul_pow2 by lia.
  rewrite (lor_disjoint _ _ 6 (b0 - 0xC0)); lia.
Qed.

Lemma value3 b0 b1 b2 :
  0xE0 ≤ b0 ≤ 0xEF → 0x80 ≤ b1 ≤ 0xBF → 0x80 ≤ b2 ≤ 0xBF →
  Z.lor (Z.lor (Z.shiftl (Z.land b0 utf8.mask3) 12)
               (Z.shiftl (Z.land b1 utf8.maskx) 6))
        (Z.land b2 utf8.maskx)
  = 4096 * (b0 - 0xE0) + 64 * (b1 - 0x80) + (b2 - 0x80).
Proof.
  intros H0 H1 H2. rewrite land_mask3, !land_maskx by done.
  rewrite !Z.shiftl_mul_pow2 by lia.
  rewrite (lor_disjoint ((b0 - 0xE0) * 2 ^ 12) _ 12 (b0 - 0xE0)) by lia.
  rewrite (lor_disjoint _ _ 6 ((b0 - 0xE0) * 64 + (b1 - 0x80))); lia.
Qed.

Lemma value4 b0 b1 b2 b3 :
  0xF0 ≤ b0 ≤ 0xF7 → 0x80 ≤ b1 ≤ 0xBF → 0x80 ≤ b2 ≤ 0xBF →
  0x80 ≤ b3 ≤ 0xBF →
  Z.lor (Z.lor (Z.lor (Z.shiftl (Z.land b0 utf8.mask4) 18)
                      (Z.shiftl (Z.land b1 utf8.maskx) 12))
               (Z.shiftl (Z.land b2 utf8.maskx) 6))
        (Z.land b3 utf8.maskx)
  = 262144 * (b0 - 0xF0) + 4096 * (b1 - 0x80) + 64 * (b2 - 0x80) + (b3 - 0x80).
Proof.
  intros H0 H1 H2 H3. rewrite land_mask4, !land_maskx by done.
  rewrite !Z.shiftl_mul_pow2 by lia.
  rewrite (lor_disjoint ((b0 - 0xF0) * 2 ^ 18) _ 18 (b0 - 0xF0)) by lia.
  rewrite (lor_disjoint _ ((b2 - 0x80) * 2 ^ 6) 12
             ((b0 - 0xF0) * 64 + (b1 - 0x80))) by lia.
  rewrite (lor_disjoint _ _ 6
             ((b0 - 0xF0) * 4096 + (b1 - 0x80) * 64 + (b2 - 0x80))); lia.
Qed.

(** The equations of [DecodeRuneInString], by the class of the first byte. *)
Lemma decode_one c t :
  utf8.first (utf8.byte c) = utf8.as_ →
  utf8.DecodeRuneInString (String c t) = (utf8.byte c, 1%nat).
Proof.
  intros H. unfold utf8.DecodeRuneInString. rewrite H.
  change (utf8.as_ <=? utf8.as_) with true. cbv iota.
  change (Z.odd utf8.as_) with false. cbv iota zeta.
  by rewrite Z.ldiff_0_r, Z.land_0_r, Z.lor_0_r.
Qed.

Lemma decode_xx c t :
  utf8.first (utf8.byte c) = utf8.xx →
  utf8.DecodeRuneInString (String c t) = (utf8.RuneError, 1%nat).
Proof.
  intros H. unfold utf8.DecodeRuneInString. rewrite H.
  change (utf8.as_ <=? utf8.xx) with true. cbv iota.
  change (Z.odd utf8.xx) with true. cbv iota zeta.
  by rewrite Z.ldiff_m1_r, Z.land_m1_r.
Qed.

Lemma decode_two c0 t :
  utf8.first (utf8.byte c0) = utf8.s1 →
  utf8.DecodeRuneInString (String c0 t)
  = match t with
    | String c1 _ =>
        if outside (utf8.byte c1) 0x80 0xBF then (utf8.RuneError, 1%nat)
        else (Z.lor (Z.shiftl (Z.land (utf8.byte c0) utf8.mask2) 6)
                    (Z.land (utf8.byte c1) utf8.maskx), 2%nat)
    | EmptyString => (utf8.RuneError, 1%nat)
    end.
Proof.
  intros H. unfold utf8.DecodeRuneInString. rewrite H.
  by destruct t as [|c1 t1].
Qed.

Lemma decode_three c0 t x lo hi :
  utf8.first (utf8.byte c0) = x →
  (x = utf8.s2 ∧ lo = 0xA0 ∧ hi = 0xBF)
  ∨ (x = utf8.s3 ∧ lo = 0x80 ∧ hi = 0xBF)
  ∨ (x = utf8.s4 ∧ lo = 0x80 ∧ hi = 0x9F) →
  utf8.DecodeRuneInString (String c0 t)
  = match t with
    | String c1 (String c2 _) =>
        if outside (utf8.byte c1) lo hi then (utf8.RuneError, 1%nat)
        else if outside (utf8.byte c2) 0x80 0xBF then (utf8.RuneError, 1%nat)
        else (Z.lor (Z.lor (Z.shiftl (Z.land (utf8.byte c0) utf8.mask3) 12)
                           (Z.shiftl (Z.land (utf8.byte c1) utf8.maskx) 6))
                    (Z.land (utf8.byte c2) utf8.maskx), 3%nat)
    | _ => (utf8.RuneError, 1%nat)
    end.
Proof.
  intros H Hx. unfold utf8.DecodeRuneInString. rewrite H.
  destruct Hx as [(-> & -> & ->)|[(-> & -> & ->)|(-> & -> & ->)]];
    by destruct t as [|c1 [|c2 t2]].
Qed.

Lemma decode_four c0 t x lo hi :
  utf8.first (utf8.byte c0) = x →
  (x = utf8.s5 ∧ lo = 0x90 ∧ hi = 0xBF)
  ∨ (x = utf8.s6 ∧ lo = 0x80 ∧ hi = 0xBF)
  ∨ (x = utf8.s7 ∧ lo = 0x80 ∧ hi = 0x8F) →
  utf8.DecodeRuneInString (String c0 t)
  = match t with
    | String c1 (String c2 (String c3 _)) =>
        if outside (utf8.byte c1) lo hi then (utf8.RuneError, 1%nat)
        else if outside (utf8.byte c2) 0x80 0xBF then (utf8.RuneError, 1%nat)
        else if outside (utf8.byte c3) 0x80 0xBF then (utf8.RuneError, 1%nat)
        else (Z.lor (Z.lor (Z.lor (Z.shiftl (Z.land (utf8.byte c0) utf8.mask4) 18)
                                  (Z.shiftl (Z.land (utf8.byte c1) utf8.maskx) 12))
                           (Z.shiftl (Z.land (utf8.byte c2) utf8.maskx) 6))
                    (Z.land (utf8.byte c3) utf8.maskx), 4%nat)
    | _ => (utf8.RuneError, 1%nat)
    end.
Proof.
  intros H Hx. unfold utf8.DecodeRuneInString. rewrite H.
  destruct Hx as [(-> & -> & ->)|[(-> & -> & ->)|(-> & -> & ->)]];
    by destruct t as [|c1 [|c2 [|c3 t3]]].
Qed.

Lemma outside_false b lo hi : outside b lo hi = false ↔ lo ≤ b ≤ hi.
Proof. unfold outside. rewrite orb_false_iff, !Z.ltb_ge. lia. Qed.

Lemma decode_ascii c t :
  utf8.byte c < 0x80 →
  utf8.DecodeRuneInString (String c t) = (utf8.byte c, 1%nat).
Proof.
  intros Hc. apply decode_one.
  destruct (first_cases (utf8.byte c) (byte_range c))
    as [[? ?]|[[? ?]|[[? ?]|[[? ?]|[[? ?]|[[? ?]|[[? ?]|[[? ?]|[? ?]]]]]]]]];
    first [done|lia].
Qed.

(** An encoding decodes to its rune, whatever follows it. *)
Lemma decode_encodes bs r t :
  encodes bs r →
  utf8.DecodeRuneInString (bs +:+ t) = (r, String.length bs).
Proof.
  destruct 1 as [c Hc|c0 c1 H0 H1|c0 c1 c2 H0 H1 Hlo Hhi H2
                 |c0 c1 c2 c3 H0 H1 Hlo Hhi H2 H3];
    rewrite ?string_app_cons, string_app_nil_l.
  - by apply decode_ascii.
  - rewrite decode_two.
    2:{ destruct (first_cases (utf8.byte c0) (byte_range c0))
          as [[? ?]|[[? ?]|[[? ?]|[[? ?]|[[? ?]|[[? ?]|[[? ?]|[[? ?]|[? ?]]]]]]]]];
          first [done|lia]. }
    rewrite (proj2 (outside_false _ _ _)) by lia.
    rewrite value2 by lia. done.
  - destruct (first_cases (utf8.byte c0) (byte_range c0))
      as [[? ?]|[[? ?]|[[? ?]|[[Hf ?]|[[Hf ?]|[[Hf ?]|[[? ?]|[[? ?]|[? ?]]]]]]]]];
      try lia.
    + rewrite (decode_three _ _ _ 0xA0 0xBF Hf) by auto.
      rewrite !(proj2 (outside_false _ _ _)) by lia.
      rewrite value3 by lia. done.
    + rewrite (decode_three _ _ _ 0x80 0xBF Hf) by auto.
      rewrite !(proj2 (outside_false _ _ _)) by lia.
      rewrite value3 by lia. done.
    + rewrite (decode_three _ _ _ 0x80 0x9F Hf) by auto.
      rewrite !(proj2 (outside_false _ _ _)) by lia.
      rewrite value3 by lia. done.
  - destruct (first_cases (utf8.byte c0) (byte_range c0))
      as [[? ?]|[[? ?]|[[? ?]|[[? ?]|[[? ?]|[[? ?]|[[Hf ?]|[[Hf ?]|[Hf ?]]]]]]]]];
      try lia.
    + rewrite (decode_four _ _ _ 0x90 0xBF Hf) by auto.
      rewrite !(proj2 (outside_false _ _ _)) by lia.
      rewrite value4 by lia. done.
    + rewrite (decode_four _ _ _ 0x80 0xBF Hf) by auto.
      rewrite !(proj2 (outside_false _ _ _)) by lia.
      rewrite value4 by lia. done.
    + rewrite (decode_four _ _ _ 0x80 0x8F Hf) by auto.
      rewrite !(proj2 (outside_false _ _ _)) by lia.
      rewrite value4 by lia. done.
Qed.

Ltac first_byte c H :=
  destruct (first_cases (utf8.byte c) (byte_range c))
    as [[H ?]|[[H ?]|[[H ?]|[[H ?]|[[H ?]|[[H ?]|[[H ?]|[[H ?]|[H ?]]]]]]]]].

Ltac decode_error :=
  intros [= <- <-]; left; split; [done|]; split; [done|lia].

Ltac decode_three_inv c0 c1 c2 t2 lo hi Hf :=
  rewrite (decode_three _ _ _ lo hi Hf) by auto;
  destruct (outside (utf8.byte c1) lo hi) eqn:Ho1; [decode_error|];
  destruct (outside (utf8.byte c2) 0x80 0xBF) eqn:Ho2; [decode_error|];
  apply outside_false in Ho1, Ho2; rewrite value3 by lia;
  intros [= <- <-]; right;
  exists (String c0 (String c1 (String c2 ""))), t2;
  split; [done|]; split; [constructor; lia|done].

Ltac decode_four_inv c0 c1 c2 c3 t3 lo hi Hf :=
  rewrite (decode_four _ _ _ lo hi Hf) by auto;
  destruct (outside (utf8.byte c1) lo hi) eqn:Ho1; [decode_error|];
  destruct (outside (utf8.byte c2) 0x80 0xBF) eqn:Ho2; [decode_error|];
  destruct (outside (utf8.byte c3) 0x80 0xBF) eqn:Ho3; [decode_error|];
  apply outside_false in Ho1, Ho2, Ho3; rewrite value4 by lia;
  intros [= <- <-]; right;
  exists (String c0 (String c1 (String c2 (String c3 "")))), t3;
  split; [done|]; split; [constructor; lia|done].

(** What [DecodeRuneInString] returns is [RuneError] with the width 1, or
    the rune of an encoding the text starts with. *)
Lemma decode_inv c0 t r n :
  utf8.DecodeRuneInString (String c0 t) = (r, n) →
  (r = utf8.RuneError ∧ n = 1%nat ∧ 0x80 ≤ utf8.byte c0)
  ∨ ∃ bs t', String c0 t = bs +:+ t' ∧ encodes bs r ∧ n = String.length bs.
Proof.
  first_byte c0 Hf.
  - rewrite decode_one by done. intros [= <- <-]. right.
    exists (String c0 ""), t. split; [done|]. split; [by constructor|done].
  - rewrite decode_xx by done. decode_error.
  - rewrite decode_two by done. destruct t as [|c1 t1]; [decode_error|].
    destruct (outside (utf8.byte c1) 0x80 0xBF) eqn:Ho; [decode_error|].
    apply outside_false in Ho. rewrite value2 by lia. intros [= <- <-].
    right. exists (String c0 (String c1 "")), t1. split; [done|].
    split; [constructor; lia|done].
  - destruct t as [|c1 [|c2 t2]];
      [rewrite (decode_three _ _ _ 0xA0 0xBF Hf) by auto; decode_error..|].
    decode_three_inv c0 c1 c2 t2 0xA0 0xBF Hf.
  - destruct t as [|c1 [|c2 t2]];
      [rewrite (decode_three _ _ _ 0x80 0xBF Hf) by auto; decode_error..|].
    decode_three_inv c0 c1 c2 t2 0x80 0xBF Hf.
  - destruct t as [|c1 [|c2 t2]];
      [rewrite (decode_three _ _ _ 0x80 0x9F Hf) by auto; decode_error..|].
    decode_three_inv c0 c1 c2 t2 0x80 0x9F Hf.
  - destruct t as [|c1 [|c2 [|c3 t3]]];
      [rewrite (decode_four _ _ _ 0x90 0xBF Hf) by auto; decode_error..|].
    decode_four_inv c0 c1 c2 c3 t3 0x90 0xBF Hf.
  - destruct t as [|c1 [|c2 [|c3 t3]]];
      [rewrite (decode_four _ _ _ 0x80 0xBF Hf) by auto; decode_error..|].
    decode_four_inv c0 c1 c2 c3 t3 0x80 0xBF Hf.
  - destruct t as [|c1 [|c2 [|c3 t3]]];
      [rewrite (decode_four _ _ _ 0x80 0x8F Hf) by auto; decode_error..|].
    decode_four_inv c0 c1 c2 c3 t3 0x80 0x8F Hf.
Qed.

Lemma encodes_ascii bs r :
  encodes bs r → r < 0x80 → ∃ c, bs = String c "" ∧ r = utf8.byte c.
Proof.
  destruct 1 as [c Hc|c0 c1 H0 H1|c0 c1 c2 H0 H1 Hlo Hhi H2
                 |c0 c1 c2 c3 H0 H1 Hlo Hhi H2 H3]; intros Hr;
    [by exists c|lia..].
Qed.

Lemma encodes_multi bs r :
  encodes bs r → 0x80 ≤ r → (2 ≤ String.length bs)%nat ∧ nonAscii bs.
Proof.
  destruct 1 as [c Hc|c0 c1 H0 H1|c0 c1 c2 H0 H1 Hlo Hhi H2
                 |c0 c1 c2 c3 H0 H1 Hlo Hhi H2 H3]; intros Hr; simpl;
    [lia|split; [lia|repeat split; lia]..].
Qed.

Lemma encodes_length bs r :
  encodes bs r → (1 ≤ String.length bs ≤ 4)%nat.
Proof. destruct 1; simpl; lia. Qed.

Lemma encodes_head bs r :
  encodes bs r →
  ∃ c bs', bs = String c bs' ∧ nonAscii bs'
           ∧ (utf8.byte c < 0x80 ↔ r < 0x80) ∧ 0 ≤ r.
Proof.
  destruct 1 as [c Hc|c0 c1 H0 H1|c0 c1 c2 H0 H1 Hlo Hhi H2
                 |c0 c1 c2 c3 H0 H1 Hlo Hhi H2 H3]; eexists _, _;
    (split; [reflexivity|]); simpl; (split; [repeat split; lia|]).
  - pose proof (byte_range c). lia.
  - lia.
  - lia.
  - lia.
Qed.

(** A rune has one encoding. *)
Lemma encodes_inj bs bs' r : encodes bs r → encodes bs' r → bs = bs'.
Proof.
  destruct 1 as [c Hc|c0 c1 H0 H1|c0 c1 c2 H0 H1 Hlo Hhi H2
                 |c0 c1 c2 c3 H0 H1 Hlo Hhi H2 H3];
    inversion 1 as [d Hd Hb Hr|d0 d1 G0 G1 Hb Hr|d0 d1 d2 G0 G1 Glo Ghi G2 Hb Hr
                    |d0 d1 d2 d3 G0 G1 Glo Ghi G2 G3 Hb Hr];
    try lia.
  - f_equal. apply byte_inj. lia.
  - assert (utf8.byte d0 = utf8.byte c0) as ->%byte_inj by lia.
    assert (utf8.byte d1 = utf8.byte c1) as ->%byte_inj by lia. done.
  - assert (utf8.byte d0 = utf8.byte c0) as ->%byte_inj by lia.
    assert (utf8.byte d1 = utf8.byte c1) as ->%byte_inj by lia.
    assert (utf8.byte d2 = utf8.byte c2) as ->%byte_inj by lia. done.
  - assert (utf8.byte d0 = utf8.byte c0) as ->%byte_inj by lia.
    assert (utf8.byte d1 = utf8.byte c1) as ->%byte_inj by lia.
    assert (utf8.byte d2 = utf8.byte c2) as ->%byte_inj by lia.
    assert (utf8.byte d3 = utf8.byte c3) as ->%byte_inj by lia. done.
Qed.

(** Only the three-byte encoding of [RuneError] gives [RuneError]. *)
Lemma encodes_RuneError bs :
  encodes bs utf8.RuneError → String.length bs = 3%nat.
Proof.
  inversion 1 as [d Hd Hb Hr|d0 d1 G0 G1 Hb Hr|d0 d1 d2 G0 G1 Glo Ghi G2 Hb Hr
                  |d0 d1 d2 d3 G0 G1 Glo Ghi G2 G3 Hb Hr];
    unfold utf8.RuneError in *; first [done|lia].
Qed.

End decoding.

(** ** The loops over a text *)

Lemma Drop_length n s :
  String.length (Strings.Drop n s) = String.length s - n.
Proof. revert s. induction n as [|n IH]; intros [|a s]; simpl; auto. Qed.

Lemma Drop_app n s t :
  n ≤ String.length s → Strings.Drop n (s +:+ t) = Strings.Drop n s +:+ t.
Proof.
  revert s. induction n as [|n IH]; intros [|a s] Hn; simpl in *;
    try done; try lia.
  apply IH. lia.
Qed.

Lemma decode_size c t r n :
  utf8.DecodeRuneInString (String c t) = (r, n) →
  1 ≤ n ≤ String.length (String c t).
Proof.
  intros [(_ & -> & _)|(bs & t' & Heq & Henc & ->)]%decode_inv.
  - simpl. lia.
  - rewrite Heq, string_length_app.
    pose proof (encodes_length _ _ Henc). lia.
Qed.

Lemma runesLoop_enough n : ∀ s,
  String.length s ≤ n → utf8.runesLoop n s = utf8.runesLoop (String.length s) s.
Proof.
  induction n as [n IH] using lt_wf_ind. intros [|c t] Hn; [by destruct n|].
  destruct n as [|n]; [simpl in Hn; lia|].
  cbn [String.length utf8.runesLoop].
  destruct (utf8.DecodeRuneInString (String c t)) as [r k] eqn:Hd.
  pose proof (decode_size _ _ _ _ Hd) as Hk. simpl in Hk, Hn.
  pose proof (Drop_length k (String c t)) as Hl. simpl in Hl.
  f_equal. rewrite (IH n), (IH (String.length t)); [done|lia..].
Qed.

Lemma runes_cons c t :
  utf8.runes (String c t)
  = (utf8.DecodeRuneInString (String c t)).1
    :: utf8.runes (Strings.Drop (utf8.DecodeRuneInString (String c t)).2
                     (String c t)).
Proof.
  unfold utf8.runes. cbn [String.length utf8.runesLoop].
  destruct (utf8.DecodeRuneInString (String c t)) as [r k] eqn:Hd.
  pose proof (decode_size _ _ _ _ Hd) as Hk. simpl in Hk.
  pose proof (Drop_length k (String c t)) as Hl. simpl in Hl.
  cbn [fst snd]. f_equal. apply runesLoop_enough. lia.
Qed.

Lemma checkLoop_enough n : ∀ s,
  String.length s ≤ n →
  Regexp.checkLoop n s = Regexp.checkLoop (String.length s) s.
Proof.
  induction n as [n IH] using lt_wf_ind. intros [|c t] Hn; [by destruct n|].
  destruct n as [|n]; [simpl in Hn; lia|].
  cbn [String.length Regexp.checkLoop].
  destruct (utf8.DecodeRuneInString (String c t)) as [r k] eqn:Hd.
  pose proof (decode_size _ _ _ _ Hd) as Hk. simpl in Hk, Hn.
  pose proof (Drop_length k (String c t)) as Hl. simpl in Hl.
  destruct (_ && _); [done|].
  rewrite (IH n), (IH (String.length t)); [done|lia..].
Qed.

Lemma checkUTF8_cons c t :
  Regexp.checkUTF8 (String c t)
  = let '(r, k) := utf8.DecodeRuneInString (String c t) in
    if (r =? utf8.RuneError)%Z && (k =? 1)
    then false else Regexp.checkUTF8 (Strings.Drop k (String c t)).
Proof.
  unfold Regexp.checkUTF8. cbn [String.length Regexp.checkLoop].
  destruct (utf8.DecodeRuneInString (String c t)) as [r k] eqn:Hd.
  pose proof (decode_size _ _ _ _ Hd) as Hk. simpl in Hk.
  pose proof (Drop_length k (String c t)) as Hl. simpl in Hl.
  destruct (_ && _); [done|]. apply checkLoop_enough. lia.
Qed.

Lemma encodes_cons bs r : encodes bs r → ∃ c bs', bs = String c bs'.
Proof. destruct 1; eauto. Qed.

(** A text that starts with an encoding. *)
Lemma runes_encodes bs r t :
  encodes bs r → utf8.runes (bs +:+ t) = r :: utf8.runes t.
Proof.
  intros Henc. destruct (encodes_cons _ _ Henc) as (c & bs' & ->).
  rewrite string_app_cons, runes_cons, <- string_app_cons.
  rewrite (decode_encodes _ _ t Henc). cbn [fst snd].
  by rewrite Drop_app_length.
Qed.

Lemma checkUTF8_encodes bs r t :
  encodes bs r → Regexp.checkUTF8 (bs +:+ t) = Regexp.checkUTF8 t.
Proof.
  intros Henc. destruct (encodes_cons _ _ Henc) as (c & bs' & ->).
  rewrite string_app_cons, checkUTF8_cons, <- string_app_cons.
  rewrite (decode_encodes _ _ t Henc), Drop_app_length.
  destruct (Z.eqb_spec r utf8.RuneError) as [->|]; [|done].
  by rewrite (encodes_RuneError _ Henc).
Qed.

Lemma runes_ascii c t :
  (utf8.byte c < 0x80)%Z → utf8.runes (String c t) = utf8.byte c :: utf8.runes t.
Proof. intros Hc. apply (runes_encodes (String c "")). by constructor. Qed.

Lemma checkUTF8_ascii c t :
  (utf8.byte c < 0x80)%Z → Regexp.checkUTF8 (String c t) = Regexp.checkUTF8 t.
Proof. intros Hc. apply (checkUTF8_encodes (String c "") (utf8.byte c)). by constructor. Qed.

(** A valid text that is not empty starts with an encoding, and the rest
    is valid. *)
Lemma checkUTF8_inv c t :
  Regexp.checkUTF8 (String c t) = true →
  ∃ bs r t',
    String c t = bs +:+ t' ∧ encodes bs r ∧ Regexp.checkUTF8 t' = true.
Proof.
  rewrite checkUTF8_cons.
  destruct (utf8.DecodeRuneInString (String c t)) as [r k] eqn:Hd.
  apply decode_inv in Hd as [(-> & -> & _)|(bs & t' & Heq & Henc & ->)];
    [done|].
  destruct (_ && _); [done|]. rewrite Heq, Drop_app_length.
  intros Hv. by exists bs, r, t'.
Qed.

Lemma valid_ind (P : string → Prop) :
  P "" →
  (∀ bs r s, encodes bs r → Regexp.checkUTF8 s = true → P s → P (bs +:+ s)) →
  ∀ s, Regexp.checkUTF8 s = true → P s.
Proof.
  intros H0 Hstep s.
  assert (Hn : ∀ n s, String.length s ≤ n → Regexp.checkUTF8 s = true → P s).
  { clear s. induction n as [|n IH]; intros [|c t] Hlen Hv; simpl in *;
      [done|lia|done|].
    apply checkUTF8_inv in Hv as (bs & r & t' & Heq & Henc & Hv).
    rewrite Heq. apply (Hstep _ r); [done..|]. apply IH; [|done].
    apply (f_equal String.length) in Heq.
    rewrite string_length_app in Heq. simpl in Heq.
    pose proof (encodes_length _ _ Henc). lia. }
  by apply (Hn (String.length s)).
Qed.

(** The runes of a text that follows a valid text. *)
Lemma runes_app s t :
  Regexp.checkUTF8 s = true → utf8.runes (s +:+ t) = utf8.runes s ++ utf8.runes t.
Proof.
  revert s. apply valid_ind; [done|]. intros bs r s Henc Hv IH.
  by rewrite string_app_assoc, !(runes_encodes _ _ _ Henc), IH.
Qed.

Lemma string_app_eq_app s : ∀ t bs r,
  s +:+ t = bs +:+ r →
  (∃ u, s = bs +:+ u ∧ r = u +:+ t)
  ∨ (∃ c u, bs = s +:+ String c u ∧ t = String c u +:+ r).
Proof.
  induction s as [|a s IH]; intros t bs r Heq.
  - rewrite string_app_nil_l in Heq. destruct bs as [|c u].
    + left. exists "". by rewrite string_app_nil_l in Heq.
    + right. by exists c, u.
  - destruct bs as [|c bs].
    + left. exists (String a s). by rewrite string_app_nil_l in *.
    + rewrite !string_app_cons in Heq. injection Heq as -> Heq.
      destruct (IH _ _ _ Heq) as [(u & -> & ->)|(c' & u & -> & ->)].
      * left. by exists u.
      * right. by exists c', u.
Qed.

Lemma nonAscii_app s u : nonAscii (s +:+ u) ↔ nonAscii s ∧ nonAscii u.
Proof.
  induction s as [|a s IH].
  - rewrite string_app_nil_l. simpl. tauto.
  - rewrite string_app_cons. simpl. tauto.
Qed.

(** An encoding does not run over an ASCII byte. *)
Lemma encodes_not_across s c u bs r :
  s ≠ "" → (utf8.byte c < 0x80)%Z → bs = s +:+ String c u → ¬ encodes bs r.
Proof.
  intros Hs Hc -> Henc.
  destruct (encodes_head _ _ Henc) as (c0 & bs' & Heq & Hna & _).
  destruct s as [|a s]; [done|]. rewrite string_app_cons in Heq.
  injection Heq as -> <-. apply nonAscii_app in Hna as [_ [Hna _]]. lia.
Qed.

Lemma checkUTF8_app_valid s t :
  Regexp.checkUTF8 s = true →
  Regexp.checkUTF8 (s +:+ t) = Regexp.checkUTF8 t.
Proof.
  revert s. apply valid_ind; [done|]. intros bs r s Henc Hv IH.
  by rewrite string_app_assoc, (checkUTF8_encodes _ _ _ Henc).
Qed.

Lemma checkUTF8_app_inv s t :
  asciiHead t → Regexp.checkUTF8 (s +:+ t) = true →
  Regexp.checkUTF8 s = true.
Proof.
  intros Ht.
  assert (Hn : ∀ n s, String.length s ≤ n →
                      Regexp.checkUTF8 (s +:+ t) = true →
                      Regexp.checkUTF8 s = true).
  { clear s. induction n as [|n IH]; intros [|a s] Hlen Hv; simpl in *;
      [done|lia|done|].
    rewrite string_app_cons in Hv.
    apply checkUTF8_inv in Hv as (bs & r & t' & Heq & Henc & Hv).
    rewrite <- string_app_cons in Heq.
    apply string_app_eq_app in Heq as [(u & Hs & ->)|(c & u & Hbs & ->)].
    - rewrite Hs, (checkUTF8_encodes _ _ _ Henc). apply IH; [|done].
      apply (f_equal String.length) in Hs.
      rewrite string_length_app in Hs. simpl in Hs.
      pose proof (encodes_length _ _ Henc). lia.
    - destruct (encodes_not_across (String a s) c u bs r); done. }
  by apply (Hn (String.length s)).
Qed.

(** Validity of a text that is followed by an ASCII byte or by nothing. *)
Lemma checkUTF8_app_ascii s t :
  asciiHead t →
  Regexp.checkUTF8 (s +:+ t) = Regexp.checkUTF8 s && Regexp.checkUTF8 t.
Proof.
  intros Ht. destruct (Regexp.checkUTF8 s) eqn:Hs.
  - by rewrite checkUTF8_app_valid.
  - destruct (Regexp.checkUTF8 (s +:+ t)) eqn:Hst; [|done].
    apply checkUTF8_app_inv in Hst; [congruence|done].
Qed.

(** ** The expression is valid when the pattern is *)

Lemma special_ascii c : Regexp.special c = true → (utf8.byte c < 0x80)%Z.
Proof.
  destruct c as [[] [] [] [] [] [] [] []]; intros H; try discriminate H;
    reflexivity.
Qed.

Lemma checkUTF8_emit_ascii c X :
  (utf8.byte c < 0x80)%Z →
  asciiHead (emit (TByte c) +:+ X)
  ∧ Regexp.checkUTF8 (emit (TByte c) +:+ X) = Regexp.checkUTF8 X.
Proof.
  intros Hc. simpl. destruct (Regexp.special c).
  - rewrite !string_app_cons, string_app_nil_l. split; [done|].
    by rewrite !checkUTF8_ascii.
  - rewrite string_app_cons, string_app_nil_l. split; [done|].
    by rewrite checkUTF8_ascii.
Qed.

Lemma checkUTF8_emitAll_prefix p : ∀ N,
  nonAscii N →
  Regexp.checkUTF8 (N +:+ emitAll (tokens p)) = Regexp.checkUTF8 (N +:+ p).
Proof.
  induction p as [|p IH|c p Hno IH] using tokens_induction; intros N HN.
  - done.
  - pose proof (IH "" I) as IH0. rewrite !string_app_nil_l in IH0.
    rewrite tokens_dots. cbn [emitAll emit].
    rewrite !(checkUTF8_app_ascii N) by done.
    rewrite !string_app_cons, string_app_nil_l, !checkUTF8_ascii by done.
    by rewrite IH0.
  - rewrite tokens_byte by done. cbn [emitAll].
    destruct (decide (utf8.byte c < 0x80)%Z) as [Hc|Hc].
    + pose proof (IH "" I) as IH0. rewrite !string_app_nil_l in IH0.
      destruct (checkUTF8_emit_ascii c (emitAll (tokens p)) Hc) as [Ha Hv].
      rewrite !(checkUTF8_app_ascii N) by done.
      by rewrite Hv, checkUTF8_ascii, IH0.
    + assert (Regexp.special c = false) as Hs.
      { destruct (Regexp.special c) eqn:Hs; [|done].
        apply special_ascii in Hs. lia. }
      cbn [emit]. rewrite Hs, string_app_cons, string_app_nil_l.
      change (String c ?x) with (String c "" +:+ x).
      rewrite <- !string_app_assoc. apply IH.
      apply nonAscii_app. split; [done|]. simpl. split; [lia|done].
Qed.

Lemma checkUTF8_emitAll p :
  Regexp.checkUTF8 (emitAll (tokens p)) = Regexp.checkUTF8 p.
Proof. apply (checkUTF8_emitAll_prefix p ""). done. Qed.

(** ** Parsing the expression of a pattern *)

Lemma asciiOf_byte c :
  (utf8.byte c < 0x80)%Z → Regexp.asciiOf (utf8.byte c) = Some c.
Proof.
  intros Hc. unfold Regexp.asciiOf. pose proof (byte_range c).
  rewrite (proj2 (Z.leb_le _ _)), (proj2 (Z.ltb_lt _ _)) by lia.
  unfold utf8.byte. by rewrite N2Z.id, ascii_N_embedding.
Qed.

Lemma asciiOf_high r : (0x80 ≤ r)%Z → Regexp.asciiOf r = None.
Proof.
  intros Hr. unfold Regexp.asciiOf.
  rewrite (proj2 (Z.ltb_ge _ _)) by lia. by rewrite andb_false_r.
Qed.

Lemma parse_literal c s stack cur rep :
  Regexp.special c = false → (utf8.byte c < 0x80)%Z →
  Regexp.parse (utf8.byte c :: s) stack cur rep
  = Regexp.parse s stack (Regexp.Lit (utf8.byte c) :: cur) false.
Proof.
  intros H Hc. cbn [Regexp.parse]. rewrite asciiOf_byte by done.
  destruct c as [[] [] [] [] [] [] [] []]; try discriminate H; reflexivity.
Qed.

Lemma parse_literal_high r s stack cur rep :
  (0x80 ≤ r)%Z →
  Regexp.parse (r :: s) stack cur rep
  = Regexp.parse s stack (Regexp.Lit r :: cur) false.
Proof. intros Hr. cbn [Regexp.parse]. by rewrite asciiOf_high. Qed.

Lemma parse_escaped c s stack cur rep :
  Regexp.special c = true →
  Regexp.parse (ch "\" :: utf8.byte c :: s) stack cur rep
  = Regexp.parse s stack (Regexp.Lit (utf8.byte c) :: cur) false.
Proof.
  intros H. cbn [Regexp.parse].
  change (Regexp.asciiOf (ch "\")) with (Some "\"%char). cbv iota.
  by rewrite asciiOf_byte, H by by apply special_ascii.
Qed.

Lemma parse_dots s stack cur rep :
  Regexp.parse (ch "." :: ch "*" :: s) stack cur rep
  = Regexp.parse s stack (Regexp.Star Regexp.AnyCharNotNL :: cur) true.
Proof. reflexivity. Qed.

Lemma rtokens_dots Y :
  rtokens (ch "." :: ch "." :: ch "." :: Y) = RDots :: rtokens Y.
Proof. reflexivity. Qed.

Lemma rtokens_lit c Y :
  ¬ (c = ch "." ∧ ∃ Y', Y = ch "." :: ch "." :: Y') →
  rtokens (c :: Y) = RLit c :: rtokens Y.
Proof.
  intros H. cbn [rtokens]. destruct Y as [|c1 [|c2 Y']]; [done..|].
  case_bool_decide as Hd; [|done].
  destruct Hd as (-> & -> & ->). destruct H. eauto.
Qed.

Lemma runes_head_inv p r Y :
  utf8.runes p = r :: Y → (r < 0x80)%Z →
  ∃ c p', p = String c p' ∧ r = utf8.byte c ∧ Y = utf8.runes p'.
Proof.
  destruct p as [|c0 t]; [done|]. rewrite runes_cons.
  destruct (utf8.DecodeRuneInString (String c0 t)) as [r' k] eqn:Hd.
  cbn [fst snd]. intros [= -> <-] Hr.
  apply decode_inv in Hd as [(-> & _)|(bs & t' & Heq & Henc & ->)];
    [unfold utf8.RuneError in Hr; lia|].
  destruct (encodes_ascii _ _ Henc Hr) as (c & -> & ->).
  rewrite string_app_cons, string_app_nil_l in Heq. injection Heq as -> ->.
  by exists c, t'.
Qed.

Lemma runes_two_dots p Y :
  utf8.runes p = ch "." :: ch "." :: Y →
  ∃ p'', p = String "." (String "." p'').
Proof.
  intros H. apply runes_head_inv in H as (c & p' & -> & Hc & H); [|done].
  symmetry in H. apply runes_head_inv in H as (c' & p'' & -> & Hc' & H); [|done].
  apply (byte_inj ".") in Hc as <-. apply (byte_inj ".") in Hc' as <-. eauto.
Qed.

(** Induction over a valid pattern, token by token. *)
Lemma valid_tokens_ind (P : string → Prop) :
  P "" →
  (∀ p, Regexp.checkUTF8 p = true → P p → P ("..." +:+ p)) →
  (∀ bs r p,
     encodes bs r →
     ¬ (bs = "." ∧ ∃ p'', p = String "." (String "." p'')) →
     Regexp.checkUTF8 p = true → P p → P (bs +:+ p)) →
  ∀ p, Regexp.checkUTF8 p = true → P p.
Proof.
  intros H0 Hd Hb p.
  assert (Hn : ∀ n p, String.length p ≤ n → Regexp.checkUTF8 p = true → P p).
  { clear p. induction n as [|n IH]; intros [|c t] Hlen Hv; simpl in *;
      [done|lia|done|].
    apply checkUTF8_inv in Hv as (bs & r & t' & Heq & Henc & Hv).
    assert (String.length t' ≤ n) as Hlen'.
    { apply (f_equal String.length) in Heq.
      rewrite string_length_app in Heq. simpl in Heq.
      pose proof (encodes_length _ _ Henc). lia. }
    rewrite Heq.
    destruct (decide (bs = ".")) as [->|Hne].
    - destruct (two_dots_dec t') as [[p'' ->]|Hno].
      + rewrite !checkUTF8_ascii in Hv by done.
        apply (Hd p''); [done|]. apply IH; [simpl in Hlen'; lia|done].
      + apply (Hb _ r); [done|by intros [_ ?]|done|]. by apply IH.
    - apply (Hb _ r); [done|by intros [? _]|done|]. by apply IH. }
  by apply (Hn (String.length p)).
Qed.

Lemma tokens_nonAscii bs p :
  nonAscii bs →
  tokens (bs +:+ p) = map TByte (String.list_ascii_of_string bs) ++ tokens p.
Proof.
  induction bs as [|c bs IH]; [done|]. intros [Hc Hbs].
  rewrite string_app_cons, tokens_byte; [simpl; by rewrite IH|].
  intros [-> _]. done.
Qed.

Lemma emitAll_nonAscii bs ts :
  nonAscii bs →
  emitAll (map TByte (String.list_ascii_of_string bs) ++ ts) = bs +:+ emitAll ts.
Proof.
  induction bs as [|c bs IH]; [done|]. intros [Hc Hbs]. simpl.
  destruct (Regexp.special c) eqn:Hs; [apply special_ascii in Hs; lia|].
  by rewrite IH, !string_app_cons, string_app_nil_l.
Qed.

(** The expression of one encoded rune of the pattern. *)
Lemma parse_encodes bs r p rest stack cur rep :
  encodes bs r →
  ¬ (bs = "." ∧ ∃ p'', p = String "." (String "." p'')) →
  ∃ X,
    emitAll (tokens (bs +:+ p)) = X +:+ emitAll (tokens p)
    ∧ (∀ Y, utf8.runes (X +:+ Y) = utf8.runes X ++ utf8.runes Y)
    ∧ Regexp.parse (utf8.runes X ++ rest) stack cur rep
      = Regexp.parse rest stack (Regexp.Lit r :: cur) false.
Proof.
  intros Henc Hno.
  destruct (decide (r < 0x80)%Z) as [Hr|Hr].
  - destruct (encodes_ascii _ _ Henc Hr) as (c & -> & ->).
    rewrite string_app_cons, string_app_nil_l, tokens_byte.
    2:{ intros [-> ?]. by apply Hno. }
    exists (emit (TByte c)). split; [done|]. simpl.
    destruct (Regexp.special c) eqn:Hs.
    + split.
      * intros Y. rewrite !string_app_cons, string_app_nil_l.
        by rewrite !runes_ascii.
      * rewrite !runes_ascii by done. by apply parse_escaped.
    + split.
      * intros Y. rewrite !string_app_cons, string_app_nil_l.
        by rewrite !runes_ascii.
      * rewrite !runes_ascii by done. by apply parse_literal.
  - destruct (encodes_multi _ _ Henc) as [_ Hna]; [lia|].
    rewrite tokens_nonAscii, emitAll_nonAscii by done.
    exists bs. split; [done|].
    pose proof (runes_encodes bs r "" Henc) as Hbs.
    rewrite string_app_nil_r in Hbs. split.
    + intros Y. by rewrite Hbs, (runes_encodes _ _ _ Henc).
    + rewrite Hbs. apply parse_literal_high. lia.
Qed.

Lemma rtokens_encodes bs r p :
  encodes bs r →
  ¬ (bs = "." ∧ ∃ p'', p = String "." (String "." p'')) →
  rtokens (utf8.runes (bs +:+ p)) = RLit r :: rtokens (utf8.runes p).
Proof.
  intros Henc Hno. rewrite (runes_encodes _ _ _ Henc).
  apply rtokens_lit. intros [-> [Y' HY]].
  apply runes_two_dots in HY. apply Hno. split; [|done].
  destruct (encodes_ascii _ _ Henc) as (c & -> & Hc); [done|].
  by apply (byte_inj ".") in Hc as <-.
Qed.

Lemma parse_emitAll p :
  Regexp.checkUTF8 p = true →
  ∀ rest stack cur rep,
  ∃ rep',
    Regexp.parse (utf8.runes (emitAll (tokens p)) ++ rest) stack cur rep
    = Regexp.parse rest stack
        (rev (map tokenRe (rtokens (utf8.runes p))) ++ cur) rep'.
Proof.
  revert p.
  apply (valid_tokens_ind
           (λ p, ∀ rest stack cur rep,
              ∃ rep',
                Regexp.parse (utf8.runes (emitAll (tokens p)) ++ rest)
                  stack cur rep
                = Regexp.parse rest stack
                    (rev (map tokenRe (rtokens (utf8.runes p))) ++ cur) rep')).
  - intros rest stack cur rep. by exists rep.
  - intros p Hv IH rest stack cur rep.
    change ("..." +:+ p) with (String "." (String "." (String "." p))).
    rewrite tokens_dots. cbn [emitAll emit].
    rewrite !string_app_cons, string_app_nil_l, !runes_ascii by done.
    simpl app. rewrite parse_dots.
    destruct (IH rest stack (Regexp.Star Regexp.AnyCharNotNL :: cur) true)
      as [rep' ->].
    exists rep'. by rewrite <- app_assoc.
  - intros bs r p Henc Hno Hv IH rest stack cur rep.
    destruct (parse_encodes bs r p
                (utf8.runes (emitAll (tokens p)) ++ rest) stack cur rep Henc Hno)
      as (X & -> & HX & Hp).
    rewrite HX, <- app_assoc, Hp.
    destruct (IH rest stack (Regexp.Lit r :: cur) false) as [rep' ->].
    exists rep'. rewrite (rtokens_encodes _ _ _ Henc Hno). simpl.
    by rewrite <- app_assoc.
Qed.

Lemma checkUTF8_anchored re :
  Regexp.checkUTF8 ("^" +:+ re +:+ "$") = Regexp.checkUTF8 re.
Proof.
  rewrite string_app_cons, string_app_nil_l, checkUTF8_ascii by done.
  rewrite checkUTF8_app_ascii by done. apply andb_true_r.
Qed.

Lemma Compile_anchored re :
  Regexp.checkUTF8 re = true →
  Regexp.Compile ("^" +:+ re +:+ "$")
  = Regexp.parse (utf8.runes re ++ [ch "$"]) [] [Regexp.BeginText] false.
Proof.
  intros Hv. unfold Regexp.Compile. rewrite checkUTF8_anchored, Hv.
  rewrite string_app_cons, string_app_nil_l, runes_ascii by done.
  by rewrite runes_app.
Qed.

Lemma Compile_tokens p :
  Regexp.checkUTF8 p = true →
  Regexp.Compile ("^" +:+ emitAll (tokens p) +:+ "$")
  = Some (Regexp.seq (Regexp.BeginText
                      :: map tokenRe (rtokens (utf8.runes p))
                         ++ [Regexp.EndText])).
Proof.
  intros Hv. rewrite Compile_anchored by (done || by rewrite checkUTF8_emitAll).
  destruct (parse_emitAll p Hv [ch "$"] [] [Regexp.BeginText] false)
    as [rep ->].
  cbn [Regexp.parse]. change (Regexp.asciiOf (ch "$")) with (Some "$"%char).
  cbv iota. f_equal. f_equal.
  rewrite <- (rev_involutive
                (Regexp.BeginText
                 :: map tokenRe (rtokens (utf8.runes p)) ++ [Regexp.EndText])).
  f_equal. simpl. by rewrite rev_app_distr.
Qed.

Lemma Compile_slashDots p :
  Regexp.checkUTF8 p = true →
  Regexp.Compile ("^" +:+ (emitAll (tokens p) +:+ "(/.*)?") +:+ "$")
  = Some (Regexp.seq (Regexp.BeginText
                      :: map tokenRe (rtokens (utf8.runes p))
                         ++ [slashDots; Regexp.EndText])).
Proof.
  intros Hv.
  assert (Hv' : Regexp.checkUTF8 (emitAll (tokens p)) = true)
    by by rewrite checkUTF8_emitAll.
  rewrite Compile_anchored by (done || by rewrite checkUTF8_app_valid).
  rewrite runes_app, <- app_assoc by done.
  destruct (parse_emitAll p Hv (utf8.runes "(/.*)?" ++ [ch "$"]) []
              [Regexp.BeginText] false) as [rep ->].
  change (utf8.runes "(/.*)?" ++ [ch "$"])
    with [ch "("; ch "/"; ch "."; ch "*"; ch ")"; ch "?"; ch "$"].
  change (Regexp.parse [ch "("; ch "/"; ch "."; ch "*"; ch ")"; ch "?"; ch "$"]
            [] (rev (map tokenRe (rtokens (utf8.runes p))) ++ [Regexp.BeginText])
            rep)
    with (Some (Regexp.seq
                  (rev (Regexp.EndText :: slashDots
                        :: rev (map tokenRe (rtokens (utf8.runes p)))
                           ++ [Regexp.BeginText])))).
  f_equal. f_equal. simpl. rewrite !rev_app_distr, rev_involutive. simpl.
  by rewrite <- !app_assoc.
Qed.

(** ** From the pattern to the compiled expression *)

(** The expression [matchPattern] hands to [regexp.MustCompile]. *)
Lemma matchPattern_unfold pattern :
  matchPattern pattern
  = match Regexp.Compile
            ("^" +:+ (if Strings.HasSuffix (emitAll (tokens pattern)) "/.*"
                      then Strings.Take (String.length (emitAll (tokens pattern))
                                         - String.length "/.*")
                             (emitAll (tokens pattern)) +:+ "(/.*)?"
                      else emitAll (tokens pattern)) +:+ "$") with
    | None => None
    | Some reg => Some (λ name, Regexp.MatchString reg name)
    end.
Proof. unfold matchPattern. by rewrite quote_replace. Qed.

(** A pattern that is not valid UTF-8 makes [regexp.MustCompile] panic. *)
Lemma matchPattern_invalid pattern :
  Regexp.checkUTF8 pattern = false → matchPattern pattern = None.
Proof.
  intros Hv. rewrite matchPattern_unfold. unfold Regexp.Compile.
  rewrite checkUTF8_anchored.
  destruct (Strings.HasSuffix (emitAll (tokens pattern)) "/.*") eqn:Hs.
  - destruct (emitAll_suffix _ Hs) as [ts' Hts].
    rewrite <- checkUTF8_emitAll, Hts, emitAll_app in Hv.
    change (emitAll [TByte "/"; TDots]) with "/.*" in Hv.
    rewrite checkUTF8_app_ascii, andb_true_r in Hv by done.
    rewrite Hts, emitAll_app.
    change (emitAll [TByte "/"; TDots]) with "/.*".
    rewrite string_length_app.
    replace (String.length (emitAll ts') + String.length "/.*" - String.length "/.*")
      with (String.length (emitAll ts')) by lia.
    rewrite Take_app_length, checkUTF8_app_ascii, Hv by done. done.
  - by rewrite checkUTF8_emitAll, Hv.
Qed.

(** The expression [matchPattern] compiles for a valid pattern, by the
    shape of the pattern. *)
Lemma matchPattern_compiled pattern :
  Regexp.checkUTF8 pattern = true →
  (∃ p',
     pattern = p' +:+ "/..." ∧ Regexp.checkUTF8 p' = true
     ∧ matchPattern pattern
       = Some (λ name,
                 Regexp.MatchString
                   (Regexp.seq (Regexp.BeginText
                                :: map tokenRe (rtokens (utf8.runes p'))
                                   ++ [slashDots; Regexp.EndText]))
                   name))
  ∨ ((∀ p', pattern ≠ p' +:+ "/...")
     ∧ matchPattern pattern
       = Some (λ name,
                 Regexp.MatchString
                   (Regexp.seq (Regexp.BeginText
                                :: map tokenRe (rtokens (utf8.runes pattern))
                                   ++ [Regexp.EndText]))
                   name)).
Proof.
  intros Hv. rewrite matchPattern_unfold.
  destruct (Strings.HasSuffix (emitAll (tokens pattern)) "/.*") eqn:Hs.
  - left. destruct (emitAll_suffix _ Hs) as [ts' Hts].
    destruct (tokens_slashDots_suffix pattern ts' Hts) as [Hp Hts'].
    assert (Hv' : Regexp.checkUTF8 (untokens ts') = true).
    { rewrite Hp, checkUTF8_app_ascii in Hv by done.
      by apply andb_true_iff in Hv as [? _]. }
    exists (untokens ts'). split; [done|]. split; [done|].
    rewrite Hts, emitAll_app.
    change (emitAll [TByte "/"; TDots]) with "/.*".
    rewrite string_length_app.
    replace (String.length (emitAll ts') + String.length "/.*" - String.length "/.*")
      with (String.length (emitAll ts')) by lia.
    rewrite Take_app_length, <- Hts', Compile_slashDots, untokens_tokens by done.
    done.
  - right. split.
    + intros p' ->. change "/..." with (String "/" "...") in Hs.
      rewrite tokens_slash, emitAll_app in Hs.
      change (emitAll (TByte "/" :: tokens "...")) with "/.*" in Hs.
      assert (Strings.HasSuffix (emitAll (tokens p') +:+ "/.*") "/.*" = true)
        by (apply HasSuffix_spec; eauto).
      congruence.
    + by rewrite Compile_tokens.
Qed.

(** [matchPattern] returns a predicate exactly for the patterns that are
    valid UTF-8. *)
Lemma matchPattern_is_Some pattern :
  is_Some (matchPattern pattern) ↔ Regexp.checkUTF8 pattern = true.
Proof.
  split.
  - intros [f Hf]. destruct (Regexp.checkUTF8 pattern) eqn:Hv; [done|].
    by rewrite matchPattern_invalid in Hf.
  - intros Hv.
    destruct (matchPattern_compiled pattern Hv) as [(p' & _ & _ & ->)|[_ ->]];
      by eexists.
Qed.

(** ** Runes and bytes of valid texts *)

Lemma runes_nil_inv p : utf8.runes p = [] → p = "".
Proof. destruct p as [|c t]; [done|]. by rewrite runes_cons. Qed.

(** A valid text splits where its runes do. *)
Lemma runes_split q : ∀ p Y,
  Regexp.checkUTF8 p = true → utf8.runes p = q ++ Y →
  ∃ p1 p2,
    p = p1 +:+ p2 ∧ Regexp.checkUTF8 p1 = true ∧ Regexp.checkUTF8 p2 = true
    ∧ utf8.runes p1 = q ∧ utf8.runes p2 = Y.
Proof.
  induction q as [|r q IH]; intros p Y Hv Hr.
  - by exists "", p.
  - destruct p as [|c t]; [done|].
    apply checkUTF8_inv in Hv as (bs & r' & s & Heq & Henc & Hv).
    rewrite Heq, (runes_encodes _ _ _ Henc) in Hr. simpl in Hr.
    injection Hr as -> Hr.
    destruct (IH s Y Hv Hr) as (s1 & s2 & -> & Hv1 & Hv2 & H1 & H2).
    exists (bs +:+ s1), s2. rewrite Heq, string_app_assoc.
    split; [done|]. split; [by rewrite (checkUTF8_encodes _ _ _ Henc)|].
    split; [done|]. split; [|done].
    by rewrite (runes_encodes _ _ _ Henc), H1.
Qed.

(** Valid texts with the same runes are the same text. *)
Lemma runes_inj s t :
  Regexp.checkUTF8 s = true → Regexp.checkUTF8 t = true →
  utf8.runes s = utf8.runes t → s = t.
Proof.
  intros Hs. revert s Hs t.
  apply (valid_ind (λ s, ∀ t, Regexp.checkUTF8 t = true →
                              utf8.runes s = utf8.runes t → s = t)).
  - intros t _ Ht. symmetry. by apply runes_nil_inv.
  - intros bs r s Henc Hv IH t Ht Hr.
    rewrite (runes_encodes _ _ _ Henc) in Hr.
    destruct t as [|c t']; [done|].
    apply checkUTF8_inv in Ht as (bs' & r' & s' & Heq & Henc' & Hv').
    rewrite Heq, (runes_encodes _ _ _ Henc') in Hr. injection Hr as <- Hr.
    rewrite Heq, (encodes_inj _ _ _ Henc Henc'). f_equal. by apply IH.
Qed.

Lemma noNewline_app s1 s2 :
  noNewline (s1 +:+ s2) ↔ noNewline s1 ∧ noNewline s2.
Proof.
  induction s1 as [|c s1 IH].
  - rewrite string_app_nil_l. simpl. tauto.
  - rewrite string_app_cons. simpl. tauto.
Qed.

Lemma nonAscii_noNewline bs : nonAscii bs → noNewline bs.
Proof.
  induction bs as [|c bs IH]; [done|]. intros [Hc Hbs].
  split; [by intros ->|by apply IH].
Qed.

Lemma encodes_newline bs r : encodes bs r → r ≠ ch "010" ↔ noNewline bs.
Proof.
  intros Henc. destruct (decide (r < 0x80)%Z) as [Hr|Hr].
  - destruct (encodes_ascii _ _ Henc Hr) as (c & -> & ->). simpl. split.
    + intros Hc. split; [|done]. by intros ->.
    + intros [Hc _] Heq. by apply byte_inj in Heq.
  - destruct (encodes_multi _ _ Henc) as [_ Hna]; [lia|]. split.
    + intros _. by apply nonAscii_noNewline.
    + intros _. unfold ch. change (utf8.byte "010") with 10%Z. lia.
Qed.

(** In a valid text the newline rune stands where the newline byte does. *)
Lemma runes_noNewline s :
  Regexp.checkUTF8 s = true → noNewlineRune (utf8.runes s) ↔ noNewline s.
Proof.
  revert s. apply valid_ind; [split; [done|intros _; apply not_elem_of_nil]|].
  intros bs r s Henc Hv IH. unfold noNewlineRune in *.
  rewrite (runes_encodes _ _ _ Henc), not_elem_of_cons, noNewline_app, IH.
  rewrite <- (encodes_newline _ _ Henc). split; intros [? ?]; by split.
Qed.

(** ** What [matchPattern] accepts *)

Lemma rune_dots_dec (c : utf8.rune) (p : list utf8.rune) :
  (c = ch "." ∧ ∃ Y', p = ch "." :: ch "." :: Y')
  ∨ ¬ (c = ch "." ∧ ∃ Y', p = ch "." :: ch "." :: Y').
Proof.
  destruct (decide (c = ch ".")) as [->|Hc]; [|right; by intros [? _]].
  destruct p as [|c1 [|c2 Y']]; [right; by intros [_ [? ?]]..|].
  destruct (decide (c1 = ch ".")) as [->|H1];
    [|right; intros [_ [? [= ? ?]]]; done].
  destruct (decide (c2 = ch ".")) as [->|H2];
    [|right; intros [_ [? [= ? ?]]]; done].
  left. eauto.
Qed.

Lemma rtokens_slash p q :
  rtokens (p ++ ch "/" :: q) = rtokens p ++ RLit (ch "/") :: rtokens q.
Proof.
  assert (Hn : ∀ n p, length p ≤ n →
                      rtokens (p ++ ch "/" :: q)
                      = rtokens p ++ RLit (ch "/") :: rtokens q).
  { clear p. induction n as [|n IH]; intros p Hlen.
    - destruct p; [|simpl in Hlen; lia]. simpl.
      apply rtokens_lit. by intros [? _].
    - destruct p as [|c p]; [simpl; apply rtokens_lit; by intros [? _]|].
      simpl in Hlen.
      destruct (rune_dots_dec c p) as [[-> [Y' ->]]|Hno].
      + simpl app. rewrite !rtokens_dots. simpl. f_equal. apply IH.
        simpl in Hlen. lia.
      + rewrite (rtokens_lit c p) by done. simpl app.
        rewrite rtokens_lit; [simpl; f_equal; apply IH; lia|].
        intros [-> [Y' HY]]. apply Hno. split; [done|].
        destruct p as [|c1 [|c2 p2]]; simpl in HY; try done.
        injection HY as -> -> _. eauto. }
  by apply (Hn (length p)).
Qed.

(** The predicate of a valid pattern, on the runes of the name. *)
Lemma matchPattern_runes pattern :
  Regexp.checkUTF8 pattern = true →
  ∃ f,
    matchPattern pattern = Some f
    ∧ ∀ name,
        f name = true
        ↔ runeAccepts noNewlineRune (utf8.runes pattern) (utf8.runes name).
Proof.
  intros Hv.
  destruct (matchPattern_compiled pattern Hv)
    as [(p' & -> & Hv' & ->)|[Hno ->]].
  - eexists. split; [done|]. intros name. cbv beta.
    rewrite anchored_slashDots_match. unfold runeAccepts.
    rewrite (runes_app p') by done.
    change (utf8.runes "/...") with [ch "/"; ch "."; ch "."; ch "."].
    rewrite rtokens_slash. change (rtokens [ch "."; ch "."; ch "."]) with [RDots].
    split.
    + intros [H|H]; [right|by left]. by exists (utf8.runes p').
    + intros [H|(q & Hq & H)]; [by right|left].
      by apply (app_inv_tail [ch "/"; ch "."; ch "."; ch "."]) in Hq as ->.
  - eexists. split; [done|]. intros name. cbv beta.
    rewrite anchored_tokens_match. unfold runeAccepts. split; [by left|].
    intros [H|(q & Hq & H)]; [done|].
    apply runes_split in Hq as (p1 & p2 & -> & _ & Hv2 & _ & H2); [|done].
    apply runes_inj in H2 as ->; [|done..]. by destruct (Hno p1).
Qed.

(** ** Literal patterns and patterns for a subtree *)

Lemma rtokens_no_dots p :
  Regexp.checkUTF8 p = true →
  (∀ a b, p ≠ a +:+ "..." +:+ b) →
  rtokens (utf8.runes p) = RLit <$> utf8.runes p.
Proof.
  revert p.
  apply (valid_tokens_ind
           (λ p, (∀ a b, p ≠ a +:+ "..." +:+ b) →
                 rtokens (utf8.runes p) = RLit <$> utf8.runes p)).
  - done.
  - intros p _ _ Hno. by destruct (Hno "" p).
  - intros bs r p Henc Hnd Hv IH Hno.
    rewrite (rtokens_encodes _ _ _ Henc Hnd), (runes_encodes _ _ _ Henc).
    simpl. f_equal. apply IH. intros a b ->.
    apply (Hno (bs +:+ a) b). by rewrite string_app_assoc.
Qed.

Lemma rglob_literal any rs name :
  runeMatches any (RLit <$> rs) name ↔ name = rs.
Proof.
  revert name. induction rs as [|r rs IH]; intros name; simpl.
  - split; [by inversion 1|intros ->; constructor].
  - split.
    + inversion 1; subst. f_equal. by apply IH.
    + intros ->. constructor. by apply IH.
Qed.

Lemma rglob_slashDots any s :
  runeMatches any [RLit (ch "/"); RDots] s ↔ ∃ rest, s = ch "/" :: rest ∧ any rest.
Proof.
  split.
  - inversion 1 as [|c ts s' H'|]; subst.
    inversion H' as [| |ts s1 s3 Hany H'']; subst. inversion H''; subst.
    exists s1. by rewrite app_nil_r.
  - intros (rest & -> & Hrest). constructor.
    rewrite <- (app_nil_r rest). constructor; [done|constructor].
Qed.

Lemma string_app_inv_tail s1 s2 t : s1 +:+ t = s2 +:+ t → s1 = s2.
Proof.
  intros H. apply bytes_inj.
  apply (f_equal String.list_ascii_of_string) in H.
  rewrite !bytes_app in H. by apply app_inv_tail in H.
Qed.

(** What the predicate of a valid pattern without dots accepts. *)
Lemma literal_pattern pattern :
  Regexp.checkUTF8 pattern = true →
  (∀ a b, pattern ≠ a +:+ "..." +:+ b) →
  ∃ f,
    matchPattern pattern = Some f
    ∧ (∀ name, f name = true ↔ utf8.runes name = utf8.runes pattern)
    ∧ (∀ name, Regexp.checkUTF8 name = true →
               (f name = true ↔ name = pattern)).
Proof.
  intros Hv Hno.
  destruct (matchPattern_compiled pattern Hv) as [(p' & Hp & _)|[_ ->]].
  - destruct (Hno (p' +:+ "/") ""). by rewrite Hp, string_app_assoc.
  - eexists. split; [done|].
    assert (Hr : ∀ name,
              Regexp.MatchString
                (Regexp.seq (Regexp.BeginText
                             :: map tokenRe (rtokens (utf8.runes pattern))
                                ++ [Regexp.EndText])) name = true
              ↔ utf8.runes name = utf8.runes pattern).
    { intros name. by rewrite anchored_tokens_match, rtokens_no_dots, rglob_literal. }
    split; [done|]. intros name Hn. cbv beta. rewrite Hr. split.
    + by apply runes_inj.
    + by intros ->.
Qed.

(** What the predicate of a valid prefix followed by a slash and dots
    accepts. *)
Lemma subtree_of_prefix prefix :
  Regexp.checkUTF8 prefix = true →
  (∀ a b, prefix ≠ a +:+ "..." +:+ b) →
  ∃ f,
    matchPattern (prefix +:+ "/...") = Some f
    ∧ (∀ name,
         f name = true ↔
         utf8.runes name = utf8.runes prefix
         ∨ ∃ rest, utf8.runes name = utf8.runes prefix ++ ch "/" :: rest
                   ∧ noNewlineRune rest)
    ∧ (∀ name,
         Regexp.checkUTF8 name = true →
         (f name = true ↔
          name = prefix
          ∨ ∃ rest, name = prefix +:+ "/" +:+ rest ∧ noNewline rest)).
Proof.
  intros Hv Hno.
  assert (Hv' : Regexp.checkUTF8 (prefix +:+ "/...") = true)
    by by rewrite checkUTF8_app_valid.
  destruct (matchPattern_compiled _ Hv') as [(p' & Hp & _ & ->)|[Hnone _]];
    [|by destruct (Hnone prefix)].
  apply string_app_inv_tail in Hp as <-.
  eexists. split; [done|].
  assert (Hr : ∀ name,
            Regexp.MatchString
              (Regexp.seq (Regexp.BeginText
                           :: map tokenRe (rtokens (utf8.runes prefix))
                              ++ [slashDots; Regexp.EndText])) name = true
            ↔ utf8.runes name = utf8.runes prefix
              ∨ ∃ rest, utf8.runes name = utf8.runes prefix ++ ch "/" :: rest
                        ∧ noNewlineRune rest).
  { intros name.
    rewrite anchored_slashDots_match, rglob_app, rtokens_no_dots by done.
    rewrite rglob_literal. split.
    - intros [?|(s1 & s2 & Heq & ->%rglob_literal & (rest & -> & ?)%rglob_slashDots)];
        [by left|right; by exists rest].
    - intros [?|(rest & Heq & ?)]; [by left|right].
      exists (utf8.runes prefix), (ch "/" :: rest). split; [done|].
      split; [by apply rglob_literal|apply rglob_slashDots; by exists rest]. }
  split; [done|]. intros name Hn. cbv beta. rewrite Hr. split.
  - intros [H|(rest & Heq & Hrest)]; [left; by apply runes_inj|right].
    apply runes_split in Heq as (p1 & p2 & -> & Hv1 & Hv2 & H1 & H2); [|done].
    apply runes_inj in H1 as ->; [|done..].
    apply runes_head_inv in H2 as (c & p2' & -> & Hc & ->); [|done].
    apply (byte_inj "/") in Hc as <-.
    rewrite checkUTF8_ascii in Hv2 by done.
    exists p2'. split; [done|]. by apply runes_noNewline.
  - intros [->|(rest & -> & Hrest)]; [by left|right].
    rewrite checkUTF8_app_valid, string_app_cons, string_app_nil_l,
      checkUTF8_ascii in Hn by done.
    exists (utf8.runes rest).
    rewrite runes_app, string_app_cons, string_app_nil_l, runes_ascii by done.
    split; [done|]. by apply runes_noNewline.
Qed.

(** ** The three dots and the newline *)

(** C4 fails on the program.  The comment of [matchPattern] says that the
    three dots mean any string, and so does the claim; but the dots become
    a dot and a star in an expression that is compiled without the flag
    [s], and there the dot does not match a newline.  For the pattern
    [a...b] and the name made of [a], a newline and [b], the reading of the
    claim accepts the name and the program rejects it.  The four examples of
    the claim hold. *)
Theorem dots_reject_newline :
  accepts "a...b" (String "a" (String "010" "b")) = Some false
  ∧ globAccepts anyString "a...b" (String "a" (String "010" "b"))
  ∧ accepts "foo/..." "foo" = Some true
  ∧ accepts "foo/..." "foo/bar" = Some true
  ∧ accepts "foo/..." "foobar" = Some false
  ∧ accepts "a...b" "axyzb" = Some true.
Proof.
  split; [vm_compute; reflexivity|].
  split; [|repeat split; vm_compute; reflexivity].
  left. change (tokens "a...b") with [TByte "a"; TDots; TByte "b"].
  constructor.
  change (String "010" "b") with (String "010" "" +:+ "b").
  constructor; [done|]. constructor. constructor.
Qed.

(** ** The pattern of [-why] *)

(** A pattern that is not valid UTF-8 stops the program at line 81, in the
    panic of [regexp.MustCompile], before anything is resolved. *)
Lemma invalid_why_panics E fuel flags args cwd :
  Getwd E = Ok cwd → Regexp.checkUTF8 (why flags) = false →
  main E fuel flags args = Panic ∧ resolutions E fuel flags args = [].
Proof.
  intros Hwd Hwhy. unfold main, resolutions. rewrite Hwd.
  rewrite bool_decide_eq_true_2 by (by intros Heq; rewrite Heq in Hwhy).
  by rewrite (matchPattern_invalid _ Hwhy).
Qed.

Lemma invalid_why_example :
  main (exampleEnv chainTable []) 10 (whyFlags (String "255" ""))
    ["a.io/top"] = Panic.
Proof. vm_compute. reflexivity. Qed.

(** With a pattern that is valid UTF-8, line 81 leaves [whyMatch] set or
    nil and does not panic. *)
Lemma whyMatch_compiled flags :
  Regexp.checkUTF8 (why flags) = true →
  ∃ whyMatch,
    (if bool_decide (why flags ≠ "")
     then option_map Some (matchPattern (why flags))
     else Some None) = Some whyMatch.
Proof.
  intros Hv. destruct (bool_decide (why flags ≠ "")); [|by eexists].
  apply matchPattern_is_Some in Hv as [f ->]. by eexists.
Qed.

(** ** Files mode *)

(** C10 as stated fails: resolving [a.io/dep] when its files are to be
    listed gives an error, the error is dropped, and the file the returned
    package carries is printed all the same. *)
Lemma render_failure_counterexample :
  Import (exampleEnv appTable [brokenDep]) "a.io/dep" "/work" ImportAll
  = (brokenDep, Some "found packages a and b in /src/a.io/dep")
  ∧ main (exampleEnv appTable [brokenDep]) 10 filesFlags ["a.io/app"]
    = Output ["/src/a.io/app/app.go"; "/src/a.io/dep/a.go"].
Proof. split; vm_compute; reflexivity. Qed.

(** C10, amended: in files mode an error from resolving a key when its
    files are to be printed is dropped and the program does not stop: once
    the graph is built it always prints.  The key contributes one line for
    every file name of the package returned along with the error, and no
    line when that package lists no files.  The program gets as far as
    building the graph only when the pattern of [-why] has compiled, that
    is, when it is valid UTF-8; the empty pattern is. *)
Theorem render_ignores_resolution_error (E : Env) (fuel : nat) (flags : Flags)
    (args : list string) (cwd : string) (rootPkgs : gset string)
    (allPkgs : gmap string (list string)) :
  files flags = true →
  Regexp.checkUTF8 (why flags) = true →
  Getwd E = Ok cwd →
  resolveRoots E cwd
    (ImportPaths E (if bool_decide (length args = 0) then ["."] else args)) ∅
  = Ok rootPkgs →
  buildGraph E cwd (applyWhy flags) rootPkgs fuel
    (ImportPaths E (if bool_decide (length args = 0) then ["."] else args)) ∅
  = Some (Ok allPkgs) →
  main E fuel flags args
  = Output (flat_map (showEntry E cwd (applyWhy flags) rootPkgs allPkgs)
              (resultKeys E allPkgs))
  ∧ ∀ r pkg e,
      Import E r cwd ImportAll = (pkg, Some e) →
      showEntry E cwd (applyWhy flags) rootPkgs allPkgs r
      = showFiles E pkg (GoFiles pkg) ++ showFiles E pkg (CgoFiles pkg) ++
        (if bool_decide (ImportPath pkg ∈ rootPkgs) && negb (noTestDeps flags)
         then showFiles E pkg (TestGoFiles pkg) ++ showFiles E pkg (XTestGoFiles pkg)
         else [])
      ∧ (GoFiles pkg = [] → CgoFiles pkg = [] →
         TestGoFiles pkg = [] → XTestGoFiles pkg = [] →
         showEntry E cwd (applyWhy flags) rootPkgs allPkgs r = []).
Proof.
  intros Hf Hwhy Hwd Hroots Hbuild. split.
  - unfold main. rewrite Hwd.
    destruct (whyMatch_compiled flags Hwhy) as [whyMatch ->].
    rewrite Hroots, Hbuild. unfold prune. by rewrite applyWhy_files, Hf.
  - intros r pkg e Himp.
    assert (Heq : showEntry E cwd (applyWhy flags) rootPkgs allPkgs r
            = showFiles E pkg (GoFiles pkg) ++ showFiles E pkg (CgoFiles pkg) ++
              (if bool_decide (ImportPath pkg ∈ rootPkgs) && negb (noTestDeps flags)
               then showFiles E pkg (TestGoFiles pkg) ++ showFiles E pkg (XTestGoFiles pkg)
               else [])).
    { unfold showEntry. by rewrite applyWhy_files, Hf, Himp, applyWhy_noTestDeps. }
    split; [done|]. intros Hg Hc Ht Hx. rewrite Heq, Hg, Hc, Ht, Hx.
    by destruct (_ && _).
Qed.

Lemma render_ignores_resolution_error_witness :
  main (exampleEnv appTable [brokenDep]) 10 filesFlags ["a.io/app"]
  = Output (flat_map (showEntry (exampleEnv appTable [brokenDep]) "/work"
                        (applyWhy filesFlags) {["a.io/app"]}
                        (<["a.io/app" := []]> {["a.io/dep" := ["a.io/app"]]}))
              (resultKeys (exampleEnv appTable [brokenDep])
                 (<["a.io/app" := []]> {["a.io/dep" := ["a.io/app"]]}))).
Proof.
  apply (render_ignores_resolution_error (exampleEnv appTable [brokenDep]) 10
           filesFlags ["a.io/app"] "/work" {["a.io/app"]}
           (<["a.io/app" := []]> {["a.io/dep" := ["a.io/app"]]})).
  - reflexivity.
  - reflexivity.
  - reflexivity.
  - vm_compute. reflexivity.
  - vm_compute. reflexivity.
Defined.

(** ** Roots that are imported by other packages *)

(** C7 fails on the program: the entry that line 196 writes for a root is
    nil, and [alreadyDone] takes a nil entry for no entry.  With the roots
    [a.io/r1] and [a.io/r2], after [a.io/r1] has been processed it has an
    entry, yet the import of [a.io/r1] by [a.io/r2] processes it again: it
    is resolved a second time and its imports are enumerated again, so that
    [a.io/x] lists the importer [a.io/r1] twice. *)
Theorem root_entry_reprocessed :
  findImports (exampleEnv twoRootsTable []) "/work" allFlags
    {["a.io/r1"; "a.io/r2"]} 10 "a.io/r1" ∅
  = Some (<["a.io/r1" := []]> {["a.io/x" := ["a.io/r1"]]}, None)
  ∧ (<["a.io/r1" := []]> {["a.io/x" := ["a.io/r1"]]}
     : gmap string (list string)) !! "a.io/r1" = Some []
  ∧ findImportsLog (exampleEnv twoRootsTable []) "/work" allFlags
      {["a.io/r1"; "a.io/r2"]} 10 "a.io/r2"
      (<["a.io/r1" := []]> {["a.io/x" := ["a.io/r1"]]})
    = (Some (<["a.io/r2" := []]>
               (<["a.io/r1" := ["a.io/r2"]]>
                  {["a.io/x" := ["a.io/r1"; "a.io/r1"]]}), None),
       [("a.io/r2", ImportAll); ("a.io/r1", ImportAll)])
  ∧ resolutions (exampleEnv twoRootsTable []) 10 allFlags ["a.io/r1"; "a.io/r2"]
    = [("a.io/r1", FindOnly); ("a.io/r2", FindOnly);
       ("a.io/r1", ImportAll); ("a.io/x", ImportAll);
       ("a.io/r2", ImportAll); ("a.io/r1", ImportAll)].
Proof. repeat split; vm_compute; reflexivity. Qed.

(** * Further properties of the code *)

(** ** The graph only grows *)

Lemma grows_refl g : grows g g.
Proof. split; [done|]. intros k. done. Qed.

Lemma grows_trans g1 g2 g3 : grows g1 g2 → grows g2 g3 → grows g1 g3.
Proof.
  intros [Hd1 Hp1] [Hd2 Hp2]. split; [set_solver|].
  intros k. etrans; [apply Hp1|apply Hp2].
Qed.

Lemma grows_ensure (g : gmap string (list string)) k :
  grows g (<[k := g !!! k]> g).
Proof.
  split; [rewrite dom_insert_L; set_solver|]. intros k'.
  destruct (decide (k = k')) as [->|Hne].
  - by rewrite lookup_total_insert_eq.
  - by rewrite lookup_total_insert_ne.
Qed.

Lemma grows_append (g : gmap string (list string)) k imp :
  grows g (<[k := g !!! k ++ [imp]]> g).
Proof.
  split; [rewrite dom_insert_L; set_solver|]. intros k'.
  destruct (decide (k = k')) as [->|Hne].
  - rewrite lookup_total_insert_eq. by apply prefix_app_r.
  - by rewrite lookup_total_insert_ne.
Qed.

Lemma findImports_grows E cwd fl rootPkgs fuel name g r :
  findImports E cwd fl rootPkgs fuel name g = Some r → grows g r.1.
Proof.
  intros H.
  apply (findImports_invariant E cwd fl rootPkgs (grows g)) with fuel name g;
    [| |done|apply grows_refl].
  - intros g0 _ pkg _ Hg. eapply grows_trans; [exact Hg|apply grows_ensure].
  - intros g0 k imp _ Hg. eapply grows_trans; [exact Hg|apply grows_append].
Qed.

Lemma buildGraph_grows E cwd fl rootPkgs fuel pkgs g g' :
  buildGraph E cwd fl rootPkgs fuel pkgs g = Some (Ok g') → grows g g'.
Proof.
  intros H.
  apply (buildGraph_invariant E cwd fl rootPkgs (grows g)) with fuel pkgs g;
    [| |done|apply grows_refl].
  - intros g0 _ pkg _ Hg. eapply grows_trans; [exact Hg|apply grows_ensure].
  - intros g0 k imp _ Hg. eapply grows_trans; [exact Hg|apply grows_append].
Qed.

(** X1: whatever [findImports] returns, with or without an error, the map
    it leaves has every key it had before, and every importer list it had
    is the beginning of the list the key has afterwards: the traversal
    never deletes a key and never removes or reorders an importer. *)
Theorem findImports_never_shrinks (E : Env) (cwd : string) (fl : Flags)
    (rootPkgs : gset string) (fuel : nat) (packageName : string)
    (allPkgs allPkgs' : gmap string (list string)) (err : option string) :
  findImports E cwd fl rootPkgs fuel packageName allPkgs = Some (allPkgs', err) →
  dom allPkgs ⊆ dom allPkgs'
  ∧ ∀ k, allPkgs !!! k `prefix_of` allPkgs' !!! k.
Proof. intros H. exact (findImports_grows _ _ _ _ _ _ _ _ H). Qed.

Lemma findImports_never_shrinks_witness :
  findImports (exampleEnv twoRootsTable []) "/work" allFlags
    {["a.io/r1"; "a.io/r2"]} 10 "a.io/r2"
    (<["a.io/r1" := []]> {["a.io/x" := ["a.io/r1"]]})
  = Some (<["a.io/r2" := []]>
            (<["a.io/r1" := ["a.io/r2"]]>
               {["a.io/x" := ["a.io/r1"; "a.io/r1"]]}), None)
  ∧ (<["a.io/r1" := []]> {["a.io/x" := ["a.io/r1"]]}
     : gmap string (list string)) !!! "a.io/x"
    `prefix_of`
    (<["a.io/r2" := []]>
       (<["a.io/r1" := ["a.io/r2"]]>
          {["a.io/x" := ["a.io/r1"; "a.io/r1"]]})
     : gmap string (list string)) !!! "a.io/x".
Proof.
  assert (H : findImports (exampleEnv twoRootsTable []) "/work" allFlags
                {["a.io/r1"; "a.io/r2"]} 10 "a.io/r2"
                (<["a.io/r1" := []]> {["a.io/x" := ["a.io/r1"]]})
              = Some (<["a.io/r2" := []]>
                        (<["a.io/r1" := ["a.io/r2"]]>
                           {["a.io/x" := ["a.io/r1"; "a.io/r1"]]}), None))
    by (vm_compute; reflexivity).
  split; [exact H|].
  exact (proj2 (findImports_never_shrinks _ _ _ _ _ _ _ _ _ H) "a.io/x").
Defined.

(** ** Every recorded edge is an import *)

Section traversal_edges.
Variables (E : Env) (cwd : string) (fl : Flags) (rootPkgs : gset string).
Hypothesis range_ok : rangeVisitsAll E.

Lemma edgesSound_ensure g k :
  edgesSound E cwd fl rootPkgs g →
  edgesSound E cwd fl rootPkgs (<[k := g !!! k]> g).
Proof.
  intros Hg k' imp Himp.
  assert (Hold : imp ∈ g !!! k').
  { destruct (decide (k = k')) as [->|Hne].
    - by rewrite lookup_total_insert_eq in Himp.
    - by rewrite lookup_total_insert_ne in Himp. }
  destruct (Hg k' imp Hold) as [Hd Hres]. split; [|done].
  rewrite dom_insert_L. set_solver.
Qed.

Lemma edgesSound_append g name pkgName pkg :
  Import E pkgName cwd ImportAll = (pkg, None) →
  ImportPath pkg ∈ dom g →
  name ∈ imports fl pkg (bool_decide (ImportPath pkg ∈ rootPkgs)) →
  edgesSound E cwd fl rootPkgs g →
  edgesSound E cwd fl rootPkgs (<[name := g !!! name ++ [ImportPath pkg]]> g).
Proof.
  intros Himp Hdom Hname Hg k imp Hin.
  assert (Hcases : imp ∈ g !!! k ∨ (k = name ∧ imp = ImportPath pkg)).
  { destruct (decide (name = k)) as [->|Hne].
    - rewrite lookup_total_insert_eq in Hin.
      apply elem_of_app in Hin as [?| ->%list_elem_of_singleton]; [by left|by right].
    - rewrite lookup_total_insert_ne in Hin by done. by left. }
  rewrite dom_insert_L. destruct Hcases as [Hold|[-> ->]].
  - destruct (Hg k imp Hold) as [Hd Hres]. split; [set_solver|done].
  - split; [set_solver|]. by exists pkgName, pkg.
Qed.

Lemma importLoop_edges recurse pkgName pkg :
  Import E pkgName cwd ImportAll = (pkg, None) →
  (∀ name g r, recurse name g = Some r →
               grows g r.1
               ∧ (edgesSound E cwd fl rootPkgs g →
                  edgesSound E cwd fl rootPkgs r.1)) →
  ∀ names g r,
    (∀ n, n ∈ names →
          n ∈ imports fl pkg (bool_decide (ImportPath pkg ∈ rootPkgs))) →
    ImportPath pkg ∈ dom g →
    importLoop fl recurse (ImportPath pkg) names g = Some r →
    edgesSound E cwd fl rootPkgs g → edgesSound E cwd fl rootPkgs r.1.
Proof.
  intros Himp Hrec. induction names as [|name names IH];
    intros g r Hnames Hdom; simpl.
  - by intros [= <-].
  - assert (Hrest : ∀ n, n ∈ names →
              n ∈ imports fl pkg (bool_decide (ImportPath pkg ∈ rootPkgs))).
    { intros n Hn. apply Hnames. by right. }
    destruct (negb (std fl) && isStdlib name); [by apply IH|].
    assert (Hstep : edgesSound E cwd fl rootPkgs g →
              edgesSound E cwd fl rootPkgs
                (<[name := g !!! name ++ [ImportPath pkg]]> g)
              ∧ ImportPath pkg
                ∈ dom (<[name := g !!! name ++ [ImportPath pkg]]> g)).
    { intros Hg. split.
      - eapply edgesSound_append; [done..| |done]. apply Hnames. by left.
      - rewrite dom_insert_L. set_solver. }
    destruct (all fl && negb _).
    + destruct (recurse name _) as [[g1 [e|]]|] eqn:Hcall; [| |done].
      * intros [= <-] Hg. destruct (Hstep Hg) as [Hs _].
        by apply (Hrec _ _ _ Hcall).
      * intros Hloop Hg. destruct (Hstep Hg) as [Hs Hd].
        destruct (Hrec _ _ _ Hcall) as [[Hgd _] Hpres]. simpl in *.
        apply (IH g1 r); [done|set_solver|done|by apply Hpres].
    + intros Hloop Hg. destruct (Hstep Hg) as [Hs Hd].
      exact (IH _ r Hrest Hd Hloop Hs).
Qed.

Lemma findImports_edges fuel :
  ∀ name g r,
    findImports E cwd fl rootPkgs fuel name g = Some r →
    edgesSound E cwd fl rootPkgs g → edgesSound E cwd fl rootPkgs r.1.
Proof.
  induction fuel as [|fuel IH]; intros name g r; [done|]. simpl.
  case_bool_decide; [by intros [= <-]|].
  destruct (Import E name cwd ImportAll) as [pkg [e|]] eqn:Himp;
    [by intros [= <-]|].
  intros Hloop Hg.
  apply (importLoop_edges (findImports E cwd fl rootPkgs fuel) name pkg Himp) with
    (names := rangeKeys E (imports fl pkg (bool_decide (ImportPath pkg ∈ rootPkgs))))
    (g := <[ImportPath pkg := g !!! ImportPath pkg]> g).
  - intros n g0 r0 Hcall. split; [by eapply findImports_grows|by apply (IH n)].
  - intros n. by rewrite rangeKeys_elem.
  - rewrite dom_insert_L. set_solver.
  - done.
  - by apply edgesSound_ensure.
Qed.

Lemma buildGraph_edges fuel pkgs :
  ∀ g g',
    buildGraph E cwd fl rootPkgs fuel pkgs g = Some (Ok g') →
    edgesSound E cwd fl rootPkgs g → edgesSound E cwd fl rootPkgs g'.
Proof.
  induction pkgs as [|pkg pkgs IH]; intros g g'; simpl.
  - by intros [= <-].
  - destruct (findImports _ _ _ _ _ _ _) as [[g1 [e|]]|] eqn:Hcall; [done| |done].
    intros Hrest Hg. apply (IH _ _ Hrest).
    apply (findImports_edges _ _ _ _ Hcall Hg).
Qed.

End traversal_edges.

(** X2: in the graph that is built, every importer listed under a key is
    itself a key of the graph, is the import path of a package that was
    found, and has the key in its effective import set: no dependency is
    attributed to a package that does not import it. *)
Theorem recorded_importers_import (E : Env) (cwd : string) (fl : Flags)
    (rootPkgs : gset string) (fuel : nat) (pkgs : list string)
    (g : gmap string (list string)) :
  rangeVisitsAll E →
  buildGraph E cwd fl rootPkgs fuel pkgs ∅ = Some (Ok g) →
  ∀ k imp,
    imp ∈ g !!! k →
    imp ∈ dom g
    ∧ ∃ name pkg,
        Import E name cwd ImportAll = (pkg, None)
        ∧ ImportPath pkg = imp
        ∧ k ∈ imports fl pkg (bool_decide (imp ∈ rootPkgs)).
Proof.
  intros HE Hbuild.
  apply (buildGraph_edges E cwd fl rootPkgs HE fuel pkgs ∅ g Hbuild).
  intros k imp Himp. rewrite lookup_total_empty in Himp. by apply elem_of_nil in Himp.
Qed.

Lemma recorded_importers_import_witness :
  rangeVisitsAll (exampleEnv chainTable [])
  ∧ buildGraph (exampleEnv chainTable []) "/work" allFlags {["a.io/top"]} 10
      ["a.io/top"] ∅
    = Some (Ok (<["a.io/r" := ["a.io/mid"]]>
                  (<["a.io/mid" := ["a.io/top"]]> {["a.io/top" := []]})))
  ∧ "a.io/mid" ∈ dom (<["a.io/r" := ["a.io/mid"]]>
                        (<["a.io/mid" := ["a.io/top"]]>
                           ({["a.io/top" := []]} : gmap string (list string)))).
Proof.
  split; [apply exampleEnv_range|].
  assert (Hb : buildGraph (exampleEnv chainTable []) "/work" allFlags
                 {["a.io/top"]} 10 ["a.io/top"] ∅
               = Some (Ok (<["a.io/r" := ["a.io/mid"]]>
                             (<["a.io/mid" := ["a.io/top"]]> {["a.io/top" := []]}))))
    by (vm_compute; reflexivity).
  split; [exact Hb|].
  refine (proj1 (recorded_importers_import (exampleEnv chainTable []) "/work"
                   allFlags {["a.io/top"]} 10 ["a.io/top"] _
                   (exampleEnv_range chainTable []) Hb "a.io/r" "a.io/mid" _)).
  vm_compute. left.
Defined.

(** ** The standard-library filter and the entries of the roots *)

(** X3: with the standard library excluded, every key of the graph that is
    built is either a path that is not classified as standard library or
    the import path the resolver reports for a package it has found; no
    import classified as standard library becomes a key. *)
Theorem stdlib_imports_never_keys (E : Env) (cwd : string) (fl : Flags)
    (rootPkgs : gset string) (fuel : nat) (pkgs : list string)
    (g : gmap string (list string)) :
  std fl = false →
  buildGraph E cwd fl rootPkgs fuel pkgs ∅ = Some (Ok g) →
  ∀ k, k ∈ dom g → isStdlib k = false ∨ resolvedPath E cwd k.
Proof.
  intros Hstd Hbuild.
  apply (buildGraph_invariant E cwd fl rootPkgs
           (λ g, ∀ k, k ∈ dom g → isStdlib k = false ∨ resolvedPath E cwd k))
    with fuel pkgs ∅; [| |set_solver|done].
  - intros g0 name pkg Himp Hg k. rewrite dom_insert_L.
    intros [->%elem_of_singleton|Hk]%elem_of_union; [|by apply Hg].
    right. by exists name, pkg.
  - intros g0 name imp [Hs|Hs] Hg k; [congruence|]. rewrite dom_insert_L.
    intros [->%elem_of_singleton|Hk]%elem_of_union; [by left|by apply Hg].
Qed.

Lemma stdlib_imports_never_keys_witness :
  std noFlags = false
  ∧ buildGraph (exampleEnv cgoTable []) "/work" noFlags {["a.io/cgo"]} 10
      ["a.io/cgo"] ∅ = Some (Ok {["a.io/cgo" := []]})
  ∧ (isStdlib "a.io/cgo" = false
     ∨ resolvedPath (exampleEnv cgoTable []) "/work" "a.io/cgo").
Proof.
  split; [reflexivity|].
  assert (Hb : buildGraph (exampleEnv cgoTable []) "/work" noFlags {["a.io/cgo"]} 10
                 ["a.io/cgo"] ∅ = Some (Ok {["a.io/cgo" := []]}))
    by (vm_compute; reflexivity).
  split; [exact Hb|].
  apply (stdlib_imports_never_keys (exampleEnv cgoTable []) "/work" noFlags
           {["a.io/cgo"]} 10 ["a.io/cgo"] _ eq_refl Hb "a.io/cgo").
  apply elem_of_dom. by eexists.
Defined.

Lemma findImports_success_entry E cwd fl rootPkgs fuel name g g' :
  findImports E cwd fl rootPkgs fuel name g = Some (g', None) →
  name ≠ "C" →
  ∃ pkg, Import E name cwd ImportAll = (pkg, None) ∧ ImportPath pkg ∈ dom g'.
Proof.
  destruct fuel as [|fuel]; [done|]. simpl. intros H Hne.
  rewrite bool_decide_eq_false_2 in H by done.
  destruct (Import E name cwd ImportAll) as [pkg [e|]] eqn:Himp; [done|].
  exists pkg. split; [done|].
  assert (Hg : grows (<[ImportPath pkg := g !!! ImportPath pkg]> g) g').
  { apply (importLoop_invariant fl
             (grows (<[ImportPath pkg := g !!! ImportPath pkg]> g)))
      with (r := (g', None)) in H; [done| | |apply grows_refl].
    - intros g0 k imp _ Hg0. eapply grows_trans; [exact Hg0|apply grows_append].
    - intros n g0 r0 Hcall Hg0. eapply grows_trans; [exact Hg0|].
      by eapply findImports_grows. }
  destruct Hg as [Hd _]. apply Hd. rewrite dom_insert_L. set_solver.
Qed.

Lemma buildGraph_root_entries E cwd fl rootPkgs fuel pkgs :
  ∀ g0 g,
    buildGraph E cwd fl rootPkgs fuel pkgs g0 = Some (Ok g) →
    ∀ pkg, pkg ∈ pkgs → pkg ≠ "C" →
      ∃ p, Import E pkg cwd ImportAll = (p, None) ∧ ImportPath p ∈ dom g.
Proof.
  induction pkgs as [|pkg0 pkgs IH]; intros g0 g Hbuild pkg Hin Hne.
  - by apply elem_of_nil in Hin.
  - simpl in Hbuild.
    destruct (findImports _ _ _ _ _ _ _) as [[g1 [e|]]|] eqn:Hcall; [done| |done].
    apply elem_of_cons in Hin as [->|Hin].
    + destruct (findImports_success_entry _ _ _ _ _ _ _ _ Hcall Hne)
        as (p & Hp & Hd).
      exists p. split; [done|].
      destruct (buildGraph_grows _ _ _ _ _ _ _ _ Hbuild) as [Hsub _]. by apply Hsub.
    + by apply (IH g1 g).
Qed.

(** X4: when the graph is built, every package named on the command line
    other than [C] was found by the resolver and its import path is a key
    of the graph, whether or not anything imports it; this is what line 196
    ensures, and what makes files mode list the roots. *)
Theorem roots_have_entries (E : Env) (cwd : string) (fl : Flags)
    (rootPkgs : gset string) (fuel : nat) (pkgs : list string)
    (g0 g : gmap string (list string)) :
  buildGraph E cwd fl rootPkgs fuel pkgs g0 = Some (Ok g) →
  ∀ pkg, pkg ∈ pkgs → pkg ≠ "C" →
    ∃ p, Import E pkg cwd ImportAll = (p, None) ∧ ImportPath p ∈ dom g.
Proof. apply buildGraph_root_entries. Qed.

Lemma roots_have_entries_witness :
  buildGraph (exampleEnv cgoTable []) "/work" noFlags {["a.io/cgo"]} 10
    ["a.io/cgo"] ∅ = Some (Ok {["a.io/cgo" := []]})
  ∧ ∃ p, Import (exampleEnv cgoTable []) "a.io/cgo" "/work" ImportAll = (p, None)
         ∧ ImportPath p ∈ dom ({["a.io/cgo" := []]} : gmap string (list string)).
Proof.
  assert (Hb : buildGraph (exampleEnv cgoTable []) "/work" noFlags {["a.io/cgo"]} 10
                 ["a.io/cgo"] ∅ = Some (Ok {["a.io/cgo" := []]}))
    by (vm_compute; reflexivity).
  split; [exact Hb|].
  apply (roots_have_entries (exampleEnv cgoTable []) "/work" noFlags
           {["a.io/cgo"]} 10 ["a.io/cgo"] ∅ _ Hb "a.io/cgo").
  - by left.
  - discriminate.
Defined.

(** ** Without [-a] *)

Lemma importLoopLog_nonrec fl recurseLog importPath names :
  all fl = false →
  ∀ g, ∃ g',
    importLoopLog fl recurseLog importPath names g = (Some (g', None), [])
    ∧ ∀ k, k ∈ dom g' ↔ k ∈ dom g ∨ (k ∈ names ∧ passesFilter fl k).
Proof.
  intros Hall. induction names as [|name names IH]; intros g; simpl.
  - exists g. split; [done|]. intros k. split; [by left|].
    intros [?|[?%elem_of_nil _]]; done.
  - rewrite Hall. cbn [andb].
    destruct (negb (std fl) && isStdlib name) eqn:Hskip.
    + destruct (IH g) as (g' & -> & Hd). exists g'. split; [done|].
      intros k. rewrite Hd, elem_of_cons. split; [naive_solver|].
      intros [?|[[->|?] Hp]]; [by left| |by right].
      exfalso. apply andb_true_iff in Hskip as [Hs1 Hs2].
      apply negb_true_iff in Hs1. destruct Hp; congruence.
    + destruct (IH (<[name := g !!! name ++ [importPath]]> g)) as (g' & -> & Hd).
      exists g'. split; [done|]. intros k.
      rewrite Hd, dom_insert_L, elem_of_union, elem_of_singleton, elem_of_cons.
      assert (passesFilter fl name).
      { unfold passesFilter. destruct (std fl); [by left|]. simpl in Hskip.
        by right. }
      split; [|naive_solver].
      intros [[->|?]|[? ?]]; [right|by left|right]; split; auto.
Qed.

Lemma findImportsLog_nonrec E cwd fl rootPkgs fuel name g :
  all fl = false →
  findImportsLog E cwd fl rootPkgs (S fuel) name g
  = (findImports E cwd fl rootPkgs (S fuel) name g,
     if bool_decide (name = "C") then [] else [(name, ImportAll)])
  ∧ is_Some (findImports E cwd fl rootPkgs (S fuel) name g).
Proof.
  intros Hall. rewrite <- findImportsLog_result. cbn [findImportsLog].
  case_bool_decide; [by split; [|eexists]|].
  destruct (Import E name cwd ImportAll) as [pkg [e|]]; [by split; [|eexists]|].
  destruct (importLoopLog_nonrec fl (findImportsLog E cwd fl rootPkgs fuel)
              (ImportPath pkg)
              (rangeKeys E (imports fl pkg (bool_decide (ImportPath pkg ∈ rootPkgs))))
              Hall (<[ImportPath pkg := g !!! ImportPath pkg]> g))
    as (g' & -> & _).
  by split; [|eexists].
Qed.

(** Without [-a], what one call of [findImports] from the loop of [main]
    resolves, by whether the package is found. *)
Lemma findImportsLog_nonrec_found E cwd fl rootPkgs fuel name g :
  all fl = false → name ≠ "C" →
  (Import E name cwd ImportAll).2 = None →
  ∃ g',
    findImportsLog E cwd fl rootPkgs (S fuel) name g
    = (Some (g', None), [(name, ImportAll)]).
Proof.
  intros Hall Hc Himp. cbn [findImportsLog].
  rewrite bool_decide_eq_false_2 by done.
  destruct (Import E name cwd ImportAll) as [pkg err]. simpl in Himp. subst err.
  destruct (importLoopLog_nonrec fl (findImportsLog E cwd fl rootPkgs fuel)
              (ImportPath pkg)
              (rangeKeys E (imports fl pkg (bool_decide (ImportPath pkg ∈ rootPkgs))))
              Hall (<[ImportPath pkg := g !!! ImportPath pkg]> g))
    as (g' & -> & _).
  by exists g'.
Qed.

Lemma findImportsLog_not_found E cwd fl rootPkgs fuel name g e :
  name ≠ "C" → (Import E name cwd ImportAll).2 = Some e →
  findImportsLog E cwd fl rootPkgs (S fuel) name g
  = (Some (g, Some (cannotFind E name e)), [(name, ImportAll)]).
Proof.
  intros Hc Himp. cbn [findImportsLog].
  rewrite bool_decide_eq_false_2 by done.
  destruct (Import E name cwd ImportAll) as [pkg err]. simpl in Himp. by subst err.
Qed.

Lemma buildGraphLog_nonrec_found E cwd fl rootPkgs fuel pkgs :
  all fl = false → Forall (foundOrC E cwd) pkgs →
  ∀ g, ∃ g',
    buildGraphLog E cwd fl rootPkgs (S fuel) pkgs g
    = (Some (Ok g'),
       (λ pkg, (pkg, ImportAll)) <$> filter (λ pkg, pkg ≠ "C") pkgs).
Proof.
  intros Hall Hpkgs. induction Hpkgs as [|pkg pkgs Hpkg _ IH]; intros g.
  - by exists g.
  - cbn [buildGraphLog]. rewrite filter_cons.
    destruct (decide (pkg = "C")) as [->|Hc].
    + cbn [findImportsLog]. rewrite bool_decide_eq_true_2 by done.
      destruct (IH g) as [g' ->]. exists g'.
      by rewrite decide_False by (by intros ?).
    + destruct Hpkg as [?|Himp]; [done|].
      destruct (findImportsLog_nonrec_found E cwd fl rootPkgs fuel pkg g
                  Hall Hc Himp) as [g1 ->].
      destruct (IH g1) as [g' ->]. exists g'.
      by rewrite decide_True by done.
Qed.

Lemma buildGraphLog_nonrec_first_failure E cwd fl rootPkgs fuel pre pkg post e :
  all fl = false → Forall (foundOrC E cwd) pre →
  pkg ≠ "C" → (Import E pkg cwd ImportAll).2 = Some e →
  ∀ g,
    buildGraphLog E cwd fl rootPkgs (S fuel) (pre ++ pkg :: post) g
    = (Some (Err ("cannot find imports from " +:+ Quote E pkg +:+ ": "
                  +:+ cannotFind E pkg e)),
       (λ p, (p, ImportAll)) <$> (filter (λ p, p ≠ "C") pre ++ [pkg])).
Proof.
  intros Hall Hpre Hc Hfail. induction Hpre as [|p pre Hp _ IH]; intros g.
  - cbn [app buildGraphLog].
    by rewrite (findImportsLog_not_found E cwd fl rootPkgs fuel pkg g e Hc Hfail).
  - cbn [app buildGraphLog]. rewrite filter_cons.
    destruct (decide (p = "C")) as [->|Hpc].
    + cbn [findImportsLog]. rewrite bool_decide_eq_true_2 by done.
      rewrite IH. by rewrite decide_False by (by intros ?).
    + destruct Hp as [?|Himp]; [done|].
      destruct (findImportsLog_nonrec_found E cwd fl rootPkgs fuel p g
                  Hall Hpc Himp) as [g1 ->].
      rewrite IH. by rewrite decide_True by done.
Qed.

(** X5: without [-a], building the graph resolves nothing but the packages
    named on the command line, in order and each at most once ([C] not at
    all), and a recursion budget of one call always suffices.  When every
    named package is found, all of them are resolved and the graph is
    built.  When one is not found, resolving stops there: the packages
    before the first that is not found are resolved, then that one, and
    none after it; the result is the error of [main] for that package. *)
Theorem without_all_only_roots_resolved (E : Env) (cwd : string) (fl : Flags)
    (rootPkgs : gset string) (fuel : nat) (pkgs : list string)
    (g : gmap string (list string)) :
  all fl = false →
  (buildGraphLog E cwd fl rootPkgs (S fuel) pkgs g).2
    `prefix_of` ((λ pkg, (pkg, ImportAll)) <$> filter (λ pkg, pkg ≠ "C") pkgs)
  ∧ is_Some (buildGraph E cwd fl rootPkgs (S fuel) pkgs g)
  ∧ (∀ g', buildGraph E cwd fl rootPkgs (S fuel) pkgs g = Some (Ok g') →
           (buildGraphLog E cwd fl rootPkgs (S fuel) pkgs g).2
           = (λ pkg, (pkg, ImportAll)) <$> filter (λ pkg, pkg ≠ "C") pkgs)
  ∧ (Forall (foundOrC E cwd) pkgs →
     ∃ g',
       buildGraphLog E cwd fl rootPkgs (S fuel) pkgs g
       = (Some (Ok g'),
          (λ pkg, (pkg, ImportAll)) <$> filter (λ pkg, pkg ≠ "C") pkgs))
  ∧ (∀ pre pkg post e,
       pkgs = pre ++ pkg :: post →
       Forall (foundOrC E cwd) pre →
       pkg ≠ "C" → (Import E pkg cwd ImportAll).2 = Some e →
       buildGraphLog E cwd fl rootPkgs (S fuel) pkgs g
       = (Some (Err ("cannot find imports from " +:+ Quote E pkg +:+ ": "
                     +:+ cannotFind E pkg e)),
          (λ p, (p, ImportAll)) <$> (filter (λ p, p ≠ "C") pre ++ [pkg]))).
Proof.
  intros Hall.
  assert (H3 : (buildGraphLog E cwd fl rootPkgs (S fuel) pkgs g).2
                 `prefix_of` ((λ pkg, (pkg, ImportAll))
                              <$> filter (λ pkg, pkg ≠ "C") pkgs)
               ∧ is_Some (buildGraph E cwd fl rootPkgs (S fuel) pkgs g)
               ∧ (∀ g', buildGraph E cwd fl rootPkgs (S fuel) pkgs g = Some (Ok g') →
                        (buildGraphLog E cwd fl rootPkgs (S fuel) pkgs g).2
                        = (λ pkg, (pkg, ImportAll))
                          <$> filter (λ pkg, pkg ≠ "C") pkgs)).
  { revert g. induction pkgs as [|pkg pkgs IH]; intros g.
    - simpl. split; [done|]. split; [by eexists|done].
    - cbn [buildGraphLog buildGraph].
      destruct (findImportsLog_nonrec E cwd fl rootPkgs fuel pkg g Hall)
        as [-> [[g1 e] ->]].
      assert (Hlog : (if bool_decide (pkg = "C") then []
                      else [(pkg, ImportAll)])
                     ++ ((λ pkg, (pkg, ImportAll)) <$> filter (λ pkg, pkg ≠ "C") pkgs)
                     = (λ pkg, (pkg, ImportAll)) <$> filter (λ pkg, pkg ≠ "C") (pkg :: pkgs)).
      { rewrite filter_cons. case_bool_decide as Hc.
        - by rewrite decide_False by (by intros ?).
        - by rewrite decide_True by done. }
      destruct e as [e|].
      + simpl. split; [|split; [by eexists|done]].
        rewrite <- Hlog. by apply prefix_app_r.
      + destruct (IH g1) as (Hpre & Hsome & Heq).
        destruct (buildGraphLog E cwd fl rootPkgs (S fuel) pkgs g1) as [r log'] eqn:Hrest.
        simpl in *. split; [|split; [done|]].
        * rewrite <- Hlog. by apply prefix_app.
        * intros g' Hg'. rewrite <- Hlog. f_equal. exact (Heq g' Hg'). }
  destruct H3 as (H1 & H2 & H3).
  split; [done|]. split; [done|]. split; [done|]. split.
  - intros Hpkgs. by apply buildGraphLog_nonrec_found.
  - intros pre pkg post e -> Hpre Hc Hfail.
    by apply buildGraphLog_nonrec_first_failure.
Qed.

Lemma without_all_only_roots_resolved_witness :
  buildGraphLog (exampleEnv chainTable []) "/work" noFlags {["a.io/top"]} 1
    ["a.io/top"; "C"; "a.io/gone"; "a.io/r"] ∅
  = (Some (Err ("cannot find imports from "
                +:+ Quote (exampleEnv chainTable []) "a.io/gone" +:+ ": "
                +:+ cannotFind (exampleEnv chainTable []) "a.io/gone"
                      ("cannot find package " +:+ dquote +:+ "a.io/gone"
                       +:+ dquote))),
     [("a.io/top", ImportAll); ("a.io/gone", ImportAll)]).
Proof.
  destruct (without_all_only_roots_resolved (exampleEnv chainTable []) "/work"
              noFlags {["a.io/top"]} 0
              ["a.io/top"; "C"; "a.io/gone"; "a.io/r"] ∅ eq_refl)
    as (_ & _ & _ & _ & Hfail).
  apply (Hfail ["a.io/top"; "C"] "a.io/gone" ["a.io/r"]).
  - reflexivity.
  - constructor; [right; vm_compute; reflexivity|].
    constructor; [by left|constructor].
  - done.
  - vm_compute. reflexivity.
Defined.

Lemma imports_passesFilter fl pkg isRoot k :
  k ∈ imports fl pkg isRoot → passesFilter fl k.
Proof.
  unfold imports, passesFilter.
  destruct (isRoot && negb (noTestDeps fl));
    rewrite !elem_of_addPackages, elem_of_empty; naive_solver.
Qed.

Lemma findImports_nonrec_dom E cwd fl rootPkgs fuel name pkg g :
  rangeVisitsAll E → all fl = false → name ≠ "C" →
  Import E name cwd ImportAll = (pkg, None) →
  ∃ g',
    findImports E cwd fl rootPkgs (S fuel) name g = Some (g', None)
    ∧ ∀ k, k ∈ dom g' ↔
           k ∈ dom g ∨ k = ImportPath pkg
           ∨ k ∈ imports fl pkg (bool_decide (ImportPath pkg ∈ rootPkgs)).
Proof.
  intros HE Hall Hne Himp. rewrite <- findImportsLog_result.
  cbn [findImportsLog]. rewrite bool_decide_eq_false_2 by done. rewrite Himp.
  destruct (importLoopLog_nonrec fl (findImportsLog E cwd fl rootPkgs fuel)
              (ImportPath pkg)
              (rangeKeys E (imports fl pkg (bool_decide (ImportPath pkg ∈ rootPkgs))))
              Hall (<[ImportPath pkg := g !!! ImportPath pkg]> g))
    as (g' & -> & Hd).
  exists g'. split; [done|]. intros k.
  rewrite Hd, dom_insert_L, elem_of_union, elem_of_singleton, rangeKeys_elem by done.
  split; [naive_solver|].
  intros [?|[?|Hk]]; [by left; right|by left; left|].
  right. split; [done|]. by eapply imports_passesFilter.
Qed.

Lemma buildGraph_nonrec_dom E cwd fl rootPkgs fuel pkgs :
  rangeVisitsAll E → all fl = false →
  (∀ pkg, pkg ∈ pkgs → pkg ≠ "C" → (Import E pkg cwd ImportAll).2 = None) →
  ∀ g, ∃ g',
    buildGraph E cwd fl rootPkgs (S fuel) pkgs g = Some (Ok g')
    ∧ ∀ k, k ∈ dom g' ↔
           k ∈ dom g
           ∨ ∃ pkg, pkg ∈ pkgs ∧ pkg ≠ "C"
                    ∧ (k = ImportPath (Import E pkg cwd ImportAll).1
                       ∨ k ∈ imports fl (Import E pkg cwd ImportAll).1
                               (bool_decide
                                  (ImportPath (Import E pkg cwd ImportAll).1
                                   ∈ rootPkgs))).
Proof.
  intros HE Hall. induction pkgs as [|pkg pkgs IH]; intros Hok g.
  - exists g. split; [done|]. intros k. split; [by left|].
    intros [?|(? & ?%elem_of_nil & _)]; done.
  - cbn [buildGraph].
    assert (Hrest : ∀ p, p ∈ pkgs → p ≠ "C" → (Import E p cwd ImportAll).2 = None).
    { intros p Hp. apply Hok. by right. }
    destruct (decide (pkg = "C")) as [->|Hne].
    + cbn [findImports]. rewrite bool_decide_eq_true_2 by done.
      destruct (IH Hrest g) as (g' & -> & Hd). exists g'. split; [done|].
      intros k. rewrite Hd. split.
      * intros [?|(p & Hp & ? & ?)]; [by left|]. right. exists p.
        split; [by right|done].
      * intros [?|(p & [->|Hp]%elem_of_cons & ? & ?)]; [by left|done|].
        right. by exists p.
    + specialize (Hok pkg ltac:(by left) Hne).
      destruct (Import E pkg cwd ImportAll) as [p err] eqn:Himp.
      simpl in Hok. subst err.
      destruct (findImports_nonrec_dom E cwd fl rootPkgs fuel pkg p g HE Hall Hne Himp)
        as (g1 & -> & Hd1).
      destruct (IH Hrest g1) as (g' & -> & Hd). exists g'. split; [done|].
      intros k. rewrite Hd, Hd1. split.
      * intros [[?|Hk]|(q & Hq & ? & ?)]; [by left| |].
        -- right. exists pkg. split; [by left|]. split; [done|].
           by rewrite Himp.
        -- right. exists q. split; [by right|done].
      * intros [?|(q & [->|Hq]%elem_of_cons & ? & Hk)]; [by left; left| |].
        -- left. right. by rewrite Himp in Hk.
        -- right. by exists q.
Qed.

Lemma resultKeys_sorted E (g : gmap string (list string)) :
  Sorted String.le (resultKeys E g).
Proof. apply Sorted_merge_sort. apply _. Qed.

Lemma resultKeys_NoDup E (g : gmap string (list string)) :
  rangeVisitsAll E → NoDup (resultKeys E g).
Proof.
  intros HE. unfold resultKeys, sort_Strings.
  rewrite merge_sort_Permutation, (HE (dom g)). apply NoDup_elements.
Qed.

Lemma applyWhy_no_why flags : why flags = "" → applyWhy flags = flags.
Proof. intros H. unfold applyWhy. by rewrite H. Qed.

(** X6: without [-a], [-f], [-from] and [-why], when every named package
    is found, the program prints, in ascending order and without
    duplicates, exactly the paths that are in the effective import set of a
    named package, or are the import path of one, and are not in the root
    set. *)
Theorem direct_dependencies_listed (E : Env) (fuel : nat) (flags : Flags)
    (args : list string) (cwd : string) (rootPkgs : gset string) :
  rangeVisitsAll E →
  Getwd E = Ok cwd →
  all flags = false → files flags = false → from flags = false →
  why flags = "" →
  resolveRoots E cwd
    (ImportPaths E (if bool_decide (length args = 0) then ["."] else args)) ∅
  = Ok rootPkgs →
  (∀ pkg,
     pkg ∈ ImportPaths E (if bool_decide (length args = 0) then ["."] else args) →
     pkg ≠ "C" → (Import E pkg cwd ImportAll).2 = None) →
  ∃ lines,
    main E (S fuel) flags args = Output lines
    ∧ Sorted String.le lines
    ∧ NoDup lines
    ∧ ∀ x, x ∈ lines ↔
           (x ∉ rootPkgs)
           ∧ ∃ pkg,
               pkg ∈ ImportPaths E
                       (if bool_decide (length args = 0) then ["."] else args)
               ∧ pkg ≠ "C"
               ∧ (x = ImportPath (Import E pkg cwd ImportAll).1
                  ∨ x ∈ imports flags (Import E pkg cwd ImportAll).1
                          (bool_decide
                             (ImportPath (Import E pkg cwd ImportAll).1
                              ∈ rootPkgs))).
Proof.
  intros HE Hwd Hall Hfiles Hfrom Hwhy Hroots Hok.
  destruct (buildGraph_nonrec_dom E cwd flags rootPkgs fuel _ HE Hall Hok ∅)
    as (g & Hbuild & Hd).
  exists (resultKeys E (deleteRoots E rootPkgs g)).
  split; [|split; [apply resultKeys_sorted|split; [by apply resultKeys_NoDup|]]].
  - unfold main. rewrite Hwd, (applyWhy_no_why flags Hwhy), Hwhy.
    rewrite bool_decide_eq_false_2 by (by intros ?).
    rewrite Hroots, Hbuild. unfold prune. rewrite Hfiles. f_equal.
    unfold render.
    induction (resultKeys E (deleteRoots E rootPkgs g)) as [|r l IH]; [done|].
    simpl. unfold showEntry at 1. rewrite Hfiles, Hfrom. simpl. by rewrite IH.
  - intros x. rewrite resultKeys_elem by done.
    rewrite elem_of_dom, deleteRoots_lookup by done.
    destruct (decide (x ∈ rootPkgs)) as [Hr|Hr].
    + rewrite bool_decide_eq_true_2 by done.
      split; [by intros [? ?]|]. by intros [? _].
    + rewrite bool_decide_eq_false_2 by done.
      rewrite <- elem_of_dom, Hd, dom_empty_L, elem_of_empty. naive_solver.
Qed.

Lemma direct_dependencies_listed_witness :
  rangeVisitsAll (exampleEnv chainTable [])
  ∧ ∃ lines,
      main (exampleEnv chainTable []) 1 noFlags ["a.io/top"] = Output lines
      ∧ Sorted String.le lines.
Proof.
  split; [apply exampleEnv_range|].
  destruct (direct_dependencies_listed (exampleEnv chainTable []) 0 noFlags
              ["a.io/top"] "/work" {["a.io/top"]}
              (exampleEnv_range chainTable []) eq_refl eq_refl eq_refl eq_refl
              eq_refl)
    as (lines & Hmain & Hsorted & _).
  - vm_compute. reflexivity.
  - intros pkg Hin _. apply list_elem_of_singleton in Hin. subst pkg.
    vm_compute. reflexivity.
  - exists lines. split; [exact Hmain|exact Hsorted].
Defined.

(** ** The order of map iteration *)

Lemma reversedEnv_range tbl broken : rangeVisitsAll (reversedEnv tbl broken).
Proof. intros s. simpl. apply reverse_Permutation. Defined.

Lemma deleteRoots_order E1 E2 rootPkgs (g : gmap string (list string)) :
  rangeVisitsAll E1 → rangeVisitsAll E2 →
  deleteRoots E1 rootPkgs g = deleteRoots E2 rootPkgs g.
Proof.
  intros H1 H2. apply map_eq. intros k. by rewrite !deleteRoots_lookup.
Qed.

Lemma markMatching_order E1 E2 isTarget (g : gmap string (list string)) :
  rangeVisitsAll E1 → rangeVisitsAll E2 →
  markMatching E1 isTarget g = markMatching E2 isTarget g.
Proof.
  intros H1 H2.
  destruct (markMatching_spec E1 isTarget g H1) as (m1 & -> & Hm1).
  destruct (markMatching_spec E2 isTarget g H2) as (m2 & -> & Hm2).
  f_equal. apply set_eq. intros n. by rewrite Hm1, Hm2.
Qed.

Lemma resultKeys_order E1 E2 (g : gmap string (list string)) :
  rangeVisitsAll E1 → rangeVisitsAll E2 → resultKeys E1 g = resultKeys E2 g.
Proof.
  intros H1 H2. apply (Sorted_unique String.le).
  - apply resultKeys_sorted.
  - apply resultKeys_sorted.
  - unfold resultKeys, sort_Strings.
    by rewrite !merge_sort_Permutation, (H1 (dom g)), (H2 (dom g)).
Qed.

(** X7: the order in which the [range] statements visit the maps has no
    influence on which keys survive the deletions of [main] nor on the
    sorted slice of keys that is printed: two runs that visit every key
    once, in whatever order, agree on both. *)
Theorem map_order_irrelevant (E1 E2 : Env) (fl : Flags)
    (whyMatch : option (string → bool)) (rootPkgs : gset string)
    (g : gmap string (list string)) :
  rangeVisitsAll E1 → rangeVisitsAll E2 →
  prune E1 fl whyMatch rootPkgs g = prune E2 fl whyMatch rootPkgs g
  ∧ resultKeys E1 g = resultKeys E2 g.
Proof.
  intros H1 H2. split; [|by apply resultKeys_order].
  unfold prune. destruct (files fl); [done|].
  rewrite (deleteRoots_order E1 E2) by done.
  destruct whyMatch as [isTarget|]; [|done].
  rewrite (markMatching_order E1 E2) by done.
  destruct (markMatching E2 isTarget _) as [marked|]; [|done].
  f_equal. apply map_eq. intros k. by rewrite !deleteUnmarked_lookup.
Qed.

Lemma map_order_irrelevant_witness :
  rangeVisitsAll (exampleEnv chainTable [])
  ∧ rangeVisitsAll (reversedEnv chainTable [])
  ∧ resultKeys (exampleEnv chainTable []) chainGraph
    = resultKeys (reversedEnv chainTable []) chainGraph.
Proof.
  split; [apply exampleEnv_range|]. split; [apply reversedEnv_range|].
  exact (proj2 (map_order_irrelevant (exampleEnv chainTable [])
                  (reversedEnv chainTable []) noFlags None ∅ chainGraph
                  (exampleEnv_range chainTable [])
                  (reversedEnv_range chainTable []))).
Defined.

(** X8: in list mode and in from mode the program prints one line for
    every key that survives the pruning, and no other line: the lines are
    those of the keys of the pruned graph, they are as many as these keys,
    and they follow the keys in ascending order, no key appearing twice. *)
Theorem one_line_per_key_in_order (E : Env) (fuel : nat) (flags : Flags)
    (args lines : list string) :
  rangeVisitsAll E → files flags = false →
  main E fuel flags args = Output lines →
  ∃ cwd whyMatch rootPkgs allPkgs pruned,
    Getwd E = Ok cwd
    ∧ (if bool_decide (why flags ≠ "")
       then option_map Some (matchPattern (why flags))
       else Some None) = Some whyMatch
    ∧ resolveRoots E cwd
        (ImportPaths E (if bool_decide (length args = 0) then ["."] else args)) ∅
      = Ok rootPkgs
    ∧ buildGraph E cwd (applyWhy flags) rootPkgs fuel
        (ImportPaths E (if bool_decide (length args = 0) then ["."] else args)) ∅
      = Some (Ok allPkgs)
    ∧ prune E (applyWhy flags) whyMatch rootPkgs allPkgs = Some pruned
    ∧ lines = entryLine (applyWhy flags) pruned <$> resultKeys E pruned
    ∧ length lines = size (dom pruned)
    ∧ Sorted String.le (resultKeys E pruned)
    ∧ NoDup (resultKeys E pruned)
    ∧ ∀ k, k ∈ resultKeys E pruned ↔ k ∈ dom pruned.
Proof.
  intros HE Hf Hmain.
  destruct (main_Output_lines _ _ _ _ _ Hf Hmain)
    as (cwd & whyMatch & rootPkgs & allPkgs & pruned
        & Hwd & Hw & Hroots & Hbuild & Hp & ->).
  exists cwd, whyMatch, rootPkgs, allPkgs, pruned.
  repeat (split; [done|]).
  split; [|split; [apply resultKeys_sorted|split; [by apply resultKeys_NoDup|]]].
  - rewrite length_fmap. unfold resultKeys, sort_Strings.
    rewrite merge_sort_Permutation, (HE (dom pruned)). done.
  - intros k. by apply resultKeys_elem.
Qed.

Lemma one_line_per_key_in_order_witness :
  main (exampleEnv twoRootsTable []) 10 fromFlags ["a.io/r2"]
  = Output ["a.io/r1 a.io/r2"]
  ∧ ∃ pruned,
      ["a.io/r1 a.io/r2"]
      = entryLine (applyWhy fromFlags) pruned
        <$> resultKeys (exampleEnv twoRootsTable []) pruned
      ∧ length ["a.io/r1 a.io/r2"] = size (dom pruned)
      ∧ Sorted String.le (resultKeys (exampleEnv twoRootsTable []) pruned).
Proof.
  assert (Hmain : main (exampleEnv twoRootsTable []) 10 fromFlags ["a.io/r2"]
                  = Output ["a.io/r1 a.io/r2"]) by (vm_compute; reflexivity).
  split; [exact Hmain|].
  destruct (one_line_per_key_in_order (exampleEnv twoRootsTable []) 10 fromFlags
              ["a.io/r2"] _ (exampleEnv_range twoRootsTable []) eq_refl Hmain)
    as (cwd & whyMatch & rootPkgs & allPkgs & pruned
        & _ & _ & _ & _ & _ & Hl & Hn & Hs & _).
  exists pruned. split; [exact Hl|]. split; [exact Hn|exact Hs].
Defined.

(** ** The first argument that cannot be found *)

Lemma resolveRootsLog_first_failure E cwd pre pkg post e :
  Forall (λ p, (Import E p cwd FindOnly).2 = None) pre →
  (Import E pkg cwd FindOnly).2 = Some e →
  ∀ rootPkgs,
    resolveRootsLog E cwd (pre ++ pkg :: post) rootPkgs
    = (Err (cannotFind E pkg e), (λ p, (p, FindOnly)) <$> (pre ++ [pkg])).
Proof.
  intros Hpre Hpkg. induction Hpre as [|p pre Hp _ IH]; intros rootPkgs; simpl.
  - destruct (Import E pkg cwd FindOnly) as [q err]. simpl in Hpkg. by subst.
  - destruct (Import E p cwd FindOnly) as [q err]. simpl in Hp. subst.
    by rewrite IH.
Qed.

(** X9: when the pattern of [-why] is valid UTF-8 (the empty pattern is),
    the arguments up to some package are found and that package is not,
    [main] stops in [log.Fatalf] with the message [cannot find], the quoted
    argument and the resolver's error; the arguments after it are not
    looked at and nothing is traversed.  (With a pattern that is not valid
    UTF-8 the program panics before it resolves anything: lemma
    [invalid_why_panics].) *)
Theorem first_unresolvable_argument (E : Env) (fuel : nat) (flags : Flags)
    (args : list string) (cwd : string) (pre post : list string)
    (pkg e : string) :
  Regexp.checkUTF8 (why flags) = true →
  Getwd E = Ok cwd →
  ImportPaths E (if bool_decide (length args = 0) then ["."] else args)
  = pre ++ pkg :: post →
  Forall (λ p, (Import E p cwd FindOnly).2 = None) pre →
  (Import E pkg cwd FindOnly).2 = Some e →
  main E fuel flags args
  = Fatal ("cannot find " +:+ Quote E pkg +:+ ": " +:+ e)
  ∧ resolutions E fuel flags args = (λ p, (p, FindOnly)) <$> (pre ++ [pkg]).
Proof.
  intros Hwhy Hwd Hpkgs Hpre Hpkg. unfold main, resolutions. rewrite Hwd, Hpkgs.
  destruct (whyMatch_compiled flags Hwhy) as [whyMatch ->].
  rewrite <- resolveRootsLog_result.
  by rewrite (resolveRootsLog_first_failure E cwd pre pkg post e Hpre Hpkg).
Qed.

Lemma first_unresolvable_argument_witness :
  main (exampleEnv chainTable []) 10 noFlags ["a.io/top"; "a.io/gone"; "a.io/r"]
  = Fatal ("cannot find " +:+ Quote (exampleEnv chainTable []) "a.io/gone"
           +:+ ": " +:+ ("cannot find package " +:+ dquote +:+ "a.io/gone" +:+ dquote))
  ∧ resolutions (exampleEnv chainTable []) 10 noFlags
      ["a.io/top"; "a.io/gone"; "a.io/r"]
    = (λ p, (p, FindOnly)) <$> (["a.io/top"] ++ ["a.io/gone"]).
Proof.
  apply (first_unresolvable_argument (exampleEnv chainTable []) 10 noFlags
           ["a.io/top"; "a.io/gone"; "a.io/r"] "/work" ["a.io/top"] ["a.io/r"]
           "a.io/gone").
  - reflexivity.
  - reflexivity.
  - reflexivity.
  - constructor; [vm_compute; reflexivity|constructor].
  - vm_compute. reflexivity.
Defined.

(** ** Patterns without dots, and patterns for a whole subtree *)

Lemma tokens_has_dots a b : TDots ∈ tokens (a +:+ "..." +:+ b).
Proof.
  induction a as [|a IH|c a Hno IH] using tokens_induction.
  - rewrite string_app_nil_l, !string_app_cons, string_app_nil_l, tokens_dots.
    by left.
  - remember ("..." +:+ b) as rest. rewrite !string_app_cons, tokens_dots.
    by left.
  - remember ("..." +:+ b) as rest. rewrite string_app_cons.
    destruct (ascii_dec c ".") as [->|Hc].
    + destruct (two_dots_dec (a +:+ rest)) as [[p'' Hp]|Hnp].
      * rewrite Hp, tokens_dots. by left.
      * rewrite tokens_byte by (by intros [_ ?]). by right.
    + rewrite tokens_byte by (by intros [? _]). by right.
Qed.

(** X10: for a pattern in which three dots in a row do not occur.  When
    the pattern is not valid UTF-8, [matchPattern] panics in
    [regexp.MustCompile].  Otherwise the predicate accepts exactly the names
    that read, rune by rune and with every byte that starts no valid
    encoding taken for [RuneError], as the pattern does; among the names
    that are valid UTF-8 that is the pattern itself and no other name.
    Every character of the pattern, regular expression operators included,
    stands for itself. *)
Theorem pattern_without_dots_is_literal (pattern : string) :
  (∀ a b, pattern ≠ a +:+ "..." +:+ b) →
  if Regexp.checkUTF8 pattern
  then ∃ f,
         matchPattern pattern = Some f
         ∧ (∀ name, f name = true ↔ utf8.runes name = utf8.runes pattern)
         ∧ (∀ name, Regexp.checkUTF8 name = true →
                    (f name = true ↔ name = pattern))
  else matchPattern pattern = None.
Proof.
  intros Hno. destruct (Regexp.checkUTF8 pattern) eqn:Hv.
  - by apply literal_pattern.
  - by apply matchPattern_invalid.
Qed.

Lemma pattern_without_dots_is_literal_witness :
  ∃ f,
    matchPattern "a.io/x(y)*" = Some f
    ∧ (∀ name, f name = true ↔ utf8.runes name = utf8.runes "a.io/x(y)*")
    ∧ (∀ name, Regexp.checkUTF8 name = true →
               (f name = true ↔ name = "a.io/x(y)*")).
Proof.
  apply (pattern_without_dots_is_literal "a.io/x(y)*"). intros a b H.
  pose proof (tokens_has_dots a b) as Hin. rewrite <- H in Hin.
  vm_compute in Hin.
  repeat (apply elem_of_cons in Hin as [Hin|Hin]; [discriminate Hin|]).
  by apply elem_of_nil in Hin.
Defined.

(** X11: for a prefix in which three dots in a row do not occur, and the
    pattern made of the prefix followed by a slash and three dots.  When the
    prefix is not valid UTF-8, [matchPattern] panics.  Otherwise the
    predicate accepts exactly the names whose runes are those of the prefix,
    or those of the prefix, a slash and any runes without a newline; among
    the names that are valid UTF-8 these are the prefix itself and every
    name that continues it with a slash and any text without a newline, and
    no other name. *)
Theorem subtree_pattern (prefix : string) :
  (∀ a b, prefix ≠ a +:+ "..." +:+ b) →
  if Regexp.checkUTF8 prefix
  then ∃ f,
         matchPattern (prefix +:+ "/...") = Some f
         ∧ (∀ name,
              f name = true ↔
              utf8.runes name = utf8.runes prefix
              ∨ ∃ rest, utf8.runes name = utf8.runes prefix ++ ch "/" :: rest
                        ∧ noNewlineRune rest)
         ∧ (∀ name,
              Regexp.checkUTF8 name = true →
              (f name = true ↔
               name = prefix
               ∨ ∃ rest, name = prefix +:+ "/" +:+ rest ∧ noNewline rest))
  else matchPattern (prefix +:+ "/...") = None.
Proof.
  intros Hno. destruct (Regexp.checkUTF8 prefix) eqn:Hv.
  - by apply subtree_of_prefix.
  - apply matchPattern_invalid. by rewrite checkUTF8_app_ascii, Hv.
Qed.

Lemma subtree_pattern_witness :
  ∃ f,
    matchPattern ("a.io/x" +:+ "/...") = Some f
    ∧ (∀ name,
         f name = true ↔
         utf8.runes name = utf8.runes "a.io/x"
         ∨ ∃ rest, utf8.runes name = utf8.runes "a.io/x" ++ ch "/" :: rest
                   ∧ noNewlineRune rest)
    ∧ (∀ name,
         Regexp.checkUTF8 name = true →
         (f name = true ↔
          name = "a.io/x"
          ∨ ∃ rest, name = "a.io/x" +:+ "/" +:+ rest ∧ noNewline rest)).
Proof.
  apply (subtree_pattern "a.io/x"). intros a b H.
  pose proof (tokens_has_dots a b) as Hin. rewrite <- H in Hin.
  vm_compute in Hin.
  repeat (apply elem_of_cons in Hin as [Hin|Hin]; [discriminate Hin|]).
  by apply elem_of_nil in Hin.
Defined.

(** ** [isStdlib] *)

Lemma firstField_contains_dot s :
  Strings.ContainsByte (Strings.FirstField s "/") "." = true ↔
  ∃ a b, s = a +:+ "." +:+ b ∧ Strings.ContainsByte a "/" = false.
Proof.
  induction s as [|c s IH]; simpl.
  - split; [done|]. intros (a & b & Heq & _). symmetry in Heq.
    apply string_app_eq_nil in Heq as [_ Heq].
    by rewrite string_app_cons in Heq.
  - destruct (Ascii.eqb_spec c "/") as [->|Hslash]; simpl.
    + split; [done|]. intros ([|a0 a] & b & Heq & Ha).
      * rewrite string_app_nil_l, string_app_cons in Heq. by injection Heq.
      * rewrite string_app_cons in Heq. injection Heq as <- _. by simpl in Ha.
    + destruct (Ascii.eqb_spec c ".") as [->|Hdot].
      * split; [|done]. intros _. exists "", s.
        by rewrite string_app_nil_l, string_app_cons, string_app_nil_l.
      * rewrite IH. split.
        -- intros (a & b & -> & Ha). exists (String c a), b.
           split; [by rewrite string_app_cons|]. simpl.
           by destruct (Ascii.eqb_spec c "/").
        -- intros ([|a0 a] & b & Heq & Ha).
           ++ rewrite string_app_nil_l, string_app_cons in Heq.
              by injection Heq as -> _.
           ++ rewrite string_app_cons in Heq. injection Heq as <- ->.
              exists a, b. split; [done|]. simpl in Ha.
              by destruct (Ascii.eqb_spec c "/").
Qed.

(** X12: a path is taken to be outside the standard library exactly when
    a dot occurs in it before any slash; what follows the first slash plays
    no part. *)
Theorem isStdlib_looks_at_first_element (pkg : string) :
  isStdlib pkg = false ↔
  ∃ a b, pkg = a +:+ "." +:+ b ∧ Strings.ContainsByte a "/" = false.
Proof.
  unfold isStdlib. rewrite negb_false_iff. apply firstField_contains_dot.
Qed.

(** ** [uniq] on any slice *)

Lemma squeeze_sublist l : ∀ prev, squeeze prev l `sublist_of` l.
Proof.
  induction l as [|s l IH]; intros prev; simpl; [done|].
  case_bool_decide; [by apply sublist_skip|by apply sublist_cons].
Qed.

Lemma squeeze_noRepeat l : ∀ prev, noRepeat prev (squeeze prev l).
Proof.
  induction l as [|s l IH]; intros prev; simpl; [done|].
  case_bool_decide as Hne; [|by apply IH]. simpl. split; [done|apply IH].
Qed.

Lemma squeeze_keeps l : ∀ prev x,
  x ∈ l → x ≠ prev → x ∈ squeeze prev l.
Proof.
  induction l as [|s l IH]; intros prev x Hin Hne; simpl.
  - by apply elem_of_nil in Hin.
  - apply elem_of_cons in Hin as [->|Hin].
    + rewrite bool_decide_eq_true_2 by done. by left.
    + case_bool_decide as Hs.
      * destruct (decide (x = s)) as [->|Hxs]; [by left|]. right. by apply IH.
      * by apply IH.
Qed.

Lemma squeeze_fixed l : ∀ prev, noRepeat prev l → squeeze prev l = l.
Proof.
  induction l as [|s l IH]; intros prev; simpl; [done|].
  intros [Hne Hl]. rewrite bool_decide_eq_true_2 by done. by rewrite IH.
Qed.

(** X13: on any slice, sorted or not, [uniq] returns the elements it
    keeps in their order, drops only elements equal to the element kept
    just before them (the empty string standing before the first), leaves
    no two equal neighbours, keeps at least one copy of every non-empty
    string, and returns a slice that has no such repetition as it is. *)
Theorem uniq_drops_repeated_neighbours (ss : list string) :
  uniq ss `sublist_of` ss
  ∧ noRepeat "" (uniq ss)
  ∧ (∀ x, x ∈ ss → x ≠ "" → x ∈ uniq ss)
  ∧ (noRepeat "" ss → uniq ss = ss)
  ∧ uniq (uniq ss) = uniq ss.
Proof.
  rewrite !uniq_squeeze. split; [apply squeeze_sublist|].
  split; [apply squeeze_noRepeat|]. split; [intros x; apply squeeze_keeps|].
  split; [apply squeeze_fixed|]. apply squeeze_fixed, squeeze_noRepeat.
Qed.

Lemma uniq_drops_repeated_neighbours_witness :
  noRepeat "" ["b"; "a"; "b"] ∧ uniq ["b"; "a"; "b"] = ["b"; "a"; "b"].
Proof.
  assert (H : noRepeat "" ["b"; "a"; "b"]).
  { simpl. repeat split; discriminate. }
  split; [exact H|].
  exact (proj1 (proj2 (proj2 (proj2 (uniq_drops_repeated_neighbours
                                       ["b"; "a"; "b"])))) H).
Defined.

(** ** One call of [markImporters] *)

(** X14: a call of [markImporters] on a marked path returns the marked set
    as it is; on an unmarked path without importers in the graph it adds
    that path alone; and on any path the graph mentions it returns within
    the budget [markFuel], keeps everything that was marked, marks the
    path, and adds only paths that import it directly or transitively. *)
Theorem markImporters_one_call (g : gmap string (list string))
    (pkg : string) (marked : gset string) (fuel : nat) :
  (pkg ∈ marked → markImporters (S fuel) pkg g marked = Some marked)
  ∧ (pkg ∉ marked → g !!! pkg = [] →
     markImporters (S fuel) pkg g marked = Some ({[pkg]} ∪ marked))
  ∧ (pkg ∈ nodes g →
     ∃ marked',
       markImporters (markFuel g) pkg g marked = Some marked'
       ∧ marked ⊆ marked'
       ∧ pkg ∈ marked'
       ∧ ∀ n, n ∈ marked' → n ∈ marked ∨ importsTransitively g pkg n).
Proof.
  split; [|split].
  - intros Hin. simpl. by rewrite bool_decide_eq_true_2.
  - intros Hnin Hnil. simpl. rewrite bool_decide_eq_false_2 by done.
    by rewrite Hnil.
  - intros Hnode.
    destruct (markImporters_spec g (markFuel g) pkg marked Hnode
                (markFuel_enough g marked))
      as (marked' & Heq & Hsub & Hpkg & Hsound & _).
    by exists marked'.
Qed.

Lemma markImporters_one_call_witness :
  "A" ∈ nodes closureExample
  ∧ ∃ marked',
      markImporters (markFuel closureExample) "A" closureExample {["X"]}
      = Some marked'
      ∧ "A" ∈ marked'.
Proof.
  assert (H : "A" ∈ nodes closureExample).
  { apply elem_of_nodes_key, elem_of_dom. by eexists. }
  split; [exact H|].
  destruct (proj2 (proj2 (markImporters_one_call closureExample "A" {["X"]} 0)) H)
    as (marked' & Heq & _ & Hin & _).
  exists marked'. split; [exact Heq|exact Hin].
Defined.

(** ** Every import of a traversed package is recorded *)

Lemma importsRecorded_grows E cwd fl rootPkgs g g' c :
  grows g g' →
  importsRecorded E cwd fl rootPkgs g c → importsRecorded E cwd fl rootPkgs g' c.
Proof.
  intros [Hd Hp] Hc n Hn. destruct (Hc n Hn) as [Hk Hin]. split; [by apply Hd|].
  destruct (Hp n) as [l ->]. apply elem_of_app. by left.
Qed.

Section traversal_complete.
Variables (E : Env) (cwd : string) (fl : Flags) (rootPkgs : gset string).

Lemma importLoopLog_complete recurseLog importPath names :
  (∀ name g g' log,
     recurseLog name g = (Some (g', None), log) →
     grows g g' ∧ Forall (importsRecorded E cwd fl rootPkgs g') log) →
  ∀ g g' log,
    importLoopLog fl recurseLog importPath names g = (Some (g', None), log) →
    grows g g'
    ∧ Forall (importsRecorded E cwd fl rootPkgs g') log
    ∧ ∀ n, n ∈ names → passesFilter fl n →
           n ∈ dom g' ∧ importPath ∈ g' !!! n.
Proof.
  intros Hrec. induction names as [|name names IH]; intros g g' log; simpl.
  - intros [= <- <-]. split; [apply grows_refl|]. split; [constructor|].
    by intros ? ?%elem_of_nil.
  - destruct (negb (std fl) && isStdlib name) eqn:Hskip.
    + intros Hloop. destruct (IH _ _ _ Hloop) as (Hg & Hlog & Hn).
      split; [done|]. split; [done|].
      intros n [->|Hin]%elem_of_cons Hp; [|by apply Hn].
      exfalso. apply andb_true_iff in Hskip as [Hs1 Hs2].
      apply negb_true_iff in Hs1. destruct Hp; congruence.
    + assert (Hnew : ∀ g2, grows (<[name := g !!! name ++ [importPath]]> g) g2 →
                grows g g2 ∧ name ∈ dom g2 ∧ importPath ∈ g2 !!! name).
      { intros g2 Hg2. split; [eapply grows_trans; [apply grows_append|done]|].
        destruct Hg2 as [Hd Hp]. split.
        - apply Hd. rewrite dom_insert_L. set_solver.
        - destruct (Hp name) as [l ->]. rewrite lookup_total_insert_eq.
          rewrite !elem_of_app. left. right. by left. }
      assert (Hfin : ∀ g1 log1,
                grows (<[name := g !!! name ++ [importPath]]> g) g1 →
                importLoopLog fl recurseLog importPath names g1
                = (Some (g', None), log1) →
                grows g g'
                ∧ Forall (importsRecorded E cwd fl rootPkgs g') log1
                ∧ ∀ n, n ∈ name :: names → passesFilter fl n →
                       n ∈ dom g' ∧ importPath ∈ g' !!! n).
      { intros g1 log1 Hg1 Hloop. destruct (IH _ _ _ Hloop) as (Hg & Hlog & Hn).
        destruct (Hnew g' (grows_trans _ _ _ Hg1 Hg)) as (Hgg & Hd & Hin).
        split; [done|]. split; [done|].
        intros n [->|Hin']%elem_of_cons Hp; [done|by apply Hn]. }
      destruct (all fl && negb _).
      * destruct (recurseLog name _) as [[[g1 [e|]]|] log1] eqn:Hcall; [done| |done].
        destruct (importLoopLog fl recurseLog importPath names g1)
          as [r log2] eqn:Hloop.
        intros [= -> <-]. destruct (Hrec _ _ _ _ Hcall) as [Hg1 Hlog1].
        destruct (Hfin g1 log2 Hg1 Hloop) as (Hg & Hlog2 & Hn).
        split; [done|]. split; [|done]. apply Forall_app. split; [|done].
        destruct (IH _ _ _ Hloop) as (Hg1' & _ & _).
        eapply Forall_impl; [exact Hlog1|]. intros c.
        by apply importsRecorded_grows.
      * intros Hloop. apply (Hfin _ log (grows_refl _) Hloop).
Qed.

Hypothesis range_ok : rangeVisitsAll E.

Lemma findImportsLog_complete fuel :
  ∀ name g g' log,
    findImportsLog E cwd fl rootPkgs fuel name g = (Some (g', None), log) →
    grows g g' ∧ Forall (importsRecorded E cwd fl rootPkgs g') log.
Proof.
  induction fuel as [|fuel IH]; intros name g g' log; [done|]. simpl.
  case_bool_decide; [intros [= <- <-]; split; [apply grows_refl|constructor]|].
  destruct (Import E name cwd ImportAll) as [pkg [e|]] eqn:Himp; [done|].
  destruct (importLoopLog _ _ _ _ _) as [r log1] eqn:Hloop.
  intros [= -> <-].
  destruct (importLoopLog_complete _ _ _ IH _ _ _ Hloop) as (Hg & Hlog & Hn).
  split; [eapply grows_trans; [apply grows_ensure|done]|].
  constructor; [|done]. intros n. simpl. rewrite Himp. simpl. intros Hin.
  apply Hn; [by apply rangeKeys_elem|by eapply imports_passesFilter].
Qed.

Lemma buildGraphLog_complete fuel pkgs :
  ∀ g g' log,
    buildGraphLog E cwd fl rootPkgs fuel pkgs g = (Some (Ok g'), log) →
    grows g g' ∧ Forall (importsRecorded E cwd fl rootPkgs g') log.
Proof.
  induction pkgs as [|pkg pkgs IH]; intros g g' log; simpl.
  - intros [= <- <-]. split; [apply grows_refl|constructor].
  - destruct (findImportsLog _ _ _ _ _ _ _) as [[[g1 [e|]]|] log1] eqn:Hcall;
      [done| |done].
    destruct (buildGraphLog E cwd fl rootPkgs fuel pkgs g1) as [r log2] eqn:Hrest.
    intros [= -> <-].
    destruct (findImportsLog_complete _ _ _ _ _ Hcall) as [Hg1 Hlog1].
    destruct (IH _ _ _ Hrest) as [Hg2 Hlog2].
    split; [by eapply grows_trans|]. apply Forall_app. split; [|done].
    eapply Forall_impl; [exact Hlog1|]. intros c. by apply importsRecorded_grows.
Qed.

End traversal_complete.

(** X15: when the graph is built, every package that was resolved on the
    way is listed as an importer under every path of its effective import
    set, and each of those paths is a key: no import of a traversed
    package is left out. *)
Theorem traversed_imports_recorded (E : Env) (cwd : string) (fl : Flags)
    (rootPkgs : gset string) (fuel : nat) (pkgs : list string)
    (g0 g : gmap string (list string)) (name : string) (pkg : Package) :
  rangeVisitsAll E →
  buildGraph E cwd fl rootPkgs fuel pkgs g0 = Some (Ok g) →
  (name, ImportAll) ∈ (buildGraphLog E cwd fl rootPkgs fuel pkgs g0).2 →
  Import E name cwd ImportAll = (pkg, None) →
  ∀ n, n ∈ imports fl pkg (bool_decide (ImportPath pkg ∈ rootPkgs)) →
       n ∈ dom g ∧ ImportPath pkg ∈ g !!! n.
Proof.
  intros HE Hbuild Hin Himp n Hn.
  rewrite <- buildGraphLog_result in Hbuild.
  destruct (buildGraphLog E cwd fl rootPkgs fuel pkgs g0) as [r log] eqn:Hlog.
  simpl in *. subst r.
  destruct (buildGraphLog_complete E cwd fl rootPkgs HE _ _ _ _ _ Hlog) as [_ Hall].
  rewrite Forall_forall in Hall. specialize (Hall _ Hin n).
  simpl in Hall. rewrite Himp in Hall. by apply Hall.
Qed.

Lemma traversed_imports_recorded_witness :
  rangeVisitsAll (exampleEnv chainTable [])
  ∧ "a.io/r" ∈ dom chainGraph
  ∧ "a.io/mid" ∈ chainGraph !!! "a.io/r".
Proof.
  split; [apply exampleEnv_range|].
  apply (traversed_imports_recorded (exampleEnv chainTable []) "/work"
           (applyWhy (whyFlags "a.io/r")) {["a.io/r"; "a.io/top"]} 10
           ["a.io/r"; "a.io/top"] ∅ chainGraph "a.io/mid"
           (examplePackage "a.io/mid" ["a.io/r"] [] ["mid.go"])).
  - apply exampleEnv_range.
  - vm_compute. reflexivity.
  - vm_compute. right. right. left.
  - vm_compute. reflexivity.
  - apply elem_of_addPackages. right. split; [by left|by right].
Defined.

(** ** The root set *)

(** X16: the root set is filled with the import paths that the resolver
    reports, in find-only mode, for the arguments: resolving the roots
    succeeds exactly when every argument is found, and the set then holds
    those import paths and what it held before, nothing else. *)
Theorem root_set_holds_resolved_paths (E : Env) (cwd : string)
    (pkgs : list string) (rootPkgs0 : gset string) :
  (Forall (λ p, (Import E p cwd FindOnly).2 = None) pkgs →
   ∃ rootPkgs,
     resolveRoots E cwd pkgs rootPkgs0 = Ok rootPkgs
     ∧ ∀ x, x ∈ rootPkgs ↔
            x ∈ rootPkgs0
            ∨ ∃ p, p ∈ pkgs ∧ ImportPath (Import E p cwd FindOnly).1 = x)
  ∧ (∀ rootPkgs,
       resolveRoots E cwd pkgs rootPkgs0 = Ok rootPkgs →
       Forall (λ p, (Import E p cwd FindOnly).2 = None) pkgs).
Proof.
  revert rootPkgs0. induction pkgs as [|pkg pkgs IH]; intros R0; simpl.
  - split; [|by constructor]. intros _. exists R0. split; [done|].
    intros x. split; [by left|]. intros [?|(? & ?%elem_of_nil & _)]; done.
  - destruct (Import E pkg cwd FindOnly) as [q [e|]] eqn:Himp.
    + split; [|done]. intros [Hq _]%Forall_cons. rewrite Himp in Hq. done.
    + destruct (IH ({[ImportPath q]} ∪ R0)) as [IH1 IH2]. split.
      * intros [_ Hrest]%Forall_cons. destruct (IH1 Hrest) as (R & -> & HR).
        exists R. split; [done|]. intros x.
        rewrite HR, elem_of_union, elem_of_singleton. split.
        -- intros [[->|?]|(p & Hp & Hx)]; [right|by left|right].
           ++ exists pkg. split; [by left|]. by rewrite Himp.
           ++ exists p. split; [by right|done].
        -- intros [?|(p & [->|Hp]%elem_of_cons & Hx)]; [by left; right| |].
           ++ left. left. by rewrite Himp in Hx.
           ++ right. by exists p.
      * intros R HR. constructor; [by rewrite Himp|by eapply IH2].
Qed.

Lemma root_set_holds_resolved_paths_witness :
  Forall (λ p, (Import (exampleEnv chainTable []) p "/work" FindOnly).2 = None)
    ["a.io/top"]
  ∧ ∃ rootPkgs,
      resolveRoots (exampleEnv chainTable []) "/work" ["a.io/top"] ∅ = Ok rootPkgs.
Proof.
  assert (H : Forall (λ p, (Import (exampleEnv chainTable []) p "/work" FindOnly).2
                           = None) ["a.io/top"]).
  { constructor; [vm_compute; reflexivity|constructor]. }
  split; [exact H|].
  destruct (proj1 (root_set_holds_resolved_paths (exampleEnv chainTable [])
                     "/work" ["a.io/top"] ∅) H) as (R & HR & _).
  exists R. exact HR.
Defined.

(** ** Files mode lists the named packages *)

(** X17: in files mode, when the program prints, the import path of every
    package named on the command line other than [C] is among the keys
    printed, and for every Go and cgo source file of the package found
    under that path the directory joined with the file name is a printed
    line: the roots are not removed and no filter is applied. *)
Theorem files_mode_lists_named_packages (E : Env) (fuel : nat) (flags : Flags)
    (args lines : list string) (cwd : string) :
  rangeVisitsAll E → files flags = true → Getwd E = Ok cwd →
  main E fuel flags args = Output lines →
  ∀ pkg,
    pkg ∈ ImportPaths E (if bool_decide (length args = 0) then ["."] else args) →
    pkg ≠ "C" →
    ∃ p,
      Import E pkg cwd ImportAll = (p, None)
      ∧ ∀ f,
          f ∈ GoFiles (Import E (ImportPath p) cwd ImportAll).1
              ++ CgoFiles (Import E (ImportPath p) cwd ImportAll).1 →
          filepath_Join E (Dir (Import E (ImportPath p) cwd ImportAll).1) f
          ∈ lines.
Proof.
  intros HE Hf Hwd Hmain pkg Hin Hne.
  destruct (main_Output _ _ _ _ _ Hmain)
    as (cwd' & whyMatch & rootPkgs & allPkgs & pruned
        & Hwd' & _ & Hbuild & Hp & ->).
  rewrite Hwd in Hwd'. injection Hwd' as <-.
  unfold prune in Hp. rewrite applyWhy_files, Hf in Hp. injection Hp as <-.
  destruct (buildGraph_root_entries _ _ _ _ _ _ _ _ Hbuild pkg Hin Hne)
    as (p & Himp & Hkey).
  exists p. split; [done|]. intros f Hfile.
  unfold render. apply list_elem_of_In, in_flat_map. exists (ImportPath p).
  split; [by apply list_elem_of_In, resultKeys_elem|].
  apply list_elem_of_In. unfold showEntry. rewrite applyWhy_files, Hf.
  destruct (Import E (ImportPath p) cwd ImportAll) as [q err]. simpl in *.
  rewrite app_assoc. apply elem_of_app. left. unfold showFiles.
  rewrite <- fmap_app. by apply list_elem_of_fmap_2.
Qed.

Lemma files_mode_lists_named_packages_witness :
  rangeVisitsAll (exampleEnv appTable [brokenDep])
  ∧ main (exampleEnv appTable [brokenDep]) 10 filesFlags ["a.io/app"]
    = Output ["/src/a.io/app/app.go"; "/src/a.io/dep/a.go"]
  ∧ ∃ p,
      Import (exampleEnv appTable [brokenDep]) "a.io/app" "/work" ImportAll
      = (p, None).
Proof.
  split; [apply exampleEnv_range|].
  assert (Hmain : main (exampleEnv appTable [brokenDep]) 10 filesFlags ["a.io/app"]
                  = Output ["/src/a.io/app/app.go"; "/src/a.io/dep/a.go"])
    by (vm_compute; reflexivity).
  split; [exact Hmain|].
  destruct (files_mode_lists_named_packages (exampleEnv appTable [brokenDep]) 10
              filesFlags ["a.io/app"] _ "/work"
              (exampleEnv_range appTable [brokenDep]) eq_refl eq_refl Hmain
              "a.io/app") as (p & Hp & _).
  - by left.
  - discriminate.
  - exists p. exact Hp.
Defined.

